(** * CLEOSim: the device-interaction registry and the optogenetic intervention

    A shallow embedding of [cleo/registry.py] (class
    [DeviceInteractionRegistry]) and of [cleosim/opto.py] (class
    [OptogeneticIntervention] with its transmittance model
    [_Foutz12_transmittance], and the opsin model [four_state]).

    - Registry quantities (irradiance, transmittance coefficients, photon
      energy, periods) are exact rationals [Q]; Brian units are taken in SI
      base units, so [meter = second = joule = 1].
    - Python dictionaries and sets keyed by object identity are [gmap] and
      [gset] over identifiers; dictionaries keyed by a name are [gmap] over
      strings.
    - A method that mutates the registry, and may raise, is a computation in
      the state-and-exception monad [M]: a raised exception keeps the state
      reached so far, as an in-place mutation does.
    - The transmittance model needs transcendental functions and lives over
      the reals, and so does the rest of [cleosim/opto.py] (module [opto]);
      an operation whose floating-point result is not finite (a division by
      zero, a square root of a negative number) is [None].  A real stands
      for the double that the code computes up to rounding: where an
      exponential underflows the code has 0.0 and the model a small positive
      number, so the bounds stated on computed transmittances away from the
      fiber tip are not strict. *)

From Stdlib Require Import QArith Qminmax Reals Lia Psatz.
From stdpp Require Import gmap list strings.

Local Open Scope Q_scope.

(** ** Identities *)

(** Devices and neuron groups are used as dictionary keys and set members;
    their classes hash by identity, so an identifier stands for the object. *)
Abbreviation Light := nat (only parsing).
Abbreviation LightDependent := nat (only parsing).
Abbreviation NeuronGroupId := nat (only parsing).
Abbreviation ObjId := nat (only parsing).

(** What the registry reads from its collaborators: attributes of lights and
    light-dependent devices, and the default clock.  None of these classes is
    defined in the registry module; they are parameters of the model. *)
Record World := {
  (** [light.n] *)
  light_n : Light -> nat;
  (** [light.wavelength] *)
  light_wavelength : Light -> Q;
  (** [light.scan_freq] *)
  light_scan_freq : Light -> Q;
  (** [light.transmittance(coords_from_ng(ng)).ravel()] *)
  light_transmittance : Light -> NeuronGroupId -> list Q;
  (** [ldd.epsilon(wavelength)] *)
  ldd_epsilon : LightDependent -> Q -> Q;
  (** [ldd.light_agg_ngs[ng.name]]: the size of the aggregator group, or
      [None] where the lookup raises [KeyError] *)
  ldd_light_agg_ngs : LightDependent -> NeuronGroupId -> option nat;
  (** [defaultclock.dt] *)
  defaultclock_dt : Q
}.

(** ** Brian objects *)

(** [slice(start, stop)] *)
Record slice := Slice { start : nat; stop : nat }.

(** The light-source [NeuronGroup]: one [Irr0] per source neuron. *)
Record NeuronGroup := {
  ng_obj : ObjId;
  Irr0 : list Q
}.

Definition N (g : NeuronGroup) : nat := length (Irr0 g).

(** One synapse of a light-propagation [Synapses] object, with the variables
    of [light_prop_model] that are stored per synapse. *)
Record Edge := {
  pre_i : nat;
  post_j : nat;
  var_T : Q;
  var_scale : Q;
  var_epsilon : Q;
  var_Ephoton : Q;
  var_raster_enable : Q;
  var_scan_period : Q;
  var_raster_dwell_time : Q
}.

Record Synapses := {
  syn_obj : ObjId;
  syn_edges : list Edge
}.

Definition set_T (v : Q) (e : Edge) : Edge :=
  {| pre_i := pre_i e; post_j := post_j e; var_T := v; var_scale := var_scale e;
     var_epsilon := var_epsilon e; var_Ephoton := var_Ephoton e;
     var_raster_enable := var_raster_enable e;
     var_scan_period := var_scan_period e;
     var_raster_dwell_time := var_raster_dwell_time e |}.

Definition set_scale (v : Q) (e : Edge) : Edge :=
  {| pre_i := pre_i e; post_j := post_j e; var_T := var_T e; var_scale := v;
     var_epsilon := var_epsilon e; var_Ephoton := var_Ephoton e;
     var_raster_enable := var_raster_enable e;
     var_scan_period := var_scan_period e;
     var_raster_dwell_time := var_raster_dwell_time e |}.

Definition set_epsilon (v : Q) (e : Edge) : Edge :=
  {| pre_i := pre_i e; post_j := post_j e; var_T := var_T e;
     var_scale := var_scale e; var_epsilon := v; var_Ephoton := var_Ephoton e;
     var_raster_enable := var_raster_enable e;
     var_scan_period := var_scan_period e;
     var_raster_dwell_time := var_raster_dwell_time e |}.

Definition set_Ephoton (v : Q) (e : Edge) : Edge :=
  {| pre_i := pre_i e; post_j := post_j e; var_T := var_T e;
     var_scale := var_scale e; var_epsilon := var_epsilon e; var_Ephoton := v;
     var_raster_enable := var_raster_enable e;
     var_scan_period := var_scan_period e;
     var_raster_dwell_time := var_raster_dwell_time e |}.

Definition set_raster_enable (v : Q) (e : Edge) : Edge :=
  {| pre_i := pre_i e; post_j := post_j e; var_T := var_T e;
     var_scale := var_scale e; var_epsilon := var_epsilon e;
     var_Ephoton := var_Ephoton e; var_raster_enable := v;
     var_scan_period := var_scan_period e;
     var_raster_dwell_time := var_raster_dwell_time e |}.

Definition set_scan_period (v : Q) (e : Edge) : Edge :=
  {| pre_i := pre_i e; post_j := post_j e; var_T := var_T e;
     var_scale := var_scale e; var_epsilon := var_epsilon e;
     var_Ephoton := var_Ephoton e; var_raster_enable := var_raster_enable e;
     var_scan_period := v;
     var_raster_dwell_time := var_raster_dwell_time e |}.

Definition set_raster_dwell_time (v : Q) (e : Edge) : Edge :=
  {| pre_i := pre_i e; post_j := post_j e; var_T := var_T e;
     var_scale := var_scale e; var_epsilon := var_epsilon e;
     var_Ephoton := var_Ephoton e; var_raster_enable := var_raster_enable e;
     var_scan_period := var_scan_period e;
     var_raster_dwell_time := v |}.

(** A synapse as [Synapses.connect()] leaves it: every variable is 0. *)
Definition new_edge (i j : nat) : Edge :=
  {| pre_i := i; post_j := j; var_T := 0; var_scale := 0; var_epsilon := 0;
     var_Ephoton := 0; var_raster_enable := 0; var_scan_period := 0;
     var_raster_dwell_time := 0 |}.

(** [Synapses.connect()] without arguments: all-to-all, ordered by source
    index and then by target index. *)
Definition connect_all (n_src n_tgt : nat) : list Edge :=
  flat_map (fun i => map (new_edge i) (seq 0 n_tgt)) (seq 0 n_src).

(** Whether index [i] lies in the slice, for nonnegative bounds. *)
Definition in_slice (sl : slice) (i : nat) : bool :=
  (start sl <=? i)%nat && (i <? stop sl)%nat.

(** [syn.var[i_source, :] = scalar] *)
Definition set_rows (sl : slice) (f : Edge -> Edge) (es : list Edge) : list Edge :=
  map (fun e => if in_slice sl (pre_i e) then f e else e) es.

(** [syn.var = scalar], and [syn.var = array] given edge by edge *)
Definition set_all (f : Edge -> Edge) (es : list Edge) : list Edge := map f es.

(** The synapses selected by [syn.var[i_source, :]]. *)
Definition selected (sl : slice) (es : list Edge) : list Edge :=
  filter (fun e => in_slice sl (pre_i e) = true) es.

(** [syn.var[i_source, :] = array] once the shapes agree: the k-th selected
    synapse takes the k-th value. *)
Fixpoint set_rows_array (sl : slice) (f : Q -> Edge -> Edge)
    (vals : list Q) (es : list Edge) : list Edge :=
  match es with
  | [] => []
  | e :: es' =>
      if in_slice sl (pre_i e) then
        match vals with
        | v :: vals' => f v e :: set_rows_array sl f vals' es'
        | [] => e :: set_rows_array sl f [] es'
        end
      else e :: set_rows_array sl f vals es'
  end.

(** ** The registry *)

Inductive Warning :=
  | UserWarning_single_fov.

Inductive Error :=
  | ValueError_already_connected (light : Light) (ldd : LightDependent)
      (ng : NeuronGroupId)
  | KeyError_light_agg_ngs (ldd : LightDependent) (ng : NeuronGroupId)
  | KeyError_subgroup_idx_for_light (light : Light)
  | IndexError_subgroup (first last : nat)
  | KeyError_brian_objects (obj : ObjId)
  | ValueError_network_remove (obj : ObjId)
  | TypeError_no_light_source
  | ValueError_NeuronGroup_size (n : nat)
  | ValueError_shape_mismatch
  | AssertionError.

(** The fields of [DeviceInteractionRegistry], then what the methods reach
    outside it: the network of [sim], the log of [warnings.warn] calls, and
    the next fresh object identity. *)
Record Registry := {
  subgroup_idx_for_light : gmap Light slice;
  light_source_ng : option NeuronGroup;
  ldds_for_ng : gmap NeuronGroupId (gset LightDependent);
  lights_for_ng : gmap NeuronGroupId (gset Light);
  light_prop_syns : gmap (LightDependent * NeuronGroupId) Synapses;
  connections : gset (Light * LightDependent * NeuronGroupId);
  raster_fov : Q;
  raster_enable : Q;
  brian_objects : gset ObjId;
  sim_network : gset ObjId;
  warnings_log : list Warning;
  next_obj : ObjId
}.

(** A registry as [DeviceInteractionRegistry(sim)] builds it. *)
Definition new_registry : Registry :=
  {| subgroup_idx_for_light := ∅;
     light_source_ng := None;
     ldds_for_ng := ∅;
     lights_for_ng := ∅;
     light_prop_syns := ∅;
     connections := ∅;
     raster_fov := 500 * 1e-6 * 1;
     raster_enable := 0;
     brian_objects := ∅;
     sim_network := ∅;
     warnings_log := [];
     next_obj := 0%nat |}.

Definition with_subgroup_idx_for_light (v : gmap Light slice) (s : Registry) : Registry :=
  {| subgroup_idx_for_light := v; light_source_ng := light_source_ng s;
     ldds_for_ng := ldds_for_ng s; lights_for_ng := lights_for_ng s;
     light_prop_syns := light_prop_syns s; connections := connections s;
     raster_fov := raster_fov s; raster_enable := raster_enable s;
     brian_objects := brian_objects s; sim_network := sim_network s;
     warnings_log := warnings_log s; next_obj := next_obj s |}.

Definition with_light_source_ng (v : option NeuronGroup) (s : Registry) : Registry :=
  {| subgroup_idx_for_light := subgroup_idx_for_light s; light_source_ng := v;
     ldds_for_ng := ldds_for_ng s; lights_for_ng := lights_for_ng s;
     light_prop_syns := light_prop_syns s; connections := connections s;
     raster_fov := raster_fov s; raster_enable := raster_enable s;
     brian_objects := brian_objects s; sim_network := sim_network s;
     warnings_log := warnings_log s; next_obj := next_obj s |}.

Definition with_ldds_for_ng (v : gmap NeuronGroupId (gset LightDependent))
    (s : Registry) : Registry :=
  {| subgroup_idx_for_light := subgroup_idx_for_light s;
     light_source_ng := light_source_ng s;
     ldds_for_ng := v; lights_for_ng := lights_for_ng s;
     light_prop_syns := light_prop_syns s; connections := connections s;
     raster_fov := raster_fov s; raster_enable := raster_enable s;
     brian_objects := brian_objects s; sim_network := sim_network s;
     warnings_log := warnings_log s; next_obj := next_obj s |}.

Definition with_lights_for_ng (v : gmap NeuronGroupId (gset Light))
    (s : Registry) : Registry :=
  {| subgroup_idx_for_light := subgroup_idx_for_light s;
     light_source_ng := light_source_ng s;
     ldds_for_ng := ldds_for_ng s; lights_for_ng := v;
     light_prop_syns := light_prop_syns s; connections := connections s;
     raster_fov := raster_fov s; raster_enable := raster_enable s;
     brian_objects := brian_objects s; sim_network := sim_network s;
     warnings_log := warnings_log s; next_obj := next_obj s |}.

Definition with_light_prop_syns
    (v : gmap (LightDependent * NeuronGroupId) Synapses) (s : Registry) : Registry :=
  {| subgroup_idx_for_light := subgroup_idx_for_light s;
     light_source_ng := light_source_ng s;
     ldds_for_ng := ldds_for_ng s; lights_for_ng := lights_for_ng s;
     light_prop_syns := v; connections := connections s;
     raster_fov := raster_fov s; raster_enable := raster_enable s;
     brian_objects := brian_objects s; sim_network := sim_network s;
     warnings_log := warnings_log s; next_obj := next_obj s |}.

Definition with_connections (v : gset (Light * LightDependent * NeuronGroupId))
    (s : Registry) : Registry :=
  {| subgroup_idx_for_light := subgroup_idx_for_light s;
     light_source_ng := light_source_ng s;
     ldds_for_ng := ldds_for_ng s; lights_for_ng := lights_for_ng s;
     light_prop_syns := light_prop_syns s; connections := v;
     raster_fov := raster_fov s; raster_enable := raster_enable s;
     brian_objects := brian_objects s; sim_network := sim_network s;
     warnings_log := warnings_log s; next_obj := next_obj s |}.

Definition with_raster_fov (v : Q) (s : Registry) : Registry :=
  {| subgroup_idx_for_light := subgroup_idx_for_light s;
     light_source_ng := light_source_ng s;
     ldds_for_ng := ldds_for_ng s; lights_for_ng := lights_for_ng s;
     light_prop_syns := light_prop_syns s; connections := connections s;
     raster_fov := v; raster_enable := raster_enable s;
     brian_objects := brian_objects s; sim_network := sim_network s;
     warnings_log := warnings_log s; next_obj := next_obj s |}.

Definition with_raster_enable (v : Q) (s : Registry) : Registry :=
  {| subgroup_idx_for_light := subgroup_idx_for_light s;
     light_source_ng := light_source_ng s;
     ldds_for_ng := ldds_for_ng s; lights_for_ng := lights_for_ng s;
     light_prop_syns := light_prop_syns s; connections := connections s;
     raster_fov := raster_fov s; raster_enable := v;
     brian_objects := brian_objects s; sim_network := sim_network s;
     warnings_log := warnings_log s; next_obj := next_obj s |}.

Definition with_brian_objects (v : gset ObjId) (s : Registry) : Registry :=
  {| subgroup_idx_for_light := subgroup_idx_for_light s;
     light_source_ng := light_source_ng s;
     ldds_for_ng := ldds_for_ng s; lights_for_ng := lights_for_ng s;
     light_prop_syns := light_prop_syns s; connections := connections s;
     raster_fov := raster_fov s; raster_enable := raster_enable s;
     brian_objects := v; sim_network := sim_network s;
     warnings_log := warnings_log s; next_obj := next_obj s |}.

Definition with_sim_network (v : gset ObjId) (s : Registry) : Registry :=
  {| subgroup_idx_for_light := subgroup_idx_for_light s;
     light_source_ng := light_source_ng s;
     ldds_for_ng := ldds_for_ng s; lights_for_ng := lights_for_ng s;
     light_prop_syns := light_prop_syns s; connections := connections s;
     raster_fov := raster_fov s; raster_enable := raster_enable s;
     brian_objects := brian_objects s; sim_network := v;
     warnings_log := warnings_log s; next_obj := next_obj s |}.

Definition with_warnings_log (v : list Warning) (s : Registry) : Registry :=
  {| subgroup_idx_for_light := subgroup_idx_for_light s;
     light_source_ng := light_source_ng s;
     ldds_for_ng := ldds_for_ng s; lights_for_ng := lights_for_ng s;
     light_prop_syns := light_prop_syns s; connections := connections s;
     raster_fov := raster_fov s; raster_enable := raster_enable s;
     brian_objects := brian_objects s; sim_network := sim_network s;
     warnings_log := v; next_obj := next_obj s |}.

Definition with_next_obj (v : ObjId) (s : Registry) : Registry :=
  {| subgroup_idx_for_light := subgroup_idx_for_light s;
     light_source_ng := light_source_ng s;
     ldds_for_ng := ldds_for_ng s; lights_for_ng := lights_for_ng s;
     light_prop_syns := light_prop_syns s; connections := connections s;
     raster_fov := raster_fov s; raster_enable := raster_enable s;
     brian_objects := brian_objects s; sim_network := sim_network s;
     warnings_log := warnings_log s; next_obj := v |}.

(** ** Methods as computations *)

(** The outcome of a method call: it returns, or it raises; either way the
    registry is left in the state the call reached. *)
Inductive Result (A : Type) :=
  | Ok (a : A) (s : Registry)
  | Raise (e : Error) (s : Registry).
Arguments Ok {A} a s.
Arguments Raise {A} e s.

Definition M (A : Type) : Type := Registry -> Result A.

Definition state_of {A} (r : Result A) : Registry :=
  match r with Ok _ s => s | Raise _ s => s end.

#[global] Instance M_ret : MRet M := fun A a s => Ok a s.
#[global] Instance M_bind : MBind M := fun A B k m s =>
  match m s with
  | Ok a s' => k a s'
  | Raise e s' => Raise e s'
  end.

Definition raise {A} (e : Error) : M A := fun s => Raise e s.
Definition gets {A} (f : Registry -> A) : M A := fun s => Ok (f s) s.
Definition modify (f : Registry -> Registry) : M unit := fun s => Ok tt (f s).

(** [for x in xs: body(x)]; an exception leaves the loop. *)
Fixpoint for_each {A} (body : A -> M unit) (xs : list A) : M unit :=
  match xs with
  | [] => mret tt
  | x :: xs' => body x ;; for_each body xs'
  end.

(** A new Python object: its identity is fresh. *)
Definition new_object : M ObjId :=
  fun s => Ok (next_obj s) (with_next_obj (S (next_obj s)) s).

(** [numpy.pi], to the sixteen digits Python prints. *)
Definition pi : Q := 3.141592653589793.

(** [(b).astype(int)] *)
Definition astype_int (b : bool) : Q := if b then 1 else 0.

(** [a > b] on numbers *)
Definition Qgtb (a b : Q) : bool := negb (Qle_bool a b).

Section Methods.
Context (W : World).

(** [_add_brian_object] *)
Definition _add_brian_object (obj : ObjId) : M unit :=
  modify (fun s => with_brian_objects ({[obj]} ∪ brian_objects s) s) ;;
  modify (fun s => with_sim_network ({[obj]} ∪ sim_network s) s).

(** [_remove_brian_object]: [set.remove] and [Network.remove] raise on an
    object that is not there. *)
Definition _remove_brian_object (obj : ObjId) : M unit :=
  objs ← gets brian_objects;
  (if decide (obj ∈ objs)
   then modify (fun s => with_brian_objects (brian_objects s ∖ {[obj]}) s)
   else raise (KeyError_brian_objects obj)) ;;
  net ← gets sim_network;
  if decide (obj ∈ net)
  then modify (fun s => with_sim_network (sim_network s ∖ {[obj]}) s)
  else raise (ValueError_network_remove obj).

(** A write through a [Synapses] reference held in [light_prop_syns]: the
    object is shared, so the write lands in the table entry. *)
Definition syn_write (h : LightDependent * NeuronGroupId)
    (f : list Edge -> list Edge) : M unit :=
  modify (fun s =>
    with_light_prop_syns
      (alter (fun syn => {| syn_obj := syn_obj syn;
                            syn_edges := f (syn_edges syn) |}) h
         (light_prop_syns s)) s).

(** [syn.var[i_source, :] = array]: the array has one value per selected
    synapse, or a single value that is broadcast; other shapes raise. *)
Definition syn_write_array (h : LightDependent * NeuronGroupId) (sl : slice)
    (f : Q -> Edge -> Edge) (vals : list Q) : M unit :=
  syns ← gets light_prop_syns;
  let es := default [] (syn_edges <$> syns !! h) in
  if (length vals =? length (selected sl es))%nat
  then syn_write h (set_rows_array sl f vals)
  else match vals with
       | [v] => syn_write h (set_rows sl (f v))
       | _ => raise ValueError_shape_mismatch
       end.

(** [_get_or_create_light_prop_syn]; the result is the reference to the
    table entry. *)
Definition _get_or_create_light_prop_syn (ldd : LightDependent)
    (ng : NeuronGroupId) : M (LightDependent * NeuronGroupId) :=
  syns ← gets light_prop_syns;
  match syns !! (ldd, ng) with
  | None =>
      match ldd_light_agg_ngs W ldd ng with
      | None => raise (KeyError_light_agg_ngs ldd ng)
      | Some n_tgt =>
          src ← gets light_source_ng;
          match src with
          | None => raise TypeError_no_light_source
          | Some g =>
              obj ← new_object;
              let light_prop_syn :=
                {| syn_obj := obj;
                   (* non-zero initialization to avoid nans from /0 *)
                   syn_edges := set_all (set_Ephoton (1 * 1))
                                  (connect_all (N g) n_tgt) |} in
              _add_brian_object obj ;;
              modify (fun s =>
                with_light_prop_syns
                  (<[(ldd, ng) := light_prop_syn]> (light_prop_syns s)) s)
          end
      end
  | Some _ => mret tt
  end ;;
  mret (ldd, ng).

(** The value written to [scale]; [dwell] is the synapse's
    [raster_dwell_time]. *)
Definition oversampling_scale (dt dwell : Q) : Q :=
  1 + astype_int (Qgtb dt dwell) * (dt / dwell - 1).

(** The value written to [raster_dwell_time]. *)
Definition dwell_time (fov scan_freq : Q) : Q :=
  (pi * 10 ^ (-10) * 1) / (pi * (fov / 2) ^ 2) * 1 / scan_freq.

(** [Ephoton = h*c/lambda] *)
Definition photon_energy (wavelength : Q) : Q :=
  6.63e-34 * 1 * 1 / 1 * 2.998e8 * 1 / 1 / wavelength.

(** [connect_light_to_ldd_for_ng] *)
Definition connect_light_to_ldd_for_ng (light : Light) (ldd : LightDependent)
    (ng : NeuronGroupId) : M unit :=
  let epsilon := ldd_epsilon W ldd (light_wavelength W light) in
  if Qeq_bool epsilon 0 then mret tt
  else
    light_prop_syn ← _get_or_create_light_prop_syn ldd ng;
    cxns ← gets connections;
    if decide ((light, ldd, ng) ∈ cxns)
    then raise (ValueError_already_connected light ldd ng)
    else
      idx ← gets subgroup_idx_for_light;
      match idx !! light with
      | None => raise (KeyError_subgroup_idx_for_light light)
      | Some i_source =>
          syn_write light_prop_syn (set_rows i_source (set_epsilon epsilon)) ;;
          syn_write_array light_prop_syn i_source set_T
            (light_transmittance W light ng) ;;
          syn_write light_prop_syn
            (set_all (set_scan_period (1 / light_scan_freq W light))) ;;
          fov ← gets raster_fov;
          syn_write light_prop_syn
            (set_all (set_raster_dwell_time
                        (dwell_time fov (light_scan_freq W light)))) ;;
          syn_write light_prop_syn
            (set_all (fun e =>
               set_scale (oversampling_scale (defaultclock_dt W)
                            (var_raster_dwell_time e)) e)) ;;
          enable ← gets raster_enable;
          syn_write light_prop_syn (set_all (set_raster_enable enable)) ;;
          syn_write light_prop_syn
            (set_rows i_source
               (set_Ephoton (photon_energy (light_wavelength W light)))) ;;
          modify (fun s =>
            with_connections ({[(light, ldd, ng)]} ∪ connections s) s)
      end.

(** [register_ldd] *)
Definition register_ldd (ldd : LightDependent) (ng : NeuronGroupId) : M unit :=
  modify (fun s =>
    match ldds_for_ng s !! ng with
    | None => with_ldds_for_ng (<[ng := ∅]> (ldds_for_ng s)) s
    | Some _ => s
    end) ;;
  modify (fun s =>
    with_ldds_for_ng (alter (fun ldds => {[ldd]} ∪ ldds) ng (ldds_for_ng s)) s) ;;
  lights ← gets lights_for_ng;
  let prev_injct_lights := default ∅ (lights !! ng) in
  for_each (fun light => connect_light_to_ldd_for_ng light ldd ng)
    (elements prev_injct_lights).

(** [register_light] *)
Definition register_light (light : Light) (ng : NeuronGroupId) : M unit :=
  modify (fun s =>
    match lights_for_ng s !! ng with
    | None => with_lights_for_ng (<[ng := ∅]> (lights_for_ng s)) s
    | Some _ => s
    end) ;;
  modify (fun s =>
    with_lights_for_ng
      (alter (fun lights => {[light]} ∪ lights) ng (lights_for_ng s)) s) ;;
  ldds ← gets ldds_for_ng;
  let prev_injct_ldds := default ∅ (ldds !! ng) in
  for_each (fun ldd => connect_light_to_ldd_for_ng light ldd ng)
    (elements prev_injct_ldds).

(** What [register] finds among the device's ancestor classes. *)
Inductive Device :=
  | A_Light (light : Light)
  | A_LightDependent (ldd : LightDependent)
  | Another_device.

(** [register] *)
Definition register (device : Device) (ng : NeuronGroupId) : M unit :=
  match device with
  | A_Light light => register_light light ng
  | A_LightDependent ldd => register_ldd ldd ng
  | Another_device => mret tt
  end.

(** [init_register_light] *)
Definition init_register_light (light : Light) : M unit :=
  src ← gets light_source_ng;
  prev ← match src with
         | Some g =>
             _remove_brian_object (ng_obj g) ;;
             mret (Irr0 g, N g)
         | None => mret ([], 0%nat)
         end;
  let Irr0_prev := prev.1 in
  let n_prev := prev.2 in
  (* Brian: a NeuronGroup has at least one neuron *)
  (if (n_prev + light_n W light <? 1)%nat
   then raise (ValueError_NeuronGroup_size (n_prev + light_n W light))
   else mret tt) ;;
  obj ← new_object;
  let fresh_Irr0 := repeat 0 (n_prev + light_n W light) in
  modify (with_light_source_ng
    (Some {| ng_obj := obj;
             Irr0 := if (0 <? n_prev)%nat
                     then Irr0_prev ++ drop n_prev fresh_Irr0
                     else fresh_Irr0 |})) ;;
  _add_brian_object obj ;;
  modify (fun s =>
    with_subgroup_idx_for_light
      (<[light := Slice n_prev (n_prev + light_n W light)]>
         (subgroup_idx_for_light s)) s) ;;
  syns ← gets light_prop_syns;
  for_each (fun light_prop_syn => _remove_brian_object (syn_obj light_prop_syn))
    (map_to_list syns).*2 ;;
  prev_cxns ← gets connections;
  modify (with_connections ∅) ;;
  modify (with_light_prop_syns ∅) ;;
  for_each (fun c => connect_light_to_ldd_for_ng c.1.1 c.1.2 c.2)
    (elements prev_cxns) ;;
  cxns ← gets connections;
  if decide (prev_cxns = cxns) then mret tt else raise AssertionError.

(** [source_for_light]: the values seen through the returned subgroup.
    Indexing a Brian group with a slice clamps its bounds to the size of the
    group and raises [IndexError] unless the first index is below the last:
    there is no empty subgroup. *)
Definition source_for_light (light : Light) : M (list Q) :=
  idx ← gets subgroup_idx_for_light;
  match idx !! light with
  | None => raise (KeyError_subgroup_idx_for_light light)
  | Some i =>
      src ← gets light_source_ng;
      match src with
      | None => raise TypeError_no_light_source
      | Some g =>
          let first := Nat.min (start i) (N g) in
          let last := Nat.min (stop i) (N g) in
          if (last <=? first)%nat
          then raise (IndexError_subgroup first last)
          else mret (take (last - first) (drop first (Irr0 g)))
      end
  end.

(** [update_fov] *)
Definition update_fov (new_fov : Q) : M unit :=
  modify (with_raster_enable 1) ;;
  fov ← gets raster_fov;
  if negb (Qeq_bool fov new_fov)
  then modify (with_raster_fov new_fov) ;;
       modify (fun s =>
         with_warnings_log (warnings_log s ++ [UserWarning_single_fov]) s)
  else mret tt.

(** Not a method of the registry: what the holders of the light-source
    group do to it between two calls.  A light drives its neurons through
    the subgroup that [source_for_light] returns; any assignment of [Irr0]
    values is allowed here, the size of the group being fixed. *)
Definition write_Irr0 (values : list Q) : M unit :=
  modify (fun s =>
    match light_source_ng s with
    | Some g =>
        if (length values =? N g)%nat
        then with_light_source_ng (Some {| ng_obj := ng_obj g; Irr0 := values |}) s
        else s
    | None => s
    end).

End Methods.

(** ** Reachable states *)

(** The calls a simulation makes on the registry between its creation and
    any later moment.  A call that raises leaves the state it reached. *)
Inductive Call :=
  | Call_register (device : Device) (ng : NeuronGroupId)
  | Call_register_light (light : Light) (ng : NeuronGroupId)
  | Call_register_ldd (ldd : LightDependent) (ng : NeuronGroupId)
  | Call_connect (light : Light) (ldd : LightDependent) (ng : NeuronGroupId)
  | Call_init_register_light (light : Light)
  | Call_update_fov (new_fov : Q)
  | Call_write_Irr0 (values : list Q).

Definition call (W : World) (c : Call) : M unit :=
  match c with
  | Call_register device ng => register W device ng
  | Call_register_light light ng => register_light W light ng
  | Call_register_ldd ldd ng => register_ldd W ldd ng
  | Call_connect light ldd ng => connect_light_to_ldd_for_ng W light ldd ng
  | Call_init_register_light light => init_register_light W light
  | Call_update_fov new_fov => update_fov new_fov
  | Call_write_Irr0 values => write_Irr0 values
  end.

Inductive reachable (W : World) : Registry -> Prop :=
  | reachable_new : reachable W new_registry
  | reachable_call s c :
      reachable W s -> reachable W (state_of (call W c s)).

(** A call that rebuilds the light-source container. *)
Definition is_rebuild (c : Call) : bool :=
  match c with
  | Call_init_register_light _ => true
  | _ => false
  end.

(** States reached from [s] by calls none of which rebuilds the container. *)
Inductive reachable_without_rebuild (W : World) (s : Registry) : Registry -> Prop :=
  | without_rebuild_refl : reachable_without_rebuild W s s
  | without_rebuild_call s' c :
      reachable_without_rebuild W s s' -> is_rebuild c = false ->
      reachable_without_rebuild W s (state_of (call W c s')).

(** The grid of (source, target) indices of a synapse list. *)
Definition edge_index (e : Edge) : nat * nat := (pre_i e, post_j e).
Definition shape (es : list Edge) : list (nat * nat) := map edge_index es.

(** The photon flux term of one synapse, [Irr_post / Ephoton]: [None] where
    the division is by zero. *)
Definition phi_post (Irr_post : Q) (e : Edge) : option Q :=
  if Qeq_bool (var_Ephoton e) 0 then None else Some (Irr_post / var_Ephoton e).

(** The values of [Irr0] seen through a slice. *)
Definition read_slice (sl : slice) (g : NeuronGroup) : list Q :=
  take (stop sl - start sl) (drop (start sl) (Irr0 g)).

(** How many synapses a slice selects depends on the shape only. *)
Definition count_rows (sl : slice) (ix : list (nat * nat)) : nat :=
  length (filter (fun p => in_slice sl p.1 = true) ix).

(** ** Well-formed registries *)

(** What a connection needs from the devices and from the slice table for
    [connect_light_to_ldd_for_ng] to go through: a nonzero sensitivity, a
    registered source, an aggregator group, and a transmittance array that
    fits the light's rows (or a single value, which is broadcast). *)
Definition connectable (W : World) (s : Registry)
    (c : Light * LightDependent * NeuronGroupId) : Prop :=
  Qeq_bool (ldd_epsilon W c.1.2 (light_wavelength W c.1.1)) 0 = false /\
  is_Some (subgroup_idx_for_light s !! c.1.1) /\
  exists m, ldd_light_agg_ngs W c.1.2 c.2 = Some m /\
    (length (light_transmittance W c.1.1 c.2) = (light_n W c.1.1 * m)%nat \/
     length (light_transmittance W c.1.1 c.2) = 1%nat).

(** The invariant of the registry: the bookkeeping of Brian objects, a
    light-source group that is not empty, the slices inside it, every
    coupling structure built on the current group, every connection backed
    by a structure. *)
Record wf (W : World) (s : Registry) : Prop := {
  wf_network : brian_objects s ⊆ sim_network s;
  wf_fresh : forall o, o ∈ brian_objects s -> (o < next_obj s)%nat;
  wf_source_obj : forall G,
    light_source_ng s = Some G -> ng_obj G ∈ brian_objects s;
  wf_source_size : forall G,
    light_source_ng s = Some G -> (0 < N G)%nat;
  wf_syn_obj : forall k syn,
    light_prop_syns s !! k = Some syn -> syn_obj syn ∈ brian_objects s;
  wf_syn_inj : forall k1 k2 syn1 syn2,
    light_prop_syns s !! k1 = Some syn1 ->
    light_prop_syns s !! k2 = Some syn2 ->
    syn_obj syn1 = syn_obj syn2 -> k1 = k2;
  wf_syn_src : forall k syn G,
    light_prop_syns s !! k = Some syn -> light_source_ng s = Some G ->
    syn_obj syn <> ng_obj G;
  wf_slices : forall l sl,
    subgroup_idx_for_light s !! l = Some sl ->
    exists G, light_source_ng s = Some G /\
      stop sl = (start sl + light_n W l)%nat /\ (stop sl <= N G)%nat;
  wf_syn_shape : forall k syn,
    light_prop_syns s !! k = Some syn ->
    exists G m, light_source_ng s = Some G /\
      ldd_light_agg_ngs W k.1 k.2 = Some m /\
      shape (syn_edges syn) = shape (connect_all (N G) m);
  wf_cxns : forall c,
    c ∈ connections s ->
    connectable W s c /\ is_Some (light_prop_syns s !! (c.1.2, c.2))
}.

(** ** States after a call *)

(** The registry once [_get_or_create_light_prop_syn] has created the
    structure for [(ldd, ng)] on source group [g]. *)
Definition created (ldd : LightDependent) (ng : NeuronGroupId)
    (g : NeuronGroup) (n_tgt : nat) (s : Registry) : Registry :=
  with_light_prop_syns
    (<[(ldd, ng) := {| syn_obj := next_obj s;
                       syn_edges := set_all (set_Ephoton 1)
                                      (connect_all (N g) n_tgt) |}]>
       (light_prop_syns s))
    (with_sim_network ({[next_obj s]} ∪ sim_network s)
       (with_brian_objects ({[next_obj s]} ∪ brian_objects s)
          (with_next_obj (S (next_obj s)) s))).

(** The outcome of the array assignment of [T] on a synapse list. *)
Definition assign_rows_array (sl : slice) (f : Q -> Edge -> Edge)
    (vals : list Q) (es : list Edge) : option (list Edge) :=
  if (length vals =? length (selected sl es))%nat
  then Some (set_rows_array sl f vals es)
  else match vals with
       | [v] => Some (set_rows sl (f v) es)
       | _ => None
       end.

(** The writes of a connection after the one of [T], on a synapse list. *)
Definition write_raster (W : World) (s : Registry) (light : Light)
    (i_source : slice) (es : list Edge) : list Edge :=
  set_rows i_source (set_Ephoton (photon_energy (light_wavelength W light)))
    (set_all (set_raster_enable (raster_enable s))
       (set_all (fun e => set_scale (oversampling_scale (defaultclock_dt W)
                                       (var_raster_dwell_time e)) e)
          (set_all (set_raster_dwell_time
                      (dwell_time (raster_fov s) (light_scan_freq W light)))
             (set_all (set_scan_period (1 / light_scan_freq W light)) es)))).

(** The registry with the synapses of structure [h] replaced. *)
Definition with_edges (h : LightDependent * NeuronGroupId)
    (f : list Edge -> list Edge) (s : Registry) : Registry :=
  with_light_prop_syns
    (alter (fun syn => {| syn_obj := syn_obj syn;
                          syn_edges := f (syn_edges syn) |}) h
       (light_prop_syns s)) s.

(** The synapses of structure [h], none if there is no such structure. *)
Definition edges_of (s : Registry) (h : LightDependent * NeuronGroupId) : list Edge :=
  default [] (syn_edges <$> light_prop_syns s !! h).

(** What a connection leaves alone in the registry. *)
Definition same_setup (s s' : Registry) : Prop :=
  subgroup_idx_for_light s' = subgroup_idx_for_light s /\
  light_source_ng s' = light_source_ng s /\
  ldds_for_ng s' = ldds_for_ng s /\
  lights_for_ng s' = lights_for_ng s /\
  raster_fov s' = raster_fov s /\
  raster_enable s' = raster_enable s /\
  warnings_log s' = warnings_log s.

(** A sequence of calls, each from the state the previous one left. *)
Definition run_calls (W : World) (cs : list Call) (s : Registry) : Registry :=
  fold_left (fun s c => state_of (call W c s)) cs s.

(** The light-source group that [init_register_light] builds: the previous
    values first, then the new light's neurons. *)
Definition new_source (W : World) (light : Light) (s : Registry) : NeuronGroup :=
  let n_prev := from_option N 0%nat (light_source_ng s) in
  let Irr0_prev := from_option Irr0 [] (light_source_ng s) in
  {| ng_obj := next_obj s;
     Irr0 := if (0 <? n_prev)%nat
             then Irr0_prev ++ drop n_prev (repeat 0 (n_prev + light_n W light))
             else repeat 0 (n_prev + light_n W light) |}.

(** The registry in the middle of [init_register_light]: the new group is
    installed, the structures are torn down, nothing is replayed yet. *)
Definition torn_down (W : World) (light : Light) (s : Registry) : Registry :=
  let n_prev := from_option N 0%nat (light_source_ng s) in
  let old : gset ObjId := from_option (fun g => {[ng_obj g]}) ∅ (light_source_ng s) in
  let syn_objs : gset ObjId :=
    list_to_set (syn_obj <$> (map_to_list (light_prop_syns s)).*2) in
  {| subgroup_idx_for_light :=
       <[light := Slice n_prev (n_prev + light_n W light)]>
         (subgroup_idx_for_light s);
     light_source_ng := Some (new_source W light s);
     ldds_for_ng := ldds_for_ng s;
     lights_for_ng := lights_for_ng s;
     light_prop_syns := ∅;
     connections := ∅;
     raster_fov := raster_fov s;
     raster_enable := raster_enable s;
     brian_objects := ({[next_obj s]} ∪ (brian_objects s ∖ old)) ∖ syn_objs;
     sim_network := ({[next_obj s]} ∪ (sim_network s ∖ old)) ∖ syn_objs;
     warnings_log := warnings_log s;
     next_obj := S (next_obj s) |}.

(** ** The statements about the synapses *)

(** A synapse before ([e0]) and after ([e1]) a connection of [light], whose
    slice is [sl], to the structure of [ldd]: the sensitivity, the
    transmittance and the photon energy move inside the slice only; the
    raster variables are set on every synapse. *)
Definition connect_written (W : World) (s : Registry) (light : Light)
    (ldd : LightDependent) (sl : slice) (e0 e1 : Edge) : Prop :=
  edge_index e1 = edge_index e0 /\
  (in_slice sl (pre_i e0) = false ->
     var_T e1 = var_T e0 /\ var_epsilon e1 = var_epsilon e0 /\
     var_Ephoton e1 = var_Ephoton e0) /\
  (in_slice sl (pre_i e0) = true ->
     var_epsilon e1 = ldd_epsilon W ldd (light_wavelength W light) /\
     var_Ephoton e1 = photon_energy (light_wavelength W light)) /\
  var_scan_period e1 = 1 / light_scan_freq W light /\
  var_raster_dwell_time e1 = dwell_time (raster_fov s) (light_scan_freq W light) /\
  var_scale e1 = oversampling_scale (defaultclock_dt W)
                   (dwell_time (raster_fov s) (light_scan_freq W light)) /\
  var_raster_enable e1 = raster_enable s.

(** The frame of a connection read over every per-synapse variable: outside
    the light's slice, a synapse of the structure is as it was. *)
Definition writes_only_own_slice (W : World) : Prop :=
  forall s light ldd ng s' sl syn,
    Qeq_bool (ldd_epsilon W ldd (light_wavelength W light)) 0 = false ->
    light_prop_syns s !! (ldd, ng) = Some syn ->
    subgroup_idx_for_light s !! light = Some sl ->
    connect_light_to_ldd_for_ng W light ldd ng s = Ok tt s' ->
    Forall2 (fun e0 e1 => in_slice sl (pre_i e0) = false -> e1 = e0)
      (syn_edges syn) (edges_of s' (ldd, ng)).

(** The photon energy of every synapse is the initial joule, or the energy
    written by a connection that stands. *)
Definition Ephoton_written (W : World) (s : Registry) : Prop :=
  forall k syn e,
    light_prop_syns s !! k = Some syn -> e ∈ syn_edges syn ->
    var_Ephoton e = 1 \/
    exists l sl,
      (l, k.1, k.2) ∈ connections s /\
      subgroup_idx_for_light s !! l = Some sl /\
      in_slice sl (pre_i e) = true /\
      var_Ephoton e = photon_energy (light_wavelength W l).

(** ** The statement about the slices *)

(** Index [i] of the light-source group belongs to the slice of a light. *)
Definition covered (s : Registry) (i : nat) : Prop :=
  exists l sl, subgroup_idx_for_light s !! l = Some sl /\ in_slice sl i = true.

(** The slices of the registered lights are pairwise disjoint and cover the
    allocated range of the light-source group. *)
Definition slices_partition (s : Registry) : Prop :=
  (forall l1 l2 sl1 sl2 i,
     l1 <> l2 ->
     subgroup_idx_for_light s !! l1 = Some sl1 ->
     subgroup_idx_for_light s !! l2 = Some sl2 ->
     in_slice sl1 i = true -> in_slice sl2 i = false) /\
  (forall i, (i < from_option N 0 (light_source_ng s))%nat <-> covered s i).

(** ** A small simulation, for the examples *)

(** Two one-element lights that scan at different frequencies, devices that
    are all sensitive to them but device 9, and aggregator groups of one
    neuron. *)
Definition two_lights : World :=
  {| light_n := fun _ => 1%nat;
     light_wavelength := fun _ => 473e-9;
     light_scan_freq := fun l => if (l =? 0)%nat then 1000 else 2000;
     light_transmittance := fun _ _ => [1 # 2];
     ldd_epsilon := fun d _ => if (d =? 9)%nat then 0 else 1;
     ldd_light_agg_ngs := fun _ _ => Some 1%nat;
     defaultclock_dt := 1e-4 |}.

(** Both lights are registered; light 0 is injected into group 7 and then
    device 5 is, which connects light 0 to device 5. *)
Definition one_connection : Registry :=
  run_calls two_lights
    [Call_init_register_light 0; Call_init_register_light 1;
     Call_register_light 0 7; Call_register_ldd 5 7] new_registry.

(** As [two_lights], but light 1 has no element. *)
Definition one_empty_light : World :=
  {| light_n := fun l => if (l =? 1)%nat then 0%nat else 1%nat;
     light_wavelength := fun _ => 473e-9;
     light_scan_freq := fun l => if (l =? 0)%nat then 1000 else 2000;
     light_transmittance := fun _ _ => [1 # 2];
     ldd_epsilon := fun d _ => if (d =? 9)%nat then 0 else 1;
     ldd_light_agg_ngs := fun _ _ => Some 1%nat;
     defaultclock_dt := 1e-4 |}.

(** The two lights of [one_empty_light] registered. *)
Definition empty_light_registered : Registry :=
  run_calls one_empty_light
    [Call_init_register_light 0; Call_init_register_light 1] new_registry.

(** The same light registered twice. *)
Definition registered_twice : Registry :=
  run_calls two_lights
    [Call_init_register_light 0; Call_init_register_light 0] new_registry.

(** [update_fov(100)] and then [update_fov(200)] on a new registry. *)
Definition two_fovs : Registry :=
  state_of (update_fov 200 (state_of (update_fov 100 new_registry))).

(** The lights of [one_connection] driven at 5 and 3 W/m2. *)
Definition irradiated : Registry :=
  run_calls two_lights [Call_write_Irr0 [5; 3]] one_connection.

(** ** The transmittance model of Foutz et al. 2012 *)

Section Foutz12_model.
Local Open Scope R_scope.

(** The keys of [light_model_params]. *)
Record light_model_params := {
  param_R0 : R;
  param_NAfib : R;
  param_wavelength : R;
  param_K : R;
  param_S : R;
  param_ntis : R
}.

(** [default_blue], in SI base units. *)
Definition default_blue : light_model_params :=
  {| param_R0 := 0.1 * 1e-3;
     param_NAfib := 0.37;
     param_wavelength := 473 * 1e-9;
     param_K := 0.125 / 1e-3;
     param_S := 7.37 / 1e-3;
     param_ntis := 1.36 |}.

(** Floating-point operations that leave the finite numbers are [None]:
    a division by zero, a square root of a negative number, an arcsine
    outside [[-1, 1]], a tangent at a pole. *)
Definition checked_div (x y : R) : option R :=
  if Req_dec_T y 0 then None else Some (x / y).

Definition checked_sqrt (x : R) : option R :=
  if Rle_dec 0 x then Some (sqrt x) else None.

Definition checked_arcsin (x : R) : option R :=
  if Rle_dec (-1) x then if Rle_dec x 1 then Some (asin x) else None else None.

Definition checked_tan (x : R) : option R :=
  if Req_dec_T (cos x) 0 then None else Some (tan x).

(** The inner function [kubelka_munk]; its argument [dist] is recomputed
    from [r] and [z]. *)
Definition kubelka_munk (p : light_model_params) (r z : R) : option R :=
  let S := param_S p in
  q ← checked_div (param_K p) S;
  let a := 1 + q in
  b ← checked_sqrt (a ^ 2 - 1);
  dist ← checked_sqrt (r ^ 2 + z ^ 2);
  checked_div b (a * sinh (b * S * dist) + b * cosh (b * S * dist)).

(** [_Foutz12_transmittance] *)
Definition _Foutz12_transmittance (p : light_model_params) (r z : R)
    (scatter spread gaussian : bool) : option R :=
  RzC ← (if spread then
           q ← checked_div (param_NAfib p) (param_ntis p);
           theta_div ← checked_arcsin q;
           t ← checked_tan theta_div;
           let Rz := param_R0 p + z * t in
           c ← checked_div (param_R0 p) Rz;
           Some (Rz, c ^ 2)
         else Some (param_R0 p, 1));
  let Rz := RzC.1 in
  let C := RzC.2 in
  G ← (if gaussian then
         n ← checked_div 1 (sqrt (2 * PI));
         q ← checked_div r Rz;
         Some (n * exp (-2 * q ^ 2))
       else Some 1);
  M ← (if scatter then
         _ ← checked_sqrt (r ^ 2 + z ^ 2);
         kubelka_munk p r z
       else Some 1);
  Some (G * C * M).

(** The quantities of the model in closed form. *)
Definition theta_div (p : light_model_params) : R :=
  asin (param_NAfib p / param_ntis p).

Definition apparent_radius (p : light_model_params) (z : R) : R :=
  param_R0 p + z * tan (theta_div p).

Definition km_a (p : light_model_params) : R := 1 + param_K p / param_S p.

Definition km_b (p : light_model_params) : R := sqrt (km_a p ^ 2 - 1).

Definition km_value (p : light_model_params) (r z : R) : R :=
  km_b p /
  (km_a p * sinh (km_b p * param_S p * sqrt (r ^ 2 + z ^ 2)) +
   km_b p * cosh (km_b p * param_S p * sqrt (r ^ 2 + z ^ 2))).

Definition transmittance_value (p : light_model_params) (r z : R) : R :=
  1 / sqrt (2 * PI) * exp (-2 * (r / apparent_radius p z) ^ 2) *
  (param_R0 p / apparent_radius p z) ^ 2 * km_value p r z.

(** Parameter sets of a fiber in an absorbing, scattering tissue: positive
    radius, absorbance and scattering, and a numerical aperture below the
    index of refraction. *)
Definition physical_params (p : light_model_params) : Prop :=
  0 < param_R0 p /\ 0 < param_K p /\ 0 < param_S p /\
  0 <= param_NAfib p /\ param_NAfib p < param_ntis p.

(** The transmittance does not increase with the magnitude of the axial
    offset, at any radial offset. *)
Definition axially_nonincreasing (p : light_model_params) : Prop :=
  forall r z1 z2 t1 t2,
    Rabs z1 <= Rabs z2 ->
    _Foutz12_transmittance p r z1 true true true = Some t1 ->
    _Foutz12_transmittance p r z2 true true true = Some t2 ->
    t2 <= t1.

End Foutz12_model.

(** The registries reached when no light is registered twice: a call of
    [init_register_light] is made for a light that has no slice yet. *)
Inductive reachable_registering_once (W : World) : Registry -> Prop :=
  | registering_once_new : reachable_registering_once W new_registry
  | registering_once_call s c :
      reachable_registering_once W s ->
      (forall light, c = Call_init_register_light light ->
         subgroup_idx_for_light s !! light = None) ->
      reachable_registering_once W (state_of (call W c s)).

(** [default_blue] for a tissue that does not absorb. *)
Definition no_absorption : light_model_params :=
  {| param_R0 := param_R0 default_blue;
     param_NAfib := param_NAfib default_blue;
     param_wavelength := param_wavelength default_blue;
     param_K := 0%R;
     param_S := param_S default_blue;
     param_ntis := param_ntis default_blue |}.

(** ** The statements about the Brian objects *)

(** Two registries that hold the same Brian objects, slices, coupling
    structures and connections; the membership maps, the raster settings,
    the warnings and the [Irr0] values may differ. *)
Definition same_structures (s s' : Registry) : Prop :=
  subgroup_idx_for_light s' = subgroup_idx_for_light s /\
  ng_obj <$> light_source_ng s' = ng_obj <$> light_source_ng s /\
  light_prop_syns s' = light_prop_syns s /\
  connections s' = connections s /\
  brian_objects s' = brian_objects s /\
  sim_network s' = sim_network s.

(** The Brian objects the registry answers for: the light-source group and
    the coupling structures of its table. *)
Definition own_object (s : Registry) (o : ObjId) : Prop :=
  (exists g, light_source_ng s = Some g /\ ng_obj g = o) \/
  (exists k syn, light_prop_syns s !! k = Some syn /\ syn_obj syn = o).

(** [brian_objects] holds these objects and no other, and they are the
    objects the registry has in the network. *)
Definition tracks_own_objects (s : Registry) : Prop :=
  (forall o, o ∈ brian_objects s <-> own_object s o) /\
  sim_network s = brian_objects s.

(** ** The statements about what the synapses carry *)

(** [Irr_norm = epsilon * T * Irr0_pre] of [light_prop_model]: the
    irradiance that one synapse passes on from its source neuron. *)
Definition Irr_norm (Irr0_pre : Q) (e : Edge) : Q :=
  var_epsilon e * var_T e * Irr0_pre.

(** A synapse with a transmittance has its source neuron in the slice of a
    light that is connected to the structure. *)
Definition transmits_when_connected (s : Registry) : Prop :=
  forall k syn e,
    light_prop_syns s !! k = Some syn -> e ∈ syn_edges syn ->
    var_T e = 0 \/
    exists l sl,
      (l, k.1, k.2) ∈ connections s /\
      subgroup_idx_for_light s !! l = Some sl /\
      in_slice sl (pre_i e) = true.

(** Two synapses with the same raster variables. *)
Definition same_raster (e1 e2 : Edge) : Prop :=
  var_scan_period e1 = var_scan_period e2 /\
  var_raster_dwell_time e1 = var_raster_dwell_time e2 /\
  var_scale e1 = var_scale e2 /\
  var_raster_enable e1 = var_raster_enable e2.

(** The synapses of one structure have the same raster variables. *)
Definition one_raster_per_structure (s : Registry) : Prop :=
  forall k syn e1 e2,
    light_prop_syns s !! k = Some syn ->
    e1 ∈ syn_edges syn -> e2 ∈ syn_edges syn -> same_raster e1 e2.



(** Both lights of [one_connection] connected to device 5 on group 7. *)
Definition two_connections : Registry :=
  run_calls two_lights [Call_connect 1 5 7] one_connection.

(** A registry whose group holds light 0 only. *)
Definition one_light : Registry :=
  run_calls two_lights [Call_init_register_light 0] new_registry.

(** ** The statements about the injections *)

(** A direct call of [connect_light_to_ldd_for_ng]. *)
Definition is_connect (c : Call) : bool :=
  match c with
  | Call_connect _ _ _ => true
  | _ => false
  end.

(** The registries reached through the injection interface: every call has
    returned, and none is a direct call of [connect_light_to_ldd_for_ng]. *)
Inductive reachable_by_injections (W : World) : Registry -> Prop :=
  | by_injections_new : reachable_by_injections W new_registry
  | by_injections_call s c s' :
      reachable_by_injections W s -> is_connect c = false ->
      call W c s = Ok tt s' -> reachable_by_injections W s'.

(** [light in lights_for_ng[ng]] and [ldd in ldds_for_ng[ng]] *)
Definition light_injected (s : Registry) (light : Light) (ng : NeuronGroupId) : Prop :=
  exists lights, lights_for_ng s !! ng = Some lights /\ light ∈ lights.

Definition ldd_injected (s : Registry) (ldd : LightDependent)
    (ng : NeuronGroupId) : Prop :=
  exists ldds, ldds_for_ng s !! ng = Some ldds /\ ldd ∈ ldds.

(** The connections are the pairs of a light and a light-dependent device
    injected into the same group, the device being sensitive to the light. *)
Definition connects_every_pair (W : World) (s : Registry) : Prop :=
  forall light ldd ng,
    (light, ldd, ng) ∈ connections s <->
    light_injected s light ng /\ ldd_injected s ldd ng /\
    Qeq_bool (ldd_epsilon W ldd (light_wavelength W light)) 0 = false.

(** The device has been injected into the group, which holds a partner the
    device is connected to. *)
Definition injected_with_partner (W : World) (s : Registry) (device : Device)
    (ng : NeuronGroupId) : Prop :=
  match device with
  | A_Light light =>
      light_injected s light ng /\
      exists ldd, ldd_injected s ldd ng /\
        Qeq_bool (ldd_epsilon W ldd (light_wavelength W light)) 0 = false
  | A_LightDependent ldd =>
      ldd_injected s ldd ng /\
      exists light, light_injected s light ng /\
        Qeq_bool (ldd_epsilon W ldd (light_wavelength W light)) 0 = false
  | Another_device => False
  end.

(** Lights 0 and 1 and devices 5 and 6 injected into group 7. *)
Definition two_by_two : Registry :=
  run_calls two_lights
    [Call_init_register_light 0; Call_init_register_light 1;
     Call_register (A_Light 0) 7; Call_register (A_LightDependent 5) 7;
     Call_register (A_Light 1) 7; Call_register (A_LightDependent 6) 7]
    new_registry.

(** ** The transmittance model with its switches *)

Section Foutz12_switches.
Local Open Scope R_scope.

(** The apparent radius that the model uses: it spreads with the depth
    when [spread] is set. *)
Definition radius_used (p : light_model_params) (z : R) (spread : bool) : R :=
  if spread then apparent_radius p z else param_R0 p.

(** The closed form of [_Foutz12_transmittance] for each choice of
    [scatter], [spread] and [gaussian]. *)
Definition switched_value (p : light_model_params) (r z : R)
    (scatter spread gaussian : bool) : R :=
  (if gaussian
   then 1 / sqrt (2 * PI) * exp (-2 * (r / radius_used p z spread) ^ 2)
   else 1) *
  (if spread then (param_R0 p / apparent_radius p z) ^ 2 else 1) *
  (if scatter then km_value p r z else 1).

End Foutz12_switches.

(** * The optogenetic intervention

    [OptogeneticIntervention] of [cleosim/opto.py], over the reals as the
    transmittance model is. *)

Module opto.
Local Open Scope R_scope.

(** ** Coordinates *)

(** A point or a vector, [(x, y, z)]. *)
Definition vec3 : Type := R * R * R.

Definition vsub (a b : vec3) : vec3 :=
  (a.1.1 - b.1.1, a.1.2 - b.1.2, a.2 - b.2).

Definition vscale (c : R) (a : vec3) : vec3 :=
  (c * a.1.1, c * a.1.2, c * a.2).

(** [usf.dot] of a row of coordinates and a column vector *)
Definition dot (a b : vec3) : R :=
  a.1.1 * b.1.1 + a.1.2 * b.1.2 + a.2 * b.2.

(** [np.sum(row ** 2)] *)
Definition sum_sq (a : vec3) : R := a.1.1 ^ 2 + a.1.2 ^ 2 + a.2 ^ 2.

(** [np.linalg.norm] *)
Definition norm (a : vec3) : R := sqrt (sum_sq a).

(** ** Exceptions *)

Inductive Error :=
  | ValueError_vstack
  | IndexError
  | BrianObjectException (variable : string)
  | DimensionMismatchError
  | ValueError_negative_Irr0.

Inductive Result (A : Type) :=
  | Ok (a : A)
  | Raise (e : Error).
Arguments Ok {A} a.
Arguments Raise {A} e.

(** ** Brian objects *)

Inductive Unit := volt | amp | another_unit.

(** The unit of a variable is the base unit of its dimension, so two of
    them are the same unit exactly when they have the same dimension;
    [another_unit] stands for any dimension but those of [volt] and [amp]. *)
Definition same_dimensions (unit1 unit2 : Unit) : bool :=
  match unit1, unit2 with
  | volt, volt | amp, amp | another_unit, another_unit => true
  | _, _ => false
  end.

(** [unit1 != unit2]: Brian compares two quantities only if they have the
    same dimensions, and raises [DimensionMismatchError] otherwise. *)
Definition Unit_ne (unit1 unit2 : Unit) : Result bool :=
  if same_dimensions unit1 unit2 then Ok false
  else Raise DimensionMismatchError.

(** The neuron group that is stimulated: its name, the units of the
    variables of its model, and the coordinates of its neurons. *)
Record NeuronGroup := {
  name : string;
  variables : gmap string Unit;
  x : list R;
  y : list R;
  z : list R
}.

(** One synapse of an opsin [Synapses] object: its source neuron, which is
    its target as well, and its variables.  A transmittance that is not a
    finite number is [None]. *)
Record Synapse := {
  syn_i : nat;
  var_Irr0 : R;
  var_C1 : R;
  var_O1 : R;
  var_O2 : R;
  var_rho_rel : R;
  var_T : option R
}.

(** The keys of [opsin_params]. *)
Record OpsinParams := {
  param_g0 : R;
  param_gamma : R;
  param_phim : R;
  param_k1 : R;
  param_k2 : R;
  param_p : R;
  param_Gf0 : R;
  param_kf : R;
  param_Gb0 : R;
  param_kb : R;
  param_q : R;
  param_Gd1 : R;
  param_Gd2 : R;
  param_Gr0 : R;
  param_E : R;
  param_v0 : R;
  param_v1 : R
}.

(** [ChR2_four_state], in SI base units. *)
Definition ChR2_four_state : OpsinParams :=
  {| param_g0 := 114000 * 1e-12;
     param_gamma := 0.00742;
     param_phim := 2.33e17 / 1e-6 / 1;
     param_k1 := 4.15 / 1e-3;
     param_k2 := 0.868 / 1e-3;
     param_p := 0.833;
     param_Gf0 := 0.0373 / 1e-3;
     param_kf := 0.0581 / 1e-3;
     param_Gb0 := 0.0161 / 1e-3;
     param_kb := 0.063 / 1e-3;
     param_q := 1.94;
     param_Gd1 := 0.105 / 1e-3;
     param_Gd2 := 0.0138 / 1e-3;
     param_Gr0 := 0.00033 / 1e-3;
     param_E := 0 * 1e-3;
     param_v0 := 43 * 1e-3;
     param_v1 := 17.1 * 1e-3 |}.

(** An opsin [Synapses] object: the names substituted for [V_VAR_NAME] and
    [IOPTO_VAR_NAME] in the opsin model, its namespace, which is the opsin
    parameters and [Ephoton], and its synapses. *)
Record Synapses := {
  syn_obj : nat;
  syn_name : string;
  v_var_name : string;
  Iopto_var_name : string;
  namespace : OpsinParams;
  namespace_Ephoton : option R;
  synapses : list Synapse
}.

(** ** The device *)

Record OptogeneticIntervention := {
  (** [self.name] *)
  opto_name : string;
  (** [self.opsin_params] *)
  opsin_params : OpsinParams;
  (** [self.light_model_params] *)
  model_params : light_model_params;
  location : vec3;
  dir_uvec : vec3;
  (** keyed by the name of the neuron group *)
  opto_syns : gmap string Synapses;
  max_Irr0_mW_per_mm2 : option R;
  max_Irr0_mW_per_mm2_viz : option R;
  (** [Stimulator.value], which [Stimulator.update] sets *)
  value : R;
  (** the identities of the objects in [self.brian_objects] *)
  brian_objects : gset nat;
  (** the next fresh object identity *)
  next_obj : nat
}.

(** [direction / np.linalg.norm(direction)] of [__init__]; a division by a
    zero norm does not give numbers. *)
Definition unit_vector (direction : vec3) : option vec3 :=
  ux ← checked_div direction.1.1 (norm direction);
  uy ← checked_div direction.1.2 (norm direction);
  uz ← checked_div direction.2 (norm direction);
  Some (ux, uy, uz).

(** [__init__], for a direction that can be normalized. *)
Definition __init__ (name : string) (opsin_params : OpsinParams)
    (light_model_params : light_model_params) (location direction : vec3)
    (max_Irr0_mW_per_mm2 : option R) : option OptogeneticIntervention :=
  u ← unit_vector direction;
  Some {| opto_name := name;
          opsin_params := opsin_params;
          model_params := light_model_params;
          location := location;
          dir_uvec := u;
          opto_syns := ∅;
          max_Irr0_mW_per_mm2 := max_Irr0_mW_per_mm2;
          max_Irr0_mW_per_mm2_viz := None;
          value := 0;
          brian_objects := ∅;
          next_obj := 0%nat |}.

(** [_get_rz_for_xyz] on flattened coordinates: [np.vstack] raises on rows
    of different lengths. *)
Definition _get_rz_for_xyz (location dir_uvec : vec3) (x y z : list R)
    : Result (list R * list R) :=
  if (length x =? length y)%nat && (length y =? length z)%nat then
    let coords := zip (zip x y) z in
    let rel_coords := map (fun c => vsub c location) coords in
    let zc := map (fun c => dot c dir_uvec) rel_coords in
    let r := zip_with (fun c zk => sqrt (sum_sq (vsub c (vscale zk dir_uvec))))
               rel_coords zc in
    Ok (r, zc)
  else Raise ValueError_vstack.

(** ** The opsin model [four_state] *)

(** [x ** y] on floats, where the result is a finite real number: a
    positive base, a zero base with a nonnegative exponent, or a negative
    base with an integer exponent. *)
Definition power (x y : R) : option R :=
  if Rlt_dec 0 x then Some (Rpower x y)
  else if Req_dec_T x 0 then
    (if Rlt_dec 0 y then Some 0 else if Req_dec_T y 0 then Some 1 else None)
  else if Req_dec_T (IZR (Int_part y)) y then Some (powerRZ x (Int_part y))
  else None.

Section four_state.
Context (P : OpsinParams).

(** [C2 = 1 - C1 - O1 - O2] *)
Definition C2 (s : Synapse) : R := 1 - var_C1 s - var_O1 s - var_O2 s.

(** [Irr = Irr0*T] and [phi = Irr / Ephoton] of the light model. *)
Definition Irr (s : Synapse) : option R :=
  T ← var_T s; Some (var_Irr0 s * T).

Definition phi (Ephoton : option R) (s : Synapse) : option R :=
  I ← Irr s; E ← Ephoton; checked_div I E.

(** [Theta = int(phi > 0*phi)] *)
Definition Theta (phi : R) : R := if Rgt_dec phi (0 * phi) then 1 else 0.

(** [Hp = Theta * phi**p/(phi**p + phim**p)] *)
Definition Hp (phi : R) : option R :=
  a ← power phi (param_p P);
  b ← power (param_phim P) (param_p P);
  checked_div (Theta phi * a) (a + b).

(** [Hq = Theta * phi**q/(phi**q + phim**q)] *)
Definition Hq (phi : R) : option R :=
  a ← power phi (param_q P);
  b ← power (param_phim P) (param_q P);
  checked_div (Theta phi * a) (a + b).

Definition Ga1 (phi : R) : option R := h ← Hp phi; Some (param_k1 P * h).
Definition Ga2 (phi : R) : option R := h ← Hp phi; Some (param_k2 P * h).
Definition Gf (phi : R) : option R :=
  h ← Hq phi; Some (param_kf P * h + param_Gf0 P).
Definition Gb (phi : R) : option R :=
  h ← Hq phi; Some (param_kb P * h + param_Gb0 P).

(** [dC1/dt = Gd1*O1 + Gr0*C2 - Ga1*C1] *)
Definition dC1_dt (phi : R) (s : Synapse) : option R :=
  ga1 ← Ga1 phi;
  Some (param_Gd1 P * var_O1 s + param_Gr0 P * C2 s - ga1 * var_C1 s).

(** [dO1/dt = Ga1*C1 + Gb*O2 - (Gd1+Gf)*O1] *)
Definition dO1_dt (phi : R) (s : Synapse) : option R :=
  ga1 ← Ga1 phi; gb ← Gb phi; gf ← Gf phi;
  Some (ga1 * var_C1 s + gb * var_O2 s - (param_Gd1 P + gf) * var_O1 s).

(** [dO2/dt = Ga2*C2 + Gf*O1 - (Gd2+Gb)*O2] *)
Definition dO2_dt (phi : R) (s : Synapse) : option R :=
  ga2 ← Ga2 phi; gf ← Gf phi; gb ← Gb phi;
  Some (ga2 * C2 s + gf * var_O1 s - (param_Gd2 P + gb) * var_O2 s).

(** The equation that the model leaves as a comment:
    [dC2/dt = Gd2*O2 - (Gr0+Ga2)*C2] *)
Definition dC2_dt (phi : R) (s : Synapse) : option R :=
  ga2 ← Ga2 phi;
  Some (param_Gd2 P * var_O2 s - (param_Gr0 P + ga2) * C2 s).

(** [fphi = O1 + gamma*O2] *)
Definition fphi (s : Synapse) : R := var_O1 s + param_gamma P * var_O2 s.

(** [fv = (1 - exp(-(V-E)/v0)) / -2], for the membrane potential [V] of the
    target neuron *)
Definition fv (V : R) : option R :=
  q ← checked_div (- (V - param_E P)) (param_v0 P);
  Some ((1 - exp q) / -2).

(** [IOPTO = g0*fphi*fv*(V-E)*rho_rel] *)
Definition IOPTO (V : R) (s : Synapse) : option R :=
  f ← fv V;
  Some (param_g0 P * fphi s * f * (V - param_E P) * var_rho_rel s).

End four_state.

(** ** Methods *)

Definition set_Irr0 (v : R) (s : Synapse) : Synapse :=
  {| syn_i := syn_i s; var_Irr0 := v; var_C1 := var_C1 s; var_O1 := var_O1 s;
     var_O2 := var_O2 s; var_rho_rel := var_rho_rel s; var_T := var_T s |}.

Definition set_C1 (v : R) (s : Synapse) : Synapse :=
  {| syn_i := syn_i s; var_Irr0 := var_Irr0 s; var_C1 := v; var_O1 := var_O1 s;
     var_O2 := var_O2 s; var_rho_rel := var_rho_rel s; var_T := var_T s |}.

Definition set_O1 (v : R) (s : Synapse) : Synapse :=
  {| syn_i := syn_i s; var_Irr0 := var_Irr0 s; var_C1 := var_C1 s; var_O1 := v;
     var_O2 := var_O2 s; var_rho_rel := var_rho_rel s; var_T := var_T s |}.

Definition set_O2 (v : R) (s : Synapse) : Synapse :=
  {| syn_i := syn_i s; var_Irr0 := var_Irr0 s; var_C1 := var_C1 s;
     var_O1 := var_O1 s; var_O2 := v; var_rho_rel := var_rho_rel s;
     var_T := var_T s |}.

Definition set_rho_rel (v : R) (s : Synapse) : Synapse :=
  {| syn_i := syn_i s; var_Irr0 := var_Irr0 s; var_C1 := var_C1 s;
     var_O1 := var_O1 s; var_O2 := var_O2 s; var_rho_rel := v;
     var_T := var_T s |}.

Definition set_T (v : option R) (s : Synapse) : Synapse :=
  {| syn_i := syn_i s; var_Irr0 := var_Irr0 s; var_C1 := var_C1 s;
     var_O1 := var_O1 s; var_O2 := var_O2 s; var_rho_rel := var_rho_rel s;
     var_T := v |}.

(** [opto_syn.var = scalar]: the value goes to every synapse. *)
Definition assign (f : Synapse -> Synapse) (opto_syn : Synapses) : Synapses :=
  {| syn_obj := syn_obj opto_syn; syn_name := syn_name opto_syn;
     v_var_name := v_var_name opto_syn; Iopto_var_name := Iopto_var_name opto_syn;
     namespace := namespace opto_syn;
     namespace_Ephoton := namespace_Ephoton opto_syn;
     synapses := map f (synapses opto_syn) |}.

(** [opto_syn.T = T], a list with one value per synapse. *)
Definition assign_T (T : list (option R)) (opto_syn : Synapses) : Synapses :=
  {| syn_obj := syn_obj opto_syn; syn_name := syn_name opto_syn;
     v_var_name := v_var_name opto_syn; Iopto_var_name := Iopto_var_name opto_syn;
     namespace := namespace opto_syn;
     namespace_Ephoton := namespace_Ephoton opto_syn;
     synapses := zip_with (fun s t => set_T t s) (synapses opto_syn) T |}.

Definition with_opto_syns (v : gmap string Synapses)
    (self : OptogeneticIntervention) : OptogeneticIntervention :=
  {| opto_name := opto_name self; opsin_params := opsin_params self;
     model_params := model_params self; location := location self;
     dir_uvec := dir_uvec self; opto_syns := v;
     max_Irr0_mW_per_mm2 := max_Irr0_mW_per_mm2 self;
     max_Irr0_mW_per_mm2_viz := max_Irr0_mW_per_mm2_viz self;
     value := value self; brian_objects := brian_objects self;
     next_obj := next_obj self |}.

Definition with_value (v : R) (self : OptogeneticIntervention)
    : OptogeneticIntervention :=
  {| opto_name := opto_name self; opsin_params := opsin_params self;
     model_params := model_params self; location := location self;
     dir_uvec := dir_uvec self; opto_syns := opto_syns self;
     max_Irr0_mW_per_mm2 := max_Irr0_mW_per_mm2 self;
     max_Irr0_mW_per_mm2_viz := max_Irr0_mW_per_mm2_viz self;
     value := v; brian_objects := brian_objects self;
     next_obj := next_obj self |}.

(** [_init_opto_syn_vars] *)
Definition _init_opto_syn_vars (opto_syn : Synapses) : Synapses :=
  assign (set_O2 0) (assign (set_O1 0) (assign (set_C1 1)
    (assign (set_Irr0 0) opto_syn))).

(** [reset] *)
Definition reset (self : OptogeneticIntervention) : OptogeneticIntervention :=
  with_opto_syns (_init_opto_syn_vars <$> opto_syns self) self.

(** [update]; [mwatt / mm2] is [1e-3 / 1e-6] in SI base units. *)
Definition update (Irr0_mW_per_mm2 : R) (self : OptogeneticIntervention)
    : Result OptogeneticIntervention :=
  if Rlt_dec Irr0_mW_per_mm2 0 then Raise ValueError_negative_Irr0
  else
    let Irr0_mW_per_mm2 :=
      match max_Irr0_mW_per_mm2 self with
      | Some max_Irr0 =>
          if Rgt_dec Irr0_mW_per_mm2 max_Irr0 then max_Irr0 else Irr0_mW_per_mm2
      | None => Irr0_mW_per_mm2
      end in
    Ok (with_opto_syns
          (assign (set_Irr0 (Irr0_mW_per_mm2 * 1e-3 / 1e-6)) <$> opto_syns self)
          (with_value Irr0_mW_per_mm2 self)).

(** The keyword arguments of [connect_to_neuron_group], with their
    defaults. *)
Record kwparams := {
  kw_p_expression : R;
  kw_Iopto_var_name : string;
  kw_v_var_name : string;
  kw_rho_rel : R
}.

Definition default_kwparams : kwparams :=
  {| kw_p_expression := 1; kw_Iopto_var_name := "Iopto";
     kw_v_var_name := "v"; kw_rho_rel := 1 |}.

(** The test on the model of the neuron group,
    [variable not in neuron_group.variables
     or neuron_group.variables[variable].unit != unit]:
    the comparison is made only if the variable is there, and it raises
    for a unit of other dimensions. *)
Definition lacks_variable (neuron_group : NeuronGroup) (variable : string)
    (unit : Unit) : Result bool :=
  match variables neuron_group !! variable with
  | None => Ok true
  | Some its_unit => Unit_ne its_unit unit
  end.

(** [E_photon = h*c/lambda] *)
Definition E_photon (p : light_model_params) : option R :=
  checked_div (6.63e-34 * 1 * 1 / 1 * 2.998e8 * 1 / 1) (param_wavelength p).

(** The synapses that [connect] creates, each from a neuron to itself, with
    every variable at zero.  With [p_expression == 1] there is one per
    neuron, the group having as many neurons as coordinates; otherwise
    Brian draws them, and [drawn] is the list of the neurons it kept. *)
Definition new_synapse (k : nat) : Synapse :=
  {| syn_i := k; var_Irr0 := 0; var_C1 := 0; var_O1 := 0; var_O2 := 0;
     var_rho_rel := 0; var_T := Some 0 |}.

Definition connected (neuron_group : NeuronGroup) (p_expression : R)
    (drawn : list nat) : list Synapse :=
  if Req_dec_T p_expression 1
  then map new_synapse (seq 0 (length (x neuron_group)))
  else map new_synapse drawn.

(** [[T[k] for k in opto_syn.i]] *)
Fixpoint subset_T (T : list (option R)) (i : list nat)
    : Result (list (option R)) :=
  match i with
  | [] => Ok []
  | k :: i' =>
      match T !! k with
      | None => Raise IndexError
      | Some t =>
          match subset_T T i' with
          | Ok ts => Ok (t :: ts)
          | Raise e => Raise e
          end
      end
  end.

(** [connect_to_neuron_group] *)
Definition connect_to_neuron_group (neuron_group : NeuronGroup)
    (kw : kwparams) (drawn : list nat) (self : OptogeneticIntervention)
    : Result OptogeneticIntervention :=
  match lacks_variable neuron_group (kw_v_var_name kw) volt with
  | Raise e => Raise e
  | Ok true => Raise (BrianObjectException (kw_v_var_name kw))
  | Ok false =>
  match lacks_variable neuron_group (kw_Iopto_var_name kw) amp with
  | Raise e => Raise e
  | Ok true => Raise (BrianObjectException (kw_Iopto_var_name kw))
  | Ok false =>
    let opto_syn :=
      {| syn_obj := next_obj self;
         syn_name := "synapses_" +:+ opto_name self +:+ "_" +:+ name neuron_group;
         v_var_name := kw_v_var_name kw;
         Iopto_var_name := kw_Iopto_var_name kw;
         namespace := opsin_params self;
         namespace_Ephoton := E_photon (model_params self);
         synapses := connected neuron_group (kw_p_expression kw) drawn |} in
    let opto_syn := _init_opto_syn_vars opto_syn in
    let opto_syn := assign (set_rho_rel (kw_rho_rel kw)) opto_syn in
    match _get_rz_for_xyz (location self) (dir_uvec self)
            (x neuron_group) (y neuron_group) (z neuron_group) with
    | Raise e => Raise e
    | Ok (r, zc) =>
        let T := zip_with (fun rk zk =>
                   _Foutz12_transmittance (model_params self) rk zk true true true)
                   r zc in
        match subset_T T (syn_i <$> synapses opto_syn) with
        | Raise e => Raise e
        | Ok T =>
            let opto_syn := assign_T T opto_syn in
            Ok {| opto_name := opto_name self;
                  opsin_params := opsin_params self;
                  model_params := model_params self;
                  location := location self;
                  dir_uvec := dir_uvec self;
                  opto_syns := <[name neuron_group := opto_syn]> (opto_syns self);
                  max_Irr0_mW_per_mm2 := max_Irr0_mW_per_mm2 self;
                  max_Irr0_mW_per_mm2_viz := max_Irr0_mW_per_mm2_viz self;
                  value := value self;
                  brian_objects := {[syn_obj opto_syn]} ∪ brian_objects self;
                  next_obj := S (next_obj self) |}
        end
    end
  end
  end.

End opto.

(** ** An intervention, for the examples *)

Section Opto_examples.
Local Open Scope R_scope.

(** A synapse in the light, its channels partly open. *)
Definition lit_synapse : opto.Synapse :=
  {| opto.syn_i := 0; opto.var_Irr0 := 2000; opto.var_C1 := 0.5;
     opto.var_O1 := 0.3; opto.var_O2 := 0.1; opto.var_rho_rel := 1;
     opto.var_T := Some 0.2 |}.

(** A blue light of at most 30 mW/mm2 on ChR2, injected into one group of
    one neuron. *)
Definition lit_intervention : opto.OptogeneticIntervention :=
  {| opto.opto_name := "opto";
     opto.opsin_params := opto.ChR2_four_state;
     opto.model_params := default_blue;
     opto.location := (0, 0, 0);
     opto.dir_uvec := (0, 0, 1);
     opto.opto_syns :=
       {[ "ng" := {| opto.syn_obj := 0;
                     opto.syn_name := "synapses_opto_ng";
                     opto.v_var_name := "v";
                     opto.Iopto_var_name := "Iopto";
                     opto.namespace := opto.ChR2_four_state;
                     opto.namespace_Ephoton := opto.E_photon default_blue;
                     opto.synapses := [lit_synapse] |} ]};
     opto.max_Irr0_mW_per_mm2 := Some 30;
     opto.max_Irr0_mW_per_mm2_viz := None;
     opto.value := 2;
     opto.brian_objects := {[0%nat]};
     opto.next_obj := 1 |}.

(** A group of one neuron, 1 mm ahead of the fiber tip, with the variables
    that the opsin needs. *)
Definition one_neuron : opto.NeuronGroup :=
  {| opto.name := "ng";
     opto.variables := {[ "v" := opto.volt; "Iopto" := opto.amp ]};
     opto.x := [0];
     opto.y := [0];
     opto.z := [1e-3] |}.

(** The same neuron in a model without a membrane potential, and in a model
    whose [v] is a current. *)
Definition no_potential : opto.NeuronGroup :=
  {| opto.name := "ng";
     opto.variables := {[ "Iopto" := opto.amp ]};
     opto.x := [0];
     opto.y := [0];
     opto.z := [1e-3] |}.

Definition potential_in_ampere : opto.NeuronGroup :=
  {| opto.name := "ng";
     opto.variables := {[ "v" := opto.amp; "Iopto" := opto.amp ]};
     opto.x := [0];
     opto.y := [0];
     opto.z := [1e-3] |}.

End Opto_examples.

(** ** Tactics *)

(** Unfolds the operations of the monad [M]. *)
Ltac munfold :=
  unfold mbind, M_bind, mret, M_ret, gets, modify, raise, new_object in *.

(** Reduces the projections of [default_blue]. *)
Ltac params_of_default_blue :=
  cbv [default_blue param_R0 param_NAfib param_wavelength param_K param_S
       param_ntis] in *.

(** * Properties of the embedding *)

(** ** Basic facts about synapse writes *)

Lemma shape_set_rows sl f es :
  (forall e, edge_index (f e) = edge_index e) ->
  shape (set_rows sl f es) = shape es.
Proof.
  intros Hf. unfold shape, set_rows. rewrite map_map.
  apply map_ext. intros e. destruct (in_slice sl (pre_i e)); auto.
Qed.

Lemma shape_set_all f es :
  (forall e, edge_index (f e) = edge_index e) ->
  shape (set_all f es) = shape es.
Proof.
  intros Hf. unfold shape, set_all. rewrite map_map.
  apply map_ext. intros e. auto.
Qed.

Lemma shape_set_rows_array sl f vals es :
  (forall v e, edge_index (f v e) = edge_index e) ->
  shape (set_rows_array sl f vals es) = shape es.
Proof.
  intros Hf. revert vals. induction es as [|e es IH]; intros vals; simpl; [done|].
  destruct (in_slice sl (pre_i e)).
  - destruct vals as [|v vals]; simpl; rewrite IH; [done|].
    by rewrite Hf.
  - simpl. by rewrite IH.
Qed.

Lemma length_selected sl es :
  length (selected sl es) = count_rows sl (shape es).
Proof.
  unfold selected, count_rows, shape.
  induction es as [|e es IH]; [done|].
  rewrite map_cons, !filter_cons. simpl.
  destruct (decide (in_slice sl (pre_i e) = true)); simpl; by rewrite IH.
Qed.

Lemma count_rows_app sl ix1 ix2 :
  count_rows sl (ix1 ++ ix2) = (count_rows sl ix1 + count_rows sl ix2)%nat.
Proof. unfold count_rows. by rewrite filter_app, length_app. Qed.

Lemma count_rows_row sl i (m k : nat) :
  count_rows sl (shape (map (new_edge i) (seq k m))) =
  if in_slice sl i then m else 0%nat.
Proof.
  revert k. induction m as [|m IH]; intros k.
  - simpl. by destruct (in_slice sl i).
  - specialize (IH (S k)). unfold count_rows, shape in *.
    simpl. rewrite filter_cons. simpl.
    destruct (decide (in_slice sl i = true)) as [E|E].
    + rewrite E in *. simpl. by rewrite IH.
    + apply not_true_is_false in E. rewrite E in *. done.
Qed.

Lemma count_rows_grid sl (m n k : nat) :
  count_rows sl (shape (flat_map (fun i => map (new_edge i) (seq 0 m)) (seq k n))) =
  (length (filter (fun i => in_slice sl i = true) (seq k n)) * m)%nat.
Proof.
  revert k. induction n as [|n IH]; intros k; [done|].
  specialize (IH (S k)). pose proof (count_rows_row sl k m 0) as Hrow.
  unfold shape in *. simpl. rewrite map_app, count_rows_app.
  rewrite filter_cons. rewrite Hrow, IH.
  destruct (decide (in_slice sl k = true)) as [E|E].
  - rewrite E. simpl. lia.
  - apply not_true_is_false in E. rewrite E. simpl. lia.
Qed.

Lemma count_in_slice_seq sl (k n : nat) :
  length (filter (fun i => in_slice sl i = true) (seq k n)) =
  (Nat.min (k + n) (Nat.max k (stop sl)) - Nat.min (k + n) (Nat.max k (start sl)))%nat.
Proof.
  revert k. induction n as [|n IH]; intros k.
  - simpl. lia.
  - simpl. rewrite filter_cons.
    destruct (decide (in_slice sl k = true)) as [E|E].
    + simpl. rewrite IH. unfold in_slice in E.
      apply andb_true_iff in E as [E1 E2].
      apply Nat.leb_le in E1. apply Nat.ltb_lt in E2. lia.
    + rewrite IH. apply not_true_is_false in E. unfold in_slice in E.
      apply andb_false_iff in E as [E|E].
      * apply Nat.leb_gt in E. lia.
      * apply Nat.ltb_ge in E. lia.
Qed.

(** A slice inside the source group selects its rows in full. *)
Lemma count_rows_connect_all sl (n m : nat) :
  (start sl <= stop sl)%nat -> (stop sl <= n)%nat ->
  count_rows sl (shape (connect_all n m)) = ((stop sl - start sl) * m)%nat.
Proof.
  intros H1 H2. unfold connect_all.
  rewrite count_rows_grid, count_in_slice_seq. f_equal. lia.
Qed.

(** ** The methods, case by case *)

Section Cases.
Context (W : World).

Lemma get_or_create_cases ldd ng s :
  match light_prop_syns s !! (ldd, ng) with
  | Some _ => _get_or_create_light_prop_syn W ldd ng s = Ok (ldd, ng) s
  | None =>
      match ldd_light_agg_ngs W ldd ng with
      | None => _get_or_create_light_prop_syn W ldd ng s
                = Raise (KeyError_light_agg_ngs ldd ng) s
      | Some n_tgt =>
          match light_source_ng s with
          | None => _get_or_create_light_prop_syn W ldd ng s
                    = Raise TypeError_no_light_source s
          | Some g => _get_or_create_light_prop_syn W ldd ng s
                      = Ok (ldd, ng) (created ldd ng g n_tgt s)
          end
      end
  end.
Proof.
  unfold _get_or_create_light_prop_syn, _add_brian_object. munfold.
  destruct (light_prop_syns s !! (ldd, ng)); [done|].
  destruct (ldd_light_agg_ngs W ldd ng); [|done].
  destruct (light_source_ng s); done.
Qed.

Lemma syn_write_eq h f s : syn_write h f s = Ok tt (with_edges h f s).
Proof. done. Qed.

Lemma syn_write_array_eq h sl f vals s :
  syn_write_array h sl f vals s =
  match assign_rows_array sl f vals (edges_of s h) with
  | Some es' => Ok tt (with_edges h (fun _ => es') s)
  | None => Raise ValueError_shape_mismatch s
  end.
Proof.
  assert (Hext : forall F, with_edges h F s
                 = with_edges h (fun _ => F (edges_of s h)) s).
  { intros F. unfold with_edges, edges_of. f_equal.
    apply alter_ext. intros syn Hsyn. by rewrite Hsyn. }
  unfold syn_write_array, assign_rows_array. munfold.
  fold (edges_of s h).
  destruct (_ =? _)%nat.
  - by rewrite syn_write_eq, Hext.
  - destruct vals as [|v [|]]; try done.
    by rewrite syn_write_eq, Hext.
Qed.

Lemma with_edges_compose h f g s :
  with_edges h f (with_edges h g s) = with_edges h (fun es => f (g es)) s.
Proof.
  unfold with_edges, with_light_prop_syns. simpl. f_equal.
  by rewrite alter_alter_eq.
Qed.

Lemma connect_zero light ldd ng s :
  Qeq_bool (ldd_epsilon W ldd (light_wavelength W light)) 0 = true ->
  connect_light_to_ldd_for_ng W light ldd ng s = Ok tt s.
Proof. intros H. unfold connect_light_to_ldd_for_ng. by rewrite H. Qed.

Lemma connect_after_create light ldd ng s :
  Qeq_bool (ldd_epsilon W ldd (light_wavelength W light)) 0 = false ->
  connect_light_to_ldd_for_ng W light ldd ng s =
  match _get_or_create_light_prop_syn W ldd ng s with
  | Raise e s1 => Raise e s1
  | Ok h s1 =>
      if decide ((light, ldd, ng) ∈ connections s1)
      then Raise (ValueError_already_connected light ldd ng) s1
      else match subgroup_idx_for_light s1 !! light with
           | None => Raise (KeyError_subgroup_idx_for_light light) s1
           | Some i_source =>
               let s2 := with_edges h
                 (set_rows i_source
                    (set_epsilon (ldd_epsilon W ldd (light_wavelength W light)))) s1 in
               match assign_rows_array i_source set_T
                       (light_transmittance W light ng) (edges_of s2 h) with
               | None => Raise ValueError_shape_mismatch s2
               | Some es' =>
                   Ok tt
                     (with_connections ({[(light, ldd, ng)]} ∪ connections s1)
                        (with_edges h
                           (fun _ => write_raster W s1 light i_source es') s1))
               end
           end
  end.
Proof.
  intros H. unfold connect_light_to_ldd_for_ng. rewrite H.
  unfold mbind at 1. unfold M_bind at 1.
  destruct (_get_or_create_light_prop_syn W ldd ng s) as [h s1|e s1]; [|done].
  munfold. destruct (decide _); [done|].
  destruct (subgroup_idx_for_light s1 !! light) as [i_source|]; [|done].
  rewrite syn_write_eq, syn_write_array_eq.
  destruct (assign_rows_array _ _ _ _) as [es'|]; [|done].
  rewrite !syn_write_eq. simpl. by rewrite !with_edges_compose.
Qed.
End Cases.

(** ** The invariant is kept *)

Section Invariant.
Context (W : World).

Lemma for_each_inv {A} (P : Registry -> Prop) (body : A -> M unit) xs s :
  (forall x s, P s -> P (state_of (body x s))) ->
  P s -> P (state_of (for_each body xs s)).
Proof.
  intros Hbody. revert s. induction xs as [|x xs IH]; intros s Hs; [done|].
  simpl. unfold mbind, M_bind.
  specialize (Hbody x s Hs).
  destruct (body x s) as [[] s'|e s']; simpl in *; auto.
Qed.

Lemma edges_of_with_edges h f s :
  f [] = [] -> edges_of (with_edges h f s) h = f (edges_of s h).
Proof.
  intros Hf. unfold edges_of, with_edges. simpl.
  rewrite lookup_alter_eq. by destruct (light_prop_syns s !! h).
Qed.

Lemma shape_assign_rows_array sl f vals es es' :
  (forall v e, edge_index (f v e) = edge_index e) ->
  assign_rows_array sl f vals es = Some es' -> shape es' = shape es.
Proof.
  intros Hf. unfold assign_rows_array.
  destruct (_ =? _)%nat.
  - intros [= <-]. by apply shape_set_rows_array.
  - destruct vals as [|v [|]]; try done.
    intros [= <-]. by apply shape_set_rows.
Qed.

Lemma length_assign_rows_array sl f vals es es' :
  assign_rows_array sl f vals es = Some es' ->
  length vals = length (selected sl es) \/ length vals = 1%nat.
Proof.
  unfold assign_rows_array.
  destruct (_ =? _)%nat eqn:E.
  - apply Nat.eqb_eq in E. auto.
  - destruct vals as [|v [|]]; try done. auto.
Qed.

Lemma assign_rows_array_fits sl f vals es :
  length vals = length (selected sl es) \/ length vals = 1%nat ->
  is_Some (assign_rows_array sl f vals es).
Proof.
  unfold assign_rows_array. intros [H|H].
  - rewrite H, Nat.eqb_refl. eauto.
  - destruct (_ =? _)%nat; [eauto|].
    destruct vals as [|v [|]]; simpl in H; try lia. eauto.
Qed.

Lemma shape_write_raster s light sl es :
  shape (write_raster W s light sl es) = shape es.
Proof.
  unfold write_raster.
  rewrite shape_set_rows by done.
  by rewrite !shape_set_all by done.
Qed.

(** Writing the synapses of a structure keeps the registry well formed as
    long as the grid of the structure stays. *)
Lemma wf_with_edges h f s :
  (forall syn, light_prop_syns s !! h = Some syn ->
     shape (f (syn_edges syn)) = shape (syn_edges syn)) ->
  wf W s -> wf W (with_edges h f s).
Proof.
  intros Hf [Hnet Hfresh Hsrco Hsize Hobj Hinj Hsynsrc Hsl Hshape Hcx].
  assert (Hlk : forall k syn',
    light_prop_syns (with_edges h f s) !! k = Some syn' ->
    exists syn, light_prop_syns s !! k = Some syn /\ syn_obj syn' = syn_obj syn /\
      shape (syn_edges syn') = shape (syn_edges syn)).
  { intros k syn'. unfold with_edges. simpl.
    destruct (decide (h = k)) as [->|Hne].
    - rewrite lookup_alter_eq.
      destruct (light_prop_syns s !! k) as [syn|] eqn:E; [|done].
      simpl. intros [= <-]. exists syn. simpl. auto.
    - rewrite lookup_alter_ne by done. intros E. exists syn'. auto. }
  split; simpl; try done.
  - intros k syn' (syn & E & Ho & _)%Hlk. rewrite Ho. eauto.
  - intros k1 k2 syn1 syn2 (s1 & E1 & Ho1 & _)%Hlk (s2 & E2 & Ho2 & _)%Hlk.
    rewrite Ho1, Ho2. eauto.
  - intros k syn' G (syn & E & Ho & _)%Hlk. rewrite Ho. eauto.
  - intros k syn' (syn & E & _ & Hs)%Hlk. rewrite Hs. eauto.
  - intros c Hc. destruct (Hcx c Hc) as [Hcon Hsyn]. split; [done|].
    unfold with_edges. simpl.
    by apply lookup_alter_is_Some.
Qed.

Lemma wf_created ldd ng g n_tgt s :
  light_prop_syns s !! (ldd, ng) = None ->
  light_source_ng s = Some g ->
  ldd_light_agg_ngs W ldd ng = Some n_tgt ->
  wf W s -> wf W (created ldd ng g n_tgt s).
Proof.
  intros Hnone Hsrc Hagg [Hnet Hfresh Hsrco Hsize Hobj Hinj Hsynsrc Hsl Hshape Hcx].
  assert (Hlk : forall k syn,
    light_prop_syns (created ldd ng g n_tgt s) !! k = Some syn ->
    (k = (ldd, ng) /\ syn_obj syn = next_obj s /\
       syn_edges syn = set_all (set_Ephoton 1) (connect_all (N g) n_tgt)) \/
    (k <> (ldd, ng) /\ light_prop_syns s !! k = Some syn)).
  { intros k syn. unfold created. simpl.
    destruct (decide ((ldd, ng) = k)) as [<-|Hne].
    - rewrite lookup_insert_eq. intros [= <-]. left. auto.
    - rewrite lookup_insert_ne by done. right. auto. }
  split; simpl.
  - by apply union_mono_l.
  - intros o [->%elem_of_singleton|Ho%Hfresh]%elem_of_union; lia.
  - intros G HG. apply elem_of_union. right. eauto.
  - done.
  - intros k syn [(-> & Ho & _)|[_ E]]%Hlk; apply elem_of_union.
    + left. rewrite Ho. by apply elem_of_singleton.
    + right. eauto.
  - intros k1 k2 syn1 syn2 [(-> & Ho1 & _)|[_ E1]]%Hlk
      [(-> & Ho2 & _)|[_ E2]]%Hlk Heq; try done.
    + apply Hobj, Hfresh in E2. lia.
    + apply Hobj, Hfresh in E1. lia.
    + eauto.
  - intros k syn G [(-> & Ho & _)|[_ E]]%Hlk HG.
    + apply Hsrco, Hfresh in HG. lia.
    + eauto.
  - done.
  - intros k syn [(-> & _ & He)|[_ E]]%Hlk.
    + exists g, n_tgt. rewrite He. split; [done|]. split; [done|].
      by rewrite shape_set_all.
    + eauto.
  - intros c Hc. destruct (Hcx c Hc) as [Hcon Hsyn]. split; [done|].
    destruct (decide ((ldd, ng) = (c.1.2, c.2))) as [<-|Hne].
    + rewrite lookup_insert_eq. eauto.
    + by rewrite lookup_insert_ne.
Qed.

Lemma wf_add_connection c s :
  connectable W s c -> is_Some (light_prop_syns s !! (c.1.2, c.2)) ->
  wf W s -> wf W (with_connections ({[c]} ∪ connections s) s).
Proof.
  intros Hc Hsyn [Hnet Hfresh Hsrco Hsize Hobj Hinj Hsynsrc Hsl Hshape Hcx]. split; simpl; try done.
  intros c' [->%elem_of_singleton|H]%elem_of_union; [done|]. eauto.
Qed.

(** The state in which [_get_or_create_light_prop_syn] leaves a well-formed
    registry is well formed; when it returns, the structure is there and
    nothing else has moved. *)
Lemma get_or_create_wf ldd ng s :
  wf W s -> wf W (state_of (_get_or_create_light_prop_syn W ldd ng s)).
Proof.
  intros Hwf. pose proof (get_or_create_cases W ldd ng s) as Hc.
  destruct (light_prop_syns s !! (ldd, ng)) eqn:E1; [by rewrite Hc|].
  destruct (ldd_light_agg_ngs W ldd ng) eqn:E2; [|by rewrite Hc].
  destruct (light_source_ng s) eqn:E3; rewrite Hc; [|done].
  by apply wf_created.
Qed.

Lemma get_or_create_returns ldd ng s h s1 :
  _get_or_create_light_prop_syn W ldd ng s = Ok h s1 ->
  h = (ldd, ng) /\ is_Some (light_prop_syns s1 !! (ldd, ng)) /\
  connections s1 = connections s /\
  subgroup_idx_for_light s1 = subgroup_idx_for_light s /\
  light_source_ng s1 = light_source_ng s /\
  raster_fov s1 = raster_fov s /\ raster_enable s1 = raster_enable s.
Proof.
  pose proof (get_or_create_cases W ldd ng s) as Hc.
  destruct (light_prop_syns s !! (ldd, ng)) eqn:E1.
  { rewrite Hc. intros [= <- <-]. rewrite E1. eauto 10. }
  destruct (ldd_light_agg_ngs W ldd ng) eqn:E2; [|by rewrite Hc].
  destruct (light_source_ng s) eqn:E3; rewrite Hc; [|done].
  intros [= <- <-]. simpl. rewrite lookup_insert_eq. eauto 10.
Qed.

Lemma connectable_idx c s s' :
  subgroup_idx_for_light s' = subgroup_idx_for_light s ->
  connectable W s c -> connectable W s' c.
Proof. unfold connectable. by intros ->. Qed.

Lemma connect_wf light ldd ng s :
  wf W s -> wf W (state_of (connect_light_to_ldd_for_ng W light ldd ng s)).
Proof.
  intros Hwf.
  destruct (Qeq_bool (ldd_epsilon W ldd (light_wavelength W light)) 0) eqn:Heps.
  { by rewrite connect_zero. }
  rewrite connect_after_create by done.
  pose proof (get_or_create_wf ldd ng s Hwf) as Hwf1.
  pose proof (get_or_create_returns ldd ng s) as Hret.
  destruct (_get_or_create_light_prop_syn W ldd ng s) as [h s1|e s1]; [|done].
  simpl in Hwf1. destruct (Hret h s1 eq_refl) as (-> & Hsyn & _). clear Hret.
  destruct (decide _); [done|].
  destruct (subgroup_idx_for_light s1 !! light) as [i_source|] eqn:Hidx; [|done].
  cbv zeta.
  set (s2 := with_edges _ (set_rows _ _) s1).
  assert (Hwf2 : wf W s2).
  { apply wf_with_edges; [|done]. intros. by apply shape_set_rows. }
  destruct (assign_rows_array _ _ _ _) as [es'|] eqn:Hassign; [|done].
  simpl.
  assert (He2 : edges_of s2 (ldd, ng) =
    set_rows i_source (set_epsilon (ldd_epsilon W ldd (light_wavelength W light)))
      (edges_of s1 (ldd, ng))) by (by apply edges_of_with_edges).
  destruct Hsyn as [syn Hsyn].
  destruct (wf_syn_shape W s1 Hwf1 _ _ Hsyn) as (G & m & HG & Hm & Hshape).
  destruct (wf_slices W s1 Hwf1 _ _ Hidx) as (G' & HG' & Hstop & Hle).
  assert (G' = G) as -> by congruence.
  assert (Hes : edges_of s1 (ldd, ng) = syn_edges syn).
  { unfold edges_of. by rewrite Hsyn. }
  apply (wf_add_connection (light, ldd, ng) (with_edges (ldd, ng) _ s1)).
  - unfold connectable. simpl. split; [done|]. split; [by rewrite Hidx|].
    exists m. split; [done|].
    apply length_assign_rows_array in Hassign as [Hlen|Hlen]; [left|by right].
    rewrite Hlen, length_selected, He2, shape_set_rows, Hes, Hshape by done.
    rewrite count_rows_connect_all by lia. f_equal. lia.
  - simpl. apply lookup_alter_is_Some. eauto.
  - apply wf_with_edges; [|done]. intros syn' Hsyn'.
    rewrite shape_write_raster.
    apply shape_assign_rows_array in Hassign; [|done].
    rewrite Hassign, He2, shape_set_rows by done.
    rewrite Hes. congruence.
Qed.

End Invariant.

(** ** Connections *)

Section Connect.
Context (W : World).

Lemma same_setup_refl s : same_setup s s.
Proof. by repeat split. Qed.

Lemma same_setup_trans s1 s2 s3 :
  same_setup s1 s2 -> same_setup s2 s3 -> same_setup s1 s3.
Proof.
  unfold same_setup.
  intros (? & ? & ? & ? & ? & ? & ?) (? & ? & ? & ? & ? & ? & ?).
  repeat split; congruence.
Qed.

Lemma get_or_create_frame ldd ng s :
  let s1 := state_of (_get_or_create_light_prop_syn W ldd ng s) in
  same_setup s s1 /\ connections s1 = connections s.
Proof.
  pose proof (get_or_create_cases W ldd ng s) as Hc.
  destruct (light_prop_syns s !! (ldd, ng)) eqn:E1.
  { rewrite Hc. split; [apply same_setup_refl|done]. }
  destruct (ldd_light_agg_ngs W ldd ng) eqn:E2.
  2:{ rewrite Hc. split; [apply same_setup_refl|done]. }
  destruct (light_source_ng s) eqn:E3; rewrite Hc.
  2:{ split; [apply same_setup_refl|done]. }
  simpl. by repeat split.
Qed.

(** A call of [connect_light_to_ldd_for_ng] leaves the setup alone and
    never removes a connection, whether it returns or raises. *)
Lemma connect_frame light ldd ng s :
  let s' := state_of (connect_light_to_ldd_for_ng W light ldd ng s) in
  same_setup s s' /\ connections s ⊆ connections s'.
Proof.
  destruct (Qeq_bool (ldd_epsilon W ldd (light_wavelength W light)) 0) eqn:Heps.
  { rewrite connect_zero by done. split; [apply same_setup_refl|done]. }
  rewrite connect_after_create by done.
  destruct (get_or_create_frame ldd ng s) as [Hsame Hcx].
  destruct (_get_or_create_light_prop_syn W ldd ng s) as [h s1|e s1];
    simpl in *; [|by rewrite Hcx].
  destruct (decide _); simpl; [by rewrite Hcx|].
  destruct (subgroup_idx_for_light s1 !! light) as [i_source|];
    simpl; [|by rewrite Hcx].
  destruct (assign_rows_array _ _ _ _) as [es'|]; simpl; [|by rewrite Hcx].
  split; [done|]. rewrite Hcx. apply union_subseteq_r.
Qed.

(** What a returning call with nonzero sensitivity has done. *)
Lemma connect_returns light ldd ng s s' :
  Qeq_bool (ldd_epsilon W ldd (light_wavelength W light)) 0 = false ->
  connect_light_to_ldd_for_ng W light ldd ng s = Ok tt s' ->
  exists s1 i_source es',
    _get_or_create_light_prop_syn W ldd ng s = Ok (ldd, ng) s1 /\
    ((light, ldd, ng) ∉ connections s) /\
    subgroup_idx_for_light s !! light = Some i_source /\
    assign_rows_array i_source set_T (light_transmittance W light ng)
      (set_rows i_source
         (set_epsilon (ldd_epsilon W ldd (light_wavelength W light)))
         (edges_of s1 (ldd, ng))) = Some es' /\
    s' = with_connections ({[(light, ldd, ng)]} ∪ connections s)
           (with_edges (ldd, ng)
              (fun _ => write_raster W s light i_source es') s1).
Proof.
  intros Heps. rewrite connect_after_create by done.
  pose proof (get_or_create_returns W ldd ng s) as Hret.
  destruct (_get_or_create_light_prop_syn W ldd ng s) as [h s1|e s1]; [|done].
  destruct (Hret h s1 eq_refl) as (-> & Hsyn & Hcx & Hidx & Hsrc & Hfov & Hen).
  destruct (decide _) as [|Hnotin]; [done|].
  destruct (subgroup_idx_for_light s1 !! light) as [i_source|] eqn:Hi; [|done].
  cbv zeta. rewrite edges_of_with_edges by done.
  destruct (assign_rows_array _ _ _ _) as [es'|] eqn:Hassign; [|done].
  intros [= <-]. exists s1, i_source, es'.
  rewrite <- Hcx, <- Hidx. repeat split; try done.
  unfold write_raster. by rewrite Hfov, Hen.
Qed.

(** The second call for a connection that stands raises, naming it. *)
Lemma connect_dup light ldd ng s :
  Qeq_bool (ldd_epsilon W ldd (light_wavelength W light)) 0 = false ->
  is_Some (light_prop_syns s !! (ldd, ng)) ->
  (light, ldd, ng) ∈ connections s ->
  connect_light_to_ldd_for_ng W light ldd ng s =
  Raise (ValueError_already_connected light ldd ng) s.
Proof.
  intros Heps [syn Hsyn] Hin. rewrite connect_after_create by done.
  pose proof (get_or_create_cases W ldd ng s) as Hc. rewrite Hsyn in Hc.
  rewrite Hc. by rewrite decide_True.
Qed.

(** A connectable triple that is not connected yet gets connected. *)
Lemma connect_ok light ldd ng s :
  wf W s -> connectable W s (light, ldd, ng) ->
  (light, ldd, ng) ∉ connections s ->
  exists s', connect_light_to_ldd_for_ng W light ldd ng s = Ok tt s' /\
    connections s' = {[(light, ldd, ng)]} ∪ connections s /\
    same_setup s s' /\ wf W s'.
Proof.
  intros Hwf (Heps & [sl Hsl] & m & Hm & Hlen) Hnotin. simpl in *.
  pose proof (connect_wf W light ldd ng s Hwf) as Hwf'.
  pose proof (connect_frame light ldd ng s) as [Hsame _].
  rewrite connect_after_create in * by done.
  pose proof (get_or_create_wf W ldd ng s Hwf) as Hwf1.
  pose proof (get_or_create_returns W ldd ng s) as Hret.
  pose proof (get_or_create_cases W ldd ng s) as Hc.
  destruct (wf_slices W s Hwf _ _ Hsl) as (G & HG & Hstop & Hle).
  rewrite Hm, HG in Hc.
  assert (exists s1, _get_or_create_light_prop_syn W ldd ng s = Ok (ldd, ng) s1)
    as [s1 Hs1].
  { destruct (light_prop_syns s !! (ldd, ng)); eauto. }
  rewrite Hs1 in *. clear Hc. simpl in Hwf1.
  destruct (Hret _ _ eq_refl) as (_ & [syn Hsyn] & Hcx & Hidx & Hsrc & _).
  rewrite Hcx, Hidx, Hsl in *. rewrite decide_False in * by done.
  cbv zeta in *. rewrite edges_of_with_edges in * by done.
  destruct (wf_syn_shape W s1 Hwf1 _ _ Hsyn) as (G' & m' & HG' & Hm' & Hshape).
  simpl in Hm'. assert (m' = m) as -> by congruence.
  assert (G' = G) as -> by congruence.
  destruct (assign_rows_array_fits sl set_T (light_transmittance W light ng)
    (set_rows sl (set_epsilon (ldd_epsilon W ldd (light_wavelength W light)))
       (edges_of s1 (ldd, ng)))) as [es' Hes'].
  { destruct Hlen as [Hlen|Hlen]; [left|by right].
    rewrite Hlen, length_selected, shape_set_rows by done.
    unfold edges_of. rewrite Hsyn. simpl. rewrite Hshape.
    rewrite count_rows_connect_all by lia. f_equal. lia. }
  rewrite Hes' in *. eexists. split; [done|]. simpl in *. done.
Qed.

End Connect.

(** ** Rebuilding the light-source group *)

Section Rebuild.
Context (W : World).

Lemma registry_ext s s' :
  subgroup_idx_for_light s = subgroup_idx_for_light s' ->
  light_source_ng s = light_source_ng s' ->
  ldds_for_ng s = ldds_for_ng s' ->
  lights_for_ng s = lights_for_ng s' ->
  light_prop_syns s = light_prop_syns s' ->
  connections s = connections s' ->
  raster_fov s = raster_fov s' ->
  raster_enable s = raster_enable s' ->
  brian_objects s = brian_objects s' ->
  sim_network s = sim_network s' ->
  warnings_log s = warnings_log s' ->
  next_obj s = next_obj s' ->
  s = s'.
Proof. destruct s, s'. simpl. by intros -> -> -> -> -> -> -> -> -> -> -> ->. Qed.

Lemma remove_brian_object_ok obj s :
  obj ∈ brian_objects s -> obj ∈ sim_network s ->
  _remove_brian_object obj s =
  Ok tt (with_sim_network (sim_network s ∖ {[obj]})
           (with_brian_objects (brian_objects s ∖ {[obj]}) s)).
Proof.
  intros H1 H2. unfold _remove_brian_object. munfold.
  rewrite decide_True by done. simpl. by rewrite decide_True.
Qed.

Lemma remove_all_ok (syns : list Synapses) s :
  NoDup (syn_obj <$> syns) ->
  (forall syn, syn ∈ syns ->
     syn_obj syn ∈ brian_objects s /\ syn_obj syn ∈ sim_network s) ->
  for_each (fun light_prop_syn => _remove_brian_object (syn_obj light_prop_syn))
    syns s =
  Ok tt (with_sim_network (sim_network s ∖ list_to_set (syn_obj <$> syns))
           (with_brian_objects
              (brian_objects s ∖ list_to_set (syn_obj <$> syns)) s)).
Proof.
  revert s. induction syns as [|syn syns IH]; intros s Hnd Hin.
  - simpl. unfold mret, M_ret. rewrite !difference_empty_L. by destruct s.
  - rewrite fmap_cons in Hnd. apply NoDup_cons in Hnd as [Hnotin Hnd].
    simpl. unfold mbind, M_bind.
    destruct (Hin syn) as [H1 H2]; [by left|].
    rewrite remove_brian_object_ok by done.
    rewrite IH; [| done |].
    + simpl. by rewrite !difference_difference_l_L.
    + intros syn' Hsyn'. simpl.
      destruct (Hin syn') as [H1' H2']; [by right|].
      assert (syn_obj syn' <> syn_obj syn).
      { intros Heq. apply Hnotin. rewrite <- Heq.
        apply list_elem_of_fmap. eauto. }
      split; apply elem_of_difference; split; try done;
        by intros ?%elem_of_singleton.
Qed.

(** Without a group and without a neuron to put in one, the construction of
    the group raises and the registry is as it was. *)
Lemma init_register_light_empty light s :
  light_source_ng s = None -> light_n W light = 0%nat ->
  init_register_light W light s = Raise (ValueError_NeuronGroup_size 0) s.
Proof.
  intros Hsrc Hn. unfold init_register_light. munfold. cbv beta.
  rewrite Hsrc. simpl. by rewrite Hn.
Qed.

(** Up to the replay, [init_register_light] cannot raise on a well-formed
    registry, as long as the new group has a neuron, and reaches
    [torn_down]. *)
Lemma init_register_light_unfold light s :
  wf W s ->
  (0 < from_option N 0 (light_source_ng s) + light_n W light)%nat ->
  init_register_light W light s =
  match for_each (fun c => connect_light_to_ldd_for_ng W c.1.1 c.1.2 c.2)
          (elements (connections s)) (torn_down W light s) with
  | Ok _ s' =>
      if decide (connections s = connections s')
      then Ok tt s' else Raise AssertionError s'
  | Raise e s' => Raise e s'
  end.
Proof.
  intros Hwf Hsize. unfold init_register_light.
  set (syns := (map_to_list (light_prop_syns s)).*2).
  assert (Hnd : NoDup (syn_obj <$> syns)).
  { unfold syns. rewrite <- list_fmap_compose.
    apply NoDup_fmap_2_strong; [|apply NoDup_map_to_list].
    intros [k1 syn1] [k2 syn2] H1%elem_of_map_to_list H2%elem_of_map_to_list Heq.
    simpl in Heq.
    assert (k1 = k2) as -> by (by eapply (wf_syn_inj W s Hwf)).
    congruence. }
  assert (Hsyns : forall syn, syn ∈ syns ->
    exists k, light_prop_syns s !! k = Some syn).
  { intros syn ([k syn'] & -> & Hin%elem_of_map_to_list)%list_elem_of_fmap.
    eauto. }
  unfold _add_brian_object. munfold. cbv beta.
  destruct (light_source_ng s) as [G|] eqn:HG.
  - pose proof (wf_source_obj W s Hwf G HG) as Hobj.
    pose proof (wf_network W s Hwf _ Hobj) as Hnet.
    rewrite remove_brian_object_ok by done. cbv beta iota. simpl in *.
    assert (Hlt : (length (Irr0 G) + light_n W light <? 1)%nat = false)
      by (apply Nat.ltb_ge; unfold N in Hsize; lia).
    unfold N. rewrite Hlt. fold (N G). fold syns.
    rewrite remove_all_ok; [|done|].
    + match goal with
      | |- match for_each _ _ ?st with _ => _ end = _ =>
          assert (st = torn_down W light s) as ->
      end.
      { apply registry_ext; unfold torn_down, new_source; rewrite HG; done. }
      destruct (for_each _ _ _); [|done]. by destruct (decide _).
    + intros syn [k Hk]%Hsyns. simpl.
      pose proof (wf_syn_obj W s Hwf _ _ Hk) as Ho.
      pose proof (wf_syn_src W s Hwf _ _ _ Hk HG) as Hne.
      pose proof (wf_network W s Hwf _ Ho) as Ho'.
      split; apply elem_of_union; right; apply elem_of_difference;
        (split; [done|by intros ?%elem_of_singleton]).
  - simpl in *.
    assert (Hlt : (light_n W light <? 1)%nat = false)
      by (apply Nat.ltb_ge; lia).
    rewrite Hlt. fold syns.
    rewrite remove_all_ok; [|done|].
    + match goal with
      | |- match for_each _ _ ?st with _ => _ end = _ =>
          assert (st = torn_down W light s) as ->
      end.
      { apply registry_ext; unfold torn_down, new_source; rewrite HG; simpl;
          rewrite ?difference_empty_L; done. }
      destruct (for_each _ _ _); [|done]. by destruct (decide _).
    + intros syn [k Hk]%Hsyns. simpl.
      pose proof (wf_syn_obj W s Hwf _ _ Hk) as Ho.
      pose proof (wf_network W s Hwf _ Ho) as Ho'.
      split; apply elem_of_union; by right.
Qed.

Lemma length_new_source light s :
  N (new_source W light s) =
  (from_option N 0 (light_source_ng s) + light_n W light)%nat.
Proof.
  unfold N, new_source. simpl.
  destruct (light_source_ng s) as [G|]; simpl.
  - fold (N G). destruct (0 <? N G)%nat.
    + rewrite length_app, length_drop, repeat_length. unfold N. lia.
    + by rewrite repeat_length.
  - by rewrite repeat_length.
Qed.

Lemma wf_torn_down light s :
  wf W s ->
  (0 < from_option N 0 (light_source_ng s) + light_n W light)%nat ->
  wf W (torn_down W light s).
Proof.
  intros [Hnet Hfresh Hsrco Hsize Hobj Hinj Hsynsrc Hsl Hshape Hcx] Hnew.
  split; simpl; try done.
  - intros o [[Ho|[Ho H1]%elem_of_difference]%elem_of_union H2]%elem_of_difference.
    + apply elem_of_difference. split; [|done]. apply elem_of_union. by left.
    + apply elem_of_difference. split; [|done]. apply elem_of_union. right.
      apply elem_of_difference. auto.
  - intros o [[->%elem_of_singleton|[Ho _]%elem_of_difference]%elem_of_union _]
      %elem_of_difference; [lia|].
    apply Hfresh in Ho. lia.
  - intros G [= <-]. simpl. apply elem_of_difference. split.
    + apply elem_of_union. left. by apply elem_of_singleton.
    + intros Hin%elem_of_list_to_set.
      apply list_elem_of_fmap in Hin as (syn & Heq & Hin).
      apply list_elem_of_fmap in Hin as ([k syn'] & -> & Hin%elem_of_map_to_list).
      apply Hobj, Hfresh in Hin. simpl in Heq. lia.
  - intros G [= <-]. by rewrite length_new_source.
  - intros l sl Hl. exists (new_source W light s). split; [done|].
    rewrite length_new_source.
    destruct (decide (light = l)) as [->|Hne].
    + rewrite lookup_insert_eq in Hl. injection Hl as <-. simpl. lia.
    + rewrite lookup_insert_ne in Hl by done.
      destruct (Hsl l sl Hl) as (G & HG & Hstop & Hle).
      rewrite HG. simpl. lia.
Qed.

(** Replaying connectable triples, none of them connected yet, connects
    them all. *)
Lemma replay_ok (cs : list (nat * nat * nat)) s :
  wf W s -> NoDup cs ->
  (forall c, c ∈ cs -> connectable W s c /\ c ∉ connections s) ->
  exists s',
    for_each (fun c => connect_light_to_ldd_for_ng W c.1.1 c.1.2 c.2) cs s
      = Ok tt s' /\
    connections s' = list_to_set cs ∪ connections s /\
    same_setup s s' /\ wf W s'.
Proof.
  revert s. induction cs as [|c cs IH]; intros s Hwf Hnd Hcs.
  - exists s. simpl. split; [done|]. split; [by rewrite union_empty_l_L|].
    split; [apply same_setup_refl|done].
  - apply NoDup_cons in Hnd as [Hnotin Hnd].
    destruct (Hcs c) as [Hcon Hc]; [by left|].
    destruct c as [[l d] g].
    destruct (connect_ok W l d g s Hwf Hcon Hc) as (s1 & Hs1 & Hcx1 & Hsame1 & Hwf1).
    destruct (IH s1 Hwf1 Hnd) as (s' & Hs' & Hcx' & Hsame' & Hwf').
    { intros c' Hc'. destruct (Hcs c') as [Hcon' Hn']; [by right|]. split.
      - eapply connectable_idx; [|done]. apply Hsame1.
      - rewrite Hcx1. intros Hx.
        apply elem_of_union in Hx as [Heq%elem_of_singleton|?]; [|done].
        apply Hnotin. by rewrite <- Heq. }
    exists s'. simpl. unfold mbind, M_bind. rewrite Hs1. split; [done|].
    split; [|split; [by eapply same_setup_trans|done]].
    rewrite Hcx', Hcx1. simpl.
    rewrite (assoc_L (∪)). f_equal. apply (comm_L (∪)).
Qed.

(** [init_register_light] on a well-formed registry returns; the replayed
    connections are the previous ones. *)
Lemma init_register_light_ok light s :
  wf W s ->
  (0 < from_option N 0 (light_source_ng s) + light_n W light)%nat ->
  exists s', init_register_light W light s = Ok tt s' /\
    connections s' = connections s /\
    same_setup (torn_down W light s) s' /\ wf W s'.
Proof.
  intros Hwf Hnew. rewrite init_register_light_unfold by done.
  destruct (replay_ok (elements (connections s)) (torn_down W light s))
    as (s' & Hs' & Hcx & Hsame & Hwf').
  - by apply wf_torn_down.
  - apply NoDup_elements.
  - intros c Hc%elem_of_elements. split; [|by simpl].
    destruct (wf_cxns W s Hwf c Hc) as [(Heps & Hidx & Hm) _].
    split; [done|]. split; [|done]. simpl.
    destruct (decide (light = c.1.1)) as [->|Hne].
    + rewrite lookup_insert_eq. eauto.
    + by rewrite lookup_insert_ne.
  - rewrite Hs'. simpl in Hcx. rewrite union_empty_r_L in Hcx.
    rewrite list_to_set_elements_L in Hcx.
    exists s'. rewrite decide_True by done. done.
Qed.

End Rebuild.

(** ** Reachable registries are well formed *)

Section Reachable.
Context (W : World).

(** The invariant does not read the membership maps, the raster settings
    or the warnings. *)
Lemma wf_same_core s s' :
  subgroup_idx_for_light s' = subgroup_idx_for_light s ->
  light_source_ng s' = light_source_ng s ->
  light_prop_syns s' = light_prop_syns s ->
  connections s' = connections s ->
  brian_objects s' = brian_objects s ->
  sim_network s' = sim_network s ->
  next_obj s' = next_obj s ->
  wf W s -> wf W s'.
Proof.
  intros H1 H2 H3 H4 H5 H6 H7 [Hnet Hfresh Hsrco Hsize Hobj Hinj Hsynsrc Hsl Hshape Hcx].
  split; rewrite ?H1, ?H2, ?H3, ?H4, ?H5, ?H6, ?H7; try done.
  intros c Hc. destruct (Hcx c Hc) as [Hcon Hsyn]. split; [|done].
  eapply connectable_idx; [|done]. done.
Qed.

Lemma register_ldd_wf ldd ng s :
  wf W s -> wf W (state_of (register_ldd W ldd ng s)).
Proof.
  intros Hwf. unfold register_ldd. munfold. cbv beta.
  apply for_each_inv.
  - intros light s'. apply connect_wf.
  - eapply wf_same_core; [..|exact Hwf]; try done;
      simpl; by destruct (ldds_for_ng s !! ng).
Qed.

Lemma register_light_wf light ng s :
  wf W s -> wf W (state_of (register_light W light ng s)).
Proof.
  intros Hwf. unfold register_light. munfold. cbv beta.
  apply for_each_inv.
  - intros ldd s'. apply connect_wf.
  - eapply wf_same_core; [..|exact Hwf]; try done;
      simpl; by destruct (lights_for_ng s !! ng).
Qed.

Lemma update_fov_wf new_fov s :
  wf W s -> wf W (state_of (update_fov new_fov s)).
Proof.
  intros Hwf. unfold update_fov. munfold. cbv beta. simpl.
  destruct (negb _); simpl; by eapply wf_same_core; [..|exact Hwf].
Qed.

Lemma write_Irr0_wf values s :
  wf W s -> wf W (state_of (write_Irr0 values s)).
Proof.
  intros Hwf. unfold write_Irr0. munfold. simpl.
  destruct (light_source_ng s) as [G|] eqn:HG; [|done].
  destruct (_ =? _)%nat eqn:E; [|done].
  apply Nat.eqb_eq in E.
  destruct Hwf as [Hnet Hfresh Hsrco Hsize Hobj Hinj Hsynsrc Hsl Hshape Hcx].
  split; simpl; try done.
  - intros G' [= <-]. simpl. eauto.
  - intros G' [= <-]. specialize (Hsize G HG). unfold N in *. simpl. lia.
  - intros k syn G' Hk [= <-]. simpl. eauto.
  - intros l sl Hl. destruct (Hsl l sl Hl) as (G' & HG' & Hstop & Hle).
    assert (G' = G) as -> by congruence.
    eexists. split; [done|]. unfold N in *. simpl. split; [done|]. lia.
  - intros k syn Hk. destruct (Hshape k syn Hk) as (G' & m & HG' & Hm & Hs).
    assert (G' = G) as -> by congruence.
    eexists _, m. split; [done|]. split; [done|].
    unfold N in *. simpl. by rewrite E.
Qed.

Lemma call_wf c s : wf W s -> wf W (state_of (call W c s)).
Proof.
  intros Hwf. destruct c as [[]| | | | | |]; simpl.
  - by apply register_light_wf.
  - by apply register_ldd_wf.
  - done.
  - by apply register_light_wf.
  - by apply register_ldd_wf.
  - by apply connect_wf.
  - destruct (decide (0 < from_option N 0 (light_source_ng s)
                          + light_n W light)%nat) as [Hnew|Hnone].
    + destruct (init_register_light_ok W light s Hwf Hnew)
        as (s' & -> & _ & _ & Hwf').
      done.
    + rewrite init_register_light_empty; [done| |lia].
      destruct (light_source_ng s) as [G|] eqn:HG; [|done].
      pose proof (wf_source_size W s Hwf G HG). simpl in Hnone. lia.
  - by apply update_fov_wf.
  - by apply write_Irr0_wf.
Qed.

Lemma wf_new_registry : wf W new_registry.
Proof. split; simpl; done. Qed.

(** Every reachable registry is well formed. *)
Lemma reachable_wf s : reachable W s -> wf W s.
Proof.
  induction 1 as [|s c _ IH]; [apply wf_new_registry|by apply call_wf].
Qed.

Lemma reachable_run_calls cs s :
  reachable W s -> reachable W (run_calls W cs s).
Proof.
  revert s. induction cs as [|c cs IH]; intros s Hs; [done|].
  simpl. apply IH. by constructor.
Qed.

End Reachable.

(** ** What a connection writes *)

Section Written.
Context (W : World).

Lemma write_raster_cons s light sl e es :
  write_raster W s light sl (e :: es) =
  write_raster W s light sl [e] ++ write_raster W s light sl es.
Proof. done. Qed.

Lemma write_raster_written s light ldd sl e0 e :
  edge_index e = edge_index e0 ->
  (in_slice sl (pre_i e0) = false ->
     var_T e = var_T e0 /\ var_epsilon e = var_epsilon e0 /\
     var_Ephoton e = var_Ephoton e0) ->
  (in_slice sl (pre_i e0) = true ->
     var_epsilon e = ldd_epsilon W ldd (light_wavelength W light)) ->
  Forall2 (connect_written W s light ldd sl) [e0] (write_raster W s light sl [e]).
Proof.
  intros Hix Hout Hin. assert (Hpre : pre_i e = pre_i e0) by (by injection Hix).
  unfold write_raster, set_all, set_rows. simpl. rewrite Hpre.
  constructor; [|constructor]. unfold connect_written.
  destruct (in_slice sl (pre_i e0)) eqn:E; simpl; repeat split; try done;
    try (by apply Hout); by apply Hin.
Qed.

Lemma write_array_written s light ldd sl vals es0 :
  Forall2 (connect_written W s light ldd sl) es0
    (write_raster W s light sl
       (set_rows_array sl set_T vals
          (set_rows sl (set_epsilon (ldd_epsilon W ldd (light_wavelength W light)))
             es0))).
Proof.
  revert vals. induction es0 as [|e es0 IH]; intros vals; [constructor|].
  cbn [set_rows map set_rows_array].
  destruct (in_slice sl (pre_i e)) eqn:E.
  - cbn [set_rows_array pre_i set_epsilon]. rewrite E.
    destruct vals as [|v vals]; rewrite write_raster_cons;
      (change (e :: es0) with ([e] ++ es0); apply Forall2_app; [|apply IH]);
      apply write_raster_written; try done; by rewrite E.
  - cbn [set_rows_array]. rewrite E. rewrite write_raster_cons.
    change (e :: es0) with ([e] ++ es0); apply Forall2_app; [|apply IH].
    apply write_raster_written; try done. by rewrite E.
Qed.

Lemma write_broadcast_written s light ldd sl v es0 :
  Forall2 (connect_written W s light ldd sl) es0
    (write_raster W s light sl
       (set_rows sl (set_T v)
          (set_rows sl (set_epsilon (ldd_epsilon W ldd (light_wavelength W light)))
             es0))).
Proof.
  induction es0 as [|e es0 IH]; [constructor|].
  cbn [set_rows map]. rewrite write_raster_cons.
  change (e :: es0) with ([e] ++ es0); apply Forall2_app; [|apply IH].
  destruct (in_slice sl (pre_i e)) eqn:E.
  - cbn [pre_i set_epsilon]. rewrite E.
    apply write_raster_written; try done. by rewrite E.
  - rewrite E. apply write_raster_written; try done. by rewrite E.
Qed.

Lemma assign_written s light ldd sl vals es0 es' :
  assign_rows_array sl set_T vals
    (set_rows sl (set_epsilon (ldd_epsilon W ldd (light_wavelength W light))) es0)
    = Some es' ->
  Forall2 (connect_written W s light ldd sl) es0 (write_raster W s light sl es').
Proof.
  unfold assign_rows_array. destruct (_ =? _)%nat.
  - intros [= <-]. apply write_array_written.
  - destruct vals as [|v [|]]; try done.
    intros [= <-]. apply write_broadcast_written.
Qed.

(** The synapses of the structure after a returning connection, against the
    synapses as obtained or created at the start of the call. *)
Lemma connect_written_edges light ldd ng s s' sl :
  Qeq_bool (ldd_epsilon W ldd (light_wavelength W light)) 0 = false ->
  connect_light_to_ldd_for_ng W light ldd ng s = Ok tt s' ->
  subgroup_idx_for_light s !! light = Some sl ->
  Forall2 (connect_written W s light ldd sl)
    (edges_of (state_of (_get_or_create_light_prop_syn W ldd ng s)) (ldd, ng))
    (edges_of s' (ldd, ng)).
Proof.
  intros Heps Hret Hsl.
  destruct (connect_returns W _ _ _ _ _ Heps Hret)
    as (s1 & sl' & es' & Hs1 & Hnotin & Hsl' & Hassign & ->).
  assert (sl' = sl) as -> by congruence.
  rewrite Hs1. simpl.
  destruct (get_or_create_returns W _ _ _ _ _ Hs1) as (_ & [syn Hsyn] & _).
  unfold edges_of at 2. simpl. rewrite lookup_alter_eq, Hsyn. simpl.
  by eapply assign_written.
Qed.

End Written.

(** ** The photon energy is never zero *)

Section Ephoton.
Context (W : World).

(** One step of the photon-energy invariant: every synapse of the new state
    is the initial joule, or freshly written by a standing connection, or
    comes from a synapse of the same source in the old state. *)
Lemma Ephoton_written_step s s' :
  subgroup_idx_for_light s' = subgroup_idx_for_light s ->
  connections s ⊆ connections s' ->
  (forall k syn' e',
     light_prop_syns s' !! k = Some syn' -> e' ∈ syn_edges syn' ->
     var_Ephoton e' = 1 \/
     (exists l sl,
        (l, k.1, k.2) ∈ connections s' /\
        subgroup_idx_for_light s' !! l = Some sl /\
        in_slice sl (pre_i e') = true /\
        var_Ephoton e' = photon_energy (light_wavelength W l)) \/
     (exists syn e,
        light_prop_syns s !! k = Some syn /\ e ∈ syn_edges syn /\
        pre_i e' = pre_i e /\ var_Ephoton e' = var_Ephoton e)) ->
  Ephoton_written W s -> Ephoton_written W s'.
Proof.
  intros Hidx Hcx Hstep Hinv k syn' e' Hk He'.
  destruct (Hstep k syn' e' Hk He') as [H1|[H2|(syn & e & Hsyn & He & Hpre & HE)]];
    [by left|by right|].
  destruct (Hinv k syn e Hsyn He) as [H1|(l & sl & Hl & Hsl & Hin & HEl)].
  - left. congruence.
  - right. exists l, sl. rewrite Hidx, Hpre, HE. auto.
Qed.

Lemma lookup_with_edges h f s k syn' :
  light_prop_syns (with_edges h f s) !! k = Some syn' ->
  (k = h /\ exists syn, light_prop_syns s !! h = Some syn /\
     syn_edges syn' = f (syn_edges syn)) \/
  (k <> h /\ light_prop_syns s !! k = Some syn').
Proof.
  unfold with_edges. simpl. destruct (decide (h = k)) as [->|Hne].
  - rewrite lookup_alter_eq.
    destruct (light_prop_syns s !! k) as [syn|]; [|done].
    simpl. intros [= <-]. left. split; [done|]. by exists syn.
  - rewrite lookup_alter_ne by done. right. auto.
Qed.

Lemma elem_of_set_rows sl f e' es :
  e' ∈ set_rows sl f es -> exists e, e ∈ es /\ (e' = e \/ e' = f e).
Proof.
  unfold set_rows. intros (e & -> & He)%list_elem_of_fmap.
  exists e. split; [done|]. destruct (in_slice sl (pre_i e)); auto.
Qed.

Lemma Ephoton_written_created ldd ng g n_tgt s :
  light_prop_syns s !! (ldd, ng) = None ->
  Ephoton_written W s -> Ephoton_written W (created ldd ng g n_tgt s).
Proof.
  intros Hnone. apply Ephoton_written_step; [done|done|].
  intros k syn' e'. unfold created. simpl.
  destruct (decide ((ldd, ng) = k)) as [<-|Hne].
  - rewrite lookup_insert_eq. intros [= <-]. simpl.
    unfold set_all. intros (e & -> & _)%list_elem_of_fmap. by left.
  - rewrite lookup_insert_ne by done. intros Hk He'.
    right. right. by exists syn', e'.
Qed.

Lemma get_or_create_Ephoton ldd ng s :
  Ephoton_written W s ->
  Ephoton_written W (state_of (_get_or_create_light_prop_syn W ldd ng s)).
Proof.
  intros Hinv. pose proof (get_or_create_cases W ldd ng s) as Hc.
  destruct (light_prop_syns s !! (ldd, ng)) eqn:E1; [by rewrite Hc|].
  destruct (ldd_light_agg_ngs W ldd ng) eqn:E2; [|by rewrite Hc].
  destruct (light_source_ng s) eqn:E3; rewrite Hc; [|done].
  by apply Ephoton_written_created.
Qed.

(** A call of [connect_light_to_ldd_for_ng] keeps the invariant, whether it
    returns or raises. *)
Lemma connect_Ephoton light ldd ng s :
  Ephoton_written W s ->
  Ephoton_written W (state_of (connect_light_to_ldd_for_ng W light ldd ng s)).
Proof.
  intros Hinv.
  destruct (Qeq_bool (ldd_epsilon W ldd (light_wavelength W light)) 0) eqn:Heps.
  { by rewrite connect_zero. }
  rewrite connect_after_create by done.
  pose proof (get_or_create_Ephoton ldd ng s Hinv) as Hinv1.
  pose proof (get_or_create_returns W ldd ng s) as Hret.
  destruct (_get_or_create_light_prop_syn W ldd ng s) as [h s1|e s1]; [|done].
  simpl in Hinv1. destruct (Hret h s1 eq_refl) as (-> & Hsyn & _). clear Hret.
  destruct (decide _); [done|].
  destruct (subgroup_idx_for_light s1 !! light) as [sl|] eqn:Hidx; [|done].
  cbv zeta. rewrite edges_of_with_edges by done.
  destruct (assign_rows_array _ _ _ _) as [es'|] eqn:Hassign; simpl.
  - revert Hinv1. apply Ephoton_written_step; [done|apply union_subseteq_r|].
    intros k syn' e' Hk He'.
    change (light_prop_syns
              (with_edges (ldd, ng) (fun _ => write_raster W s1 light sl es') s1)
              !! k = Some syn') in Hk.
    apply lookup_with_edges in Hk as [(-> & syn & Hs & Hes)|[Hne Hk]].
    + rewrite Hes in He'.
      pose proof (assign_written W s1 light ldd sl _ _ _ Hassign) as Hall.
      apply list_elem_of_lookup in He' as [i Hi].
      destruct (Forall2_lookup_r _ _ _ _ _ Hall Hi) as (e0 & Hi0 & Hw).
      destruct Hw as (Hix & Hout & Hin & _).
      assert (Hpre : pre_i e' = pre_i e0) by (by injection Hix).
      assert (He0 : e0 ∈ syn_edges syn).
      { apply list_elem_of_lookup. exists i. unfold edges_of in Hi0.
        by rewrite Hs in Hi0. }
      destruct (in_slice sl (pre_i e0)) eqn:E.
      * right. left. exists light, sl. simpl. rewrite Hpre, E.
        split; [apply elem_of_union; left; by apply elem_of_singleton|].
        split; [done|]. split; [done|]. by apply Hin.
      * right. right. exists syn, e0. split; [done|]. split; [done|].
        split; [done|]. by apply Hout.
    + right. right. by exists syn', e'.
  - revert Hinv1. apply Ephoton_written_step; [done|done|].
    intros k syn' e' Hk He'.
    apply lookup_with_edges in Hk as [(-> & syn & Hs & Hes)|[Hne Hk]].
    + rewrite Hes in He'. apply elem_of_set_rows in He' as (e0 & He0 & [->| ->]);
        right; right; by exists syn, e0.
    + right. right. by exists syn', e'.
Qed.

Lemma Ephoton_written_same s s' :
  subgroup_idx_for_light s' = subgroup_idx_for_light s ->
  light_prop_syns s' = light_prop_syns s ->
  connections s' = connections s ->
  Ephoton_written W s -> Ephoton_written W s'.
Proof.
  intros H1 H2 H3. apply Ephoton_written_step; [done|by rewrite H3|].
  intros k syn' e' Hk He'. right. right. exists syn', e'. by rewrite <- H2.
Qed.

Lemma call_Ephoton c s :
  wf W s -> Ephoton_written W s -> Ephoton_written W (state_of (call W c s)).
Proof.
  intros Hwf Hinv.
  assert (Hldd : forall ldd ng,
    Ephoton_written W (state_of (register_ldd W ldd ng s))).
  { intros ldd ng. unfold register_ldd. munfold. cbv beta.
    apply for_each_inv; [intros; by apply connect_Ephoton|].
    eapply Ephoton_written_same; [..|exact Hinv];
      simpl; by destruct (ldds_for_ng s !! ng). }
  assert (Hlight : forall light ng,
    Ephoton_written W (state_of (register_light W light ng s))).
  { intros light ng. unfold register_light. munfold. cbv beta.
    apply for_each_inv; [intros; by apply connect_Ephoton|].
    eapply Ephoton_written_same; [..|exact Hinv];
      simpl; by destruct (lights_for_ng s !! ng). }
  destruct c as [[]| | | | | |]; simpl; try done.
  - by apply connect_Ephoton.
  - destruct (decide (0 < from_option N 0 (light_source_ng s)
                          + light_n W light)%nat) as [Hnew|Hnone].
    2:{ rewrite init_register_light_empty; [done| |lia].
        destruct (light_source_ng s) as [G|] eqn:HG; [|done].
        pose proof (wf_source_size W s Hwf G HG). simpl in Hnone. lia. }
    rewrite init_register_light_unfold by done.
    assert (Hreplay : Ephoton_written W (state_of
      (for_each (fun c => connect_light_to_ldd_for_ng W c.1.1 c.1.2 c.2)
         (elements (connections s)) (torn_down W light s)))).
    { apply for_each_inv; [intros; by apply connect_Ephoton|].
      intros k syn e Hk. simpl in Hk. by rewrite lookup_empty in Hk. }
    destruct (for_each _ _ _); [|done]. by destruct (decide _).
  - unfold update_fov. munfold. cbv beta. simpl.
    destruct (negb _); simpl; by eapply Ephoton_written_same; [..|exact Hinv].
  - unfold write_Irr0. munfold. simpl.
    destruct (light_source_ng s); [|done].
    destruct (_ =? _)%nat; [|done].
    by eapply Ephoton_written_same; [..|exact Hinv].
Qed.

Lemma reachable_Ephoton s : reachable W s -> Ephoton_written W s.
Proof.
  induction 1 as [|s c Hs IH].
  - intros k syn e Hk. simpl in Hk. by rewrite lookup_empty in Hk.
  - apply call_Ephoton; [by apply reachable_wf|done].
Qed.

Lemma photon_energy_nonzero wavelength :
  ~ wavelength == 0 -> ~ photon_energy wavelength == 0.
Proof.
  intros Hw H. unfold photon_energy in H.
  apply Hw. apply Qmult_integral in H as [H|H]; [by vm_compute in H|].
  rewrite <- (Qinv_involutive wavelength), H. reflexivity.
Qed.

End Ephoton.

(** ** Supporting facts for the specification *)

Section Support.
Context (W : World).

Lemma for_each_connections_mono {A} (f : A -> M unit) xs s :
  (forall x s, connections s ⊆ connections (state_of (f x s))) ->
  connections s ⊆ connections (state_of (for_each f xs s)).
Proof.
  intros Hf.
  apply (for_each_inv (fun s' => connections s ⊆ connections s')); [|done].
  intros x s' Hs'. etrans; [exact Hs'|apply Hf].
Qed.

(** A call that does not rebuild the container never removes a
    connection. *)
Lemma call_connections_mono c s :
  is_rebuild c = false -> connections s ⊆ connections (state_of (call W c s)).
Proof.
  intros Hc.
  assert (Hldd : forall ldd ng,
    connections s ⊆ connections (state_of (register_ldd W ldd ng s))).
  { intros ldd ng. unfold register_ldd. munfold. cbv beta.
    etrans; [|apply for_each_connections_mono;
               intros; apply (connect_frame W)].
    simpl. by destruct (ldds_for_ng s !! ng). }
  assert (Hlight : forall light ng,
    connections s ⊆ connections (state_of (register_light W light ng s))).
  { intros light ng. unfold register_light. munfold. cbv beta.
    etrans; [|apply for_each_connections_mono;
               intros; apply (connect_frame W)].
    simpl. by destruct (lights_for_ng s !! ng). }
  destruct c as [[]| | | | | |]; simpl; try done.
  - apply (connect_frame W).
  - unfold update_fov. munfold. cbv beta. simpl. by destruct (negb _).
  - unfold write_Irr0. munfold. simpl.
    destruct (light_source_ng s); [|done]. by destruct (_ =? _)%nat.
Qed.

Lemma without_rebuild_inv s1 s2 :
  reachable_without_rebuild W s1 s2 -> wf W s1 ->
  wf W s2 /\ connections s1 ⊆ connections s2.
Proof.
  induction 1 as [|s2 c _ IH Hc]; intros Hwf; [done|].
  destruct (IH Hwf) as [Hwf2 Hsub]. split; [by apply call_wf|].
  etrans; [exact Hsub|by apply call_connections_mono].
Qed.

Lemma get_or_create_other ldd ng s k :
  k <> (ldd, ng) ->
  light_prop_syns (state_of (_get_or_create_light_prop_syn W ldd ng s)) !! k
  = light_prop_syns s !! k.
Proof.
  intros Hk. pose proof (get_or_create_cases W ldd ng s) as Hc.
  destruct (light_prop_syns s !! (ldd, ng)) eqn:E1; [by rewrite Hc|].
  destruct (ldd_light_agg_ngs W ldd ng) eqn:E2; [|by rewrite Hc].
  destruct (light_source_ng s) eqn:E3; rewrite Hc; [|done].
  simpl. by rewrite lookup_insert_ne.
Qed.

(** A first call for a triple does not raise the duplicate error. *)
Lemma connect_first_not_dup light ldd ng s e s1 :
  (light, ldd, ng) ∉ connections s ->
  connect_light_to_ldd_for_ng W light ldd ng s = Raise e s1 ->
  e <> ValueError_already_connected light ldd ng.
Proof.
  intros Hnotin.
  destruct (Qeq_bool (ldd_epsilon W ldd (light_wavelength W light)) 0) eqn:Heps.
  { by rewrite connect_zero. }
  rewrite connect_after_create by done.
  pose proof (get_or_create_cases W ldd ng s) as Hc.
  pose proof (get_or_create_returns W ldd ng s) as Hret.
  destruct (_get_or_create_light_prop_syn W ldd ng s) as [h s0|e0 s0].
  - destruct (Hret h s0 eq_refl) as (-> & _ & Hcx & _).
    rewrite Hcx, decide_False by done.
    destruct (subgroup_idx_for_light s0 !! light); [|by intros [= <- _]].
    cbv zeta. destruct (assign_rows_array _ _ _ _); [done|by intros [= <- _]].
  - intros [= <- <-]. clear Hret.
    destruct (light_prop_syns s !! (ldd, ng)); [done|].
    destruct (ldd_light_agg_ngs W ldd ng); [|by injection Hc as -> ->].
    destruct (light_source_ng s); [done|by injection Hc as -> ->].
Qed.

Lemma oversampling_scale_spec dt dwell :
  0 < dwell ->
  oversampling_scale dt dwell == 1 + Qmax 0 (dt / dwell - 1) /\
  (dwell < dt -> oversampling_scale dt dwell == dt / dwell) /\
  (dt <= dwell -> oversampling_scale dt dwell == 1).
Proof.
  intros Hpos. unfold oversampling_scale, Qgtb.
  assert (Hle : dt <= dwell -> dt / dwell <= 1).
  { intros. apply Qle_shift_div_r; lra. }
  assert (Hge : dwell < dt -> 1 <= dt / dwell).
  { intros. apply Qle_shift_div_l; lra. }
  revert Hle Hge. generalize (dt / dwell). intros x Hle Hge.
  destruct (Qle_bool dt dwell) eqn:E; simpl.
  - apply Qle_bool_iff in E. specialize (Hle E).
    split; [|split].
    + rewrite Q.max_l by lra. lra.
    + intros. lra.
    + intros. lra.
  - assert (Hlt : dwell < dt).
    { apply Qnot_le_lt. intros H%Qle_bool_iff. congruence. }
    specialize (Hge Hlt).
    split; [|split].
    + rewrite Q.max_r by lra. lra.
    + intros. lra.
    + intros. lra.
Qed.

Lemma dwell_time_pos fov scan_freq :
  0 < scan_freq -> ~ fov == 0 -> 0 < dwell_time fov scan_freq.
Proof.
  intros Hf Hfov. unfold dwell_time.
  assert (Hsq : 0 < (fov / 2) ^ 2).
  { assert (H : (fov / 2) ^ 2 == (fov * fov) / 4) by (simpl; field).
    rewrite H. apply Qlt_shift_div_l; [lra|].
    assert (Hsq0 : 0 <= fov * fov) by nra.
    assert (Hsq1 : ~ fov * fov == 0).
    { intros [Hz|Hz]%Qmult_integral; done. }
    apply Qle_lt_or_eq in Hsq0 as [Hlt|Heq]; [lra|].
    exfalso. apply Hsq1. by rewrite <- Heq. }
  assert (Hpi : 0 < pi) by (by vm_compute).
  assert (Hnum : 0 < pi * 10 ^ (-10) * 1).
  { assert (H : 0 < 10 ^ (-10)) by (by vm_compute). nra. }
  assert (Hden : 0 < pi * (fov / 2) ^ 2) by nra.
  apply Qlt_shift_div_l; [done|].
  assert (0 < pi * 10 ^ (-10) * 1 / (pi * (fov / 2) ^ 2)).
  { apply Qlt_shift_div_l; [done|]. lra. }
  lra.
Qed.

Lemma new_source_Irr0 light s G :
  light_source_ng s = Some G ->
  Irr0 (new_source W light s) = Irr0 G ++ repeat 0 (light_n W light).
Proof.
  intros HG. unfold new_source. rewrite HG. simpl.
  assert (Hdrop : forall n k, drop n (repeat 0 (n + k)) = repeat 0 k).
  { induction n as [|n IH]; intros k; [done|]. simpl. apply IH. }
  destruct (0 <? N G)%nat eqn:E.
  - by rewrite Hdrop.
  - apply Nat.ltb_ge in E. unfold N in *.
    destruct (Irr0 G); simpl in *; [done|lia].
Qed.

End Support.

(** ** The transmittance model *)

Section Foutz12.
Local Open Scope R_scope.

Lemma exp_le x y : x <= y -> exp x <= exp y.
Proof.
  intros [H | ->]; [|lra]. left. by apply exp_increasing.
Qed.

Lemma exp_ge_1 x : 0 <= x -> 1 <= exp x.
Proof. intros H. rewrite <- exp_0. by apply exp_le. Qed.

Lemma sinh_cosh_le x y :
  0 <= x -> x <= y -> sinh x <= sinh y /\ cosh x <= cosh y.
Proof.
  intros Hx Hxy. unfold sinh, cosh. rewrite !exp_Ropp.
  pose proof (exp_ge_1 x Hx) as Hu. pose proof (exp_le x y Hxy) as Huv.
  set (u := exp x) in *. set (v := exp y) in *.
  assert (Hiu : u * / u = 1) by (apply Rinv_r; lra).
  assert (Hiv : v * / v = 1) by (apply Rinv_r; lra).
  assert (Hpu : 0 < / u) by (apply Rinv_0_lt_compat; lra).
  assert (Hpv : 0 < / v) by (apply Rinv_0_lt_compat; lra).
  set (iu := / u) in *. set (iv := / v) in *.
  assert (Hle : iv <= iu) by nra.
  assert (H1 : iu * iv <= 1) by nra.
  split; [lra|].
  assert (0 <= (v - u) * (1 - iu * iv)) by nra.
  nra.
Qed.

Lemma sinh_nonneg x : 0 <= x -> 0 <= sinh x.
Proof.
  intros Hx. rewrite <- sinh_0. by apply sinh_cosh_le.
Qed.

Lemma cosh_ge_1 x : 0 <= x -> 1 <= cosh x.
Proof.
  intros Hx. rewrite <- cosh_0. by apply sinh_cosh_le.
Qed.

Lemma sinh_cosh_le_exp x : 0 <= x -> sinh x <= exp x /\ cosh x <= exp x.
Proof.
  intros Hx. unfold sinh, cosh. rewrite exp_Ropp.
  pose proof (exp_ge_1 x Hx) as Hu.
  assert (Hpu : 0 < / exp x) by (apply Rinv_0_lt_compat; lra).
  assert (Hiu : exp x * / exp x = 1) by (apply Rinv_r; lra).
  split; nra.
Qed.

Lemma aperture_ratio p :
  physical_params p ->
  0 <= param_NAfib p / param_ntis p < 1.
Proof.
  intros (_ & _ & _ & Hna & Hnt).
  assert (Hpos : 0 < param_ntis p) by lra.
  split.
  - apply Rmult_le_pos; [done|]. left. by apply Rinv_0_lt_compat.
  - apply Rmult_lt_reg_r with (param_ntis p); [done|].
    unfold Rdiv. rewrite Rmult_assoc, Rinv_l by lra. lra.
Qed.

Lemma cos_theta_div_pos p : physical_params p -> 0 < cos (theta_div p).
Proof.
  intros Hp. destruct (aperture_ratio p Hp) as [H0 H1].
  unfold theta_div. rewrite cos_asin by lra.
  apply sqrt_lt_R0. unfold Rsqr. nra.
Qed.

Lemma tan_theta_div_nonneg p : physical_params p -> 0 <= tan (theta_div p).
Proof.
  intros Hp. pose proof (cos_theta_div_pos p Hp) as Hc.
  destruct (aperture_ratio p Hp) as [H0 H1].
  unfold tan. apply Rmult_le_pos.
  - unfold theta_div. rewrite sin_asin by lra. done.
  - left. by apply Rinv_0_lt_compat.
Qed.

Lemma km_a_gt_1 p : physical_params p -> 1 < km_a p.
Proof.
  intros (_ & HK & HS & _). unfold km_a.
  assert (0 < param_K p / param_S p); [|lra].
  apply Rmult_lt_0_compat; [done|]. by apply Rinv_0_lt_compat.
Qed.

Lemma km_b_pos p : physical_params p -> 0 < km_b p.
Proof.
  intros Hp. pose proof (km_a_gt_1 p Hp). unfold km_b.
  apply sqrt_lt_R0. nra.
Qed.

(** The denominator of the Kubelka-Munk term, at distance [d]. *)
Lemma km_den_bounds p d :
  physical_params p -> 0 <= d ->
  km_b p <= km_a p * sinh (km_b p * param_S p * d) +
            km_b p * cosh (km_b p * param_S p * d)
         <= (km_a p + km_b p) * exp (km_b p * param_S p * d).
Proof.
  intros Hp Hd. pose proof (km_a_gt_1 p Hp) as Ha.
  pose proof (km_b_pos p Hp) as Hb. destruct Hp as (_ & _ & HS & _).
  assert (Hx : 0 <= km_b p * param_S p * d).
  { apply Rmult_le_pos; [|done]. apply Rmult_le_pos; lra. }
  pose proof (sinh_nonneg _ Hx). pose proof (cosh_ge_1 _ Hx).
  destruct (sinh_cosh_le_exp _ Hx). split; nra.
Qed.

Lemma km_den_le p d1 d2 :
  physical_params p -> 0 <= d1 -> d1 <= d2 ->
  km_a p * sinh (km_b p * param_S p * d1) +
  km_b p * cosh (km_b p * param_S p * d1)
  <= km_a p * sinh (km_b p * param_S p * d2) +
     km_b p * cosh (km_b p * param_S p * d2).
Proof.
  intros Hp Hd1 Hd. pose proof (km_a_gt_1 p Hp) as Ha.
  pose proof (km_b_pos p Hp) as Hb. destruct Hp as (_ & _ & HS & _).
  assert (Hbs : 0 <= km_b p * param_S p) by (apply Rmult_le_pos; lra).
  destruct (sinh_cosh_le (km_b p * param_S p * d1) (km_b p * param_S p * d2));
    [by apply Rmult_le_pos|by apply Rmult_le_compat_l|].
  nra.
Qed.

Lemma dist_nonneg (r z : R) : 0 <= r ^ 2 + z ^ 2.
Proof. nra. Qed.

Lemma checked_div_ok x y : y <> 0 -> checked_div x y = Some (x / y).
Proof. intros H. unfold checked_div. by destruct (Req_dec_T y 0). Qed.

Lemma checked_sqrt_ok x : 0 <= x -> checked_sqrt x = Some (sqrt x).
Proof. intros H. unfold checked_sqrt. by destruct (Rle_dec 0 x). Qed.

Lemma checked_arcsin_ok x : -1 <= x <= 1 -> checked_arcsin x = Some (asin x).
Proof.
  intros [H1 H2]. unfold checked_arcsin.
  destruct (Rle_dec (-1) x); [|done]. by destruct (Rle_dec x 1).
Qed.

Lemma checked_tan_ok x : cos x <> 0 -> checked_tan x = Some (tan x).
Proof. intros H. unfold checked_tan. by destruct (Req_dec_T (cos x) 0). Qed.

(** With physical parameters and a nonzero apparent radius, every checked
    operation goes through and the model returns its closed form. *)
Lemma Foutz12_defined p r z :
  physical_params p -> apparent_radius p z <> 0 ->
  _Foutz12_transmittance p r z true true true
  = Some (transmittance_value p r z).
Proof.
  intros Hp HRz. pose proof Hp as (HR0 & HK & HS & Hna & Hnt).
  destruct (aperture_ratio p Hp) as [H0 H1].
  pose proof (cos_theta_div_pos p Hp) as Hcos.
  pose proof (km_a_gt_1 p Hp) as Ha. pose proof (km_b_pos p Hp) as Hb.
  pose proof (km_den_bounds p (sqrt (r ^ 2 + z ^ 2)) Hp (sqrt_pos _)) as [Hden _].
  pose proof PI_RGT_0 as Hpi.
  assert (Hn : 0 < sqrt (2 * PI)) by (apply sqrt_lt_R0; lra).
  unfold _Foutz12_transmittance, kubelka_munk.
  rewrite (checked_div_ok (param_NAfib p)) by lra. cbn [mbind option_bind].
  rewrite checked_arcsin_ok by lra. cbn [mbind option_bind].
  fold (theta_div p). rewrite checked_tan_ok by lra. cbn [mbind option_bind].
  fold (apparent_radius p z).
  rewrite (checked_div_ok (param_R0 p)) by done.
  cbn [mbind option_bind fst snd].
  rewrite (checked_div_ok 1) by lra. cbn [mbind option_bind].
  rewrite (checked_div_ok r) by done. cbn [mbind option_bind].
  rewrite checked_sqrt_ok by apply dist_nonneg. cbn [mbind option_bind].
  rewrite (checked_div_ok (param_K p)) by lra. cbn [mbind option_bind].
  fold (km_a p). rewrite (checked_sqrt_ok (km_a p ^ 2 - 1)) by nra.
  cbn [mbind option_bind].
  fold (km_b p). rewrite checked_div_ok by lra. done.
Qed.

Lemma Rdiv_le_1 a b : 0 < b -> a <= b -> a / b <= 1.
Proof.
  intros Hb Hab. apply Rmult_le_reg_r with b; [done|].
  unfold Rdiv. rewrite Rmult_assoc, Rinv_l by lra. lra.
Qed.

Lemma km_value_bounds p r z :
  physical_params p -> 0 < km_value p r z <= 1.
Proof.
  intros Hp. pose proof (km_b_pos p Hp) as Hb.
  pose proof (km_den_bounds p (sqrt (r ^ 2 + z ^ 2)) Hp (sqrt_pos _)) as [Hden _].
  unfold km_value. split.
  - apply Rdiv_lt_0_compat; lra.
  - apply Rdiv_le_1; lra.
Qed.

Lemma km_value_le p r1 z1 r2 z2 :
  physical_params p ->
  r1 ^ 2 + z1 ^ 2 <= r2 ^ 2 + z2 ^ 2 ->
  km_value p r2 z2 <= km_value p r1 z1.
Proof.
  intros Hp Hd. pose proof (km_b_pos p Hp) as Hb.
  pose proof (km_den_bounds p (sqrt (r1 ^ 2 + z1 ^ 2)) Hp (sqrt_pos _)) as [Hden _].
  pose proof (km_den_le p (sqrt (r1 ^ 2 + z1 ^ 2)) (sqrt (r2 ^ 2 + z2 ^ 2)) Hp
                (sqrt_pos _)) as Hle.
  unfold km_value. apply Rmult_le_compat_l; [lra|].
  apply Rinv_le_contravar; [lra|]. apply Hle.
  apply sqrt_le_1; [apply dist_nonneg|apply dist_nonneg|done].
Qed.

Lemma km_value_origin p : physical_params p -> km_value p 0 0 = 1.
Proof.
  intros Hp. pose proof (km_b_pos p Hp) as Hb. unfold km_value.
  replace (0 ^ 2 + 0 ^ 2) with 0 by ring.
  rewrite sqrt_0, Rmult_0_r, sinh_0, cosh_0. field. lra.
Qed.

Lemma gaussian_peak_bounds : 0 < 1 / sqrt (2 * PI) <= 1.
Proof.
  pose proof PI2_3_2 as Hpi.
  assert (H1 : 1 <= sqrt (2 * PI)).
  { apply Rle_trans with (sqrt 1); [rewrite sqrt_1; lra|].
    apply sqrt_le_1; lra. }
  split.
  - apply Rdiv_lt_0_compat; lra.
  - apply Rdiv_le_1; lra.
Qed.

Lemma transmittance_value_origin p :
  physical_params p -> transmittance_value p 0 0 = 1 / sqrt (2 * PI).
Proof.
  intros Hp. pose proof Hp as (HR0 & _).
  unfold transmittance_value. rewrite km_value_origin by done.
  unfold apparent_radius. rewrite Rmult_0_l, Rplus_0_r.
  replace (-2 * (0 / param_R0 p) ^ 2) with 0 by (field; lra).
  rewrite exp_0. field.
  pose proof PI_RGT_0. assert (0 < sqrt (2 * PI)) by (apply sqrt_lt_R0; lra).
  split; lra.
Qed.

Lemma apparent_radius_le p z1 z2 :
  physical_params p -> z1 <= z2 -> apparent_radius p z1 <= apparent_radius p z2.
Proof.
  intros Hp Hz. pose proof (tan_theta_div_nonneg p Hp).
  unfold apparent_radius. nra.
Qed.

Lemma apparent_radius_pos p z :
  physical_params p -> 0 <= z -> 0 < apparent_radius p z.
Proof.
  intros Hp Hz. pose proof (tan_theta_div_nonneg p Hp).
  destruct Hp as (HR0 & _). unfold apparent_radius. nra.
Qed.

Lemma transmittance_value_pos p r z :
  physical_params p -> apparent_radius p z <> 0 ->
  0 < transmittance_value p r z.
Proof.
  intros Hp HRz. pose proof Hp as (HR0 & _).
  destruct (km_value_bounds p r z Hp) as [Hkm _].
  destruct gaussian_peak_bounds as [HG _].
  unfold transmittance_value.
  assert (0 < (param_R0 p / apparent_radius p z) ^ 2).
  { assert (param_R0 p / apparent_radius p z <> 0).
    { unfold Rdiv. apply Rmult_integral_contrapositive.
      split; [lra|by apply Rinv_neq_0_compat]. }
    nra. }
  pose proof (exp_pos (-2 * (r / apparent_radius p z) ^ 2)).
  apply Rmult_lt_0_compat; [|done].
  apply Rmult_lt_0_compat; [|done]. by apply Rmult_lt_0_compat.
Qed.

(** For a fixed axial offset, the closed form does not increase with the
    magnitude of the radial offset. *)
Lemma transmittance_value_radial p r1 r2 z :
  physical_params p -> apparent_radius p z <> 0 ->
  Rabs r1 <= Rabs r2 ->
  transmittance_value p r2 z <= transmittance_value p r1 z.
Proof.
  intros Hp HRz Hr.
  assert (Hsq : r1 ^ 2 <= r2 ^ 2).
  { rewrite <- !Rsqr_pow2. by apply Rsqr_le_abs_1. }
  destruct gaussian_peak_bounds as [HG _].
  destruct (km_value_bounds p r2 z Hp) as [Hkm2 _].
  pose proof (km_value_le p r1 z r2 z Hp ltac:(lra)) as Hkm.
  unfold transmittance_value.
  set (u := / apparent_radius p z).
  assert (Hexp : exp (-2 * (r2 * u) ^ 2) <= exp (-2 * (r1 * u) ^ 2)).
  { apply exp_le. assert (0 <= u ^ 2) by nra. nra. }
  pose proof (exp_pos (-2 * (r2 * u) ^ 2)).
  assert (HC : 0 <= (param_R0 p * u) ^ 2) by nra.
  unfold Rdiv. fold u.
  apply Rmult_le_compat; [| lra | | done].
  - apply Rmult_le_pos; [|done]. apply Rmult_le_pos; lra.
  - apply Rmult_le_compat_r; [done|].
    apply Rmult_le_compat_l; lra.
Qed.

(** The Gaussian times the squared radius ratio, as a function of
    [u = 1 / Rz ^ 2]: it grows with [u] as long as [c * u <= 1]. *)
Lemma gauss_spread_le c u1 u2 :
  0 <= c -> 0 < u2 -> u2 <= u1 -> c * u1 <= 1 ->
  exp (- c * u2) * u2 <= exp (- c * u1) * u1.
Proof.
  intros Hc Hu2 Hu Hcu.
  set (x := c * (u1 - u2)).
  assert (Hx0 : 0 <= x) by (unfold x; nra).
  assert (Hx1 : x <= 1) by (unfold x; nra).
  replace (- c * u2) with (- c * u1 + x) by (unfold x; ring).
  rewrite exp_plus.
  pose proof (exp_pos (- c * u1)) as HE. pose proof (exp_pos x) as Hex.
  assert (H1 : (1 - x) * exp x <= 1).
  { pose proof (exp_ineq1_le (- x)) as H. rewrite exp_Ropp in H.
    assert (Hi : exp x * / exp x = 1) by (apply Rinv_r; lra).
    assert (0 < / exp x) by (by apply Rinv_0_lt_compat).
    nra. }
  assert (H2 : u2 <= u1 * (1 - x)) by (unfold x; nra).
  assert (H3 : exp x * u2 <= u1).
  { assert (exp x * u2 <= exp x * (u1 * (1 - x))) by nra. nra. }
  nra.
Qed.

(** Along the axial direction the closed form does not increase either, as
    long as the point stays inside the core of the beam, where
    [2 r^2 <= Rz^2]; the axis itself is in the core. *)
Lemma transmittance_value_axial p r z1 z2 :
  physical_params p -> 0 <= z1 -> z1 <= z2 ->
  2 * r ^ 2 <= apparent_radius p z1 ^ 2 ->
  transmittance_value p r z2 <= transmittance_value p r z1.
Proof.
  intros Hp Hz1 Hz Hcore.
  pose proof (apparent_radius_pos p z1 Hp Hz1) as HR1.
  pose proof (apparent_radius_le p z1 z2 Hp Hz) as HR.
  destruct gaussian_peak_bounds as [HG _].
  destruct (km_value_bounds p r z2 Hp) as [Hkm2 _].
  pose proof (km_value_le p r z1 r z2 Hp ltac:(nra)) as Hkm.
  unfold transmittance_value.
  set (R1 := apparent_radius p z1) in *. set (R2 := apparent_radius p z2) in *.
  assert (Hi1 : R1 * / R1 = 1) by (apply Rinv_r; lra).
  assert (Hi2 : R2 * / R2 = 1) by (apply Rinv_r; lra).
  assert (Hp1 : 0 < / R1) by (apply Rinv_0_lt_compat; lra).
  assert (Hp2 : 0 < / R2) by (apply Rinv_0_lt_compat; lra).
  assert (Hile : / R2 <= / R1) by (apply Rinv_le_contravar; lra).
  pose proof (gauss_spread_le (2 * r ^ 2) ((/ R1) ^ 2) ((/ R2) ^ 2)) as Hkey.
  assert (Hkey' : exp (- (2 * r ^ 2) * (/ R2) ^ 2) * (/ R2) ^ 2
                  <= exp (- (2 * r ^ 2) * (/ R1) ^ 2) * (/ R1) ^ 2).
  { apply Hkey.
    - nra.
    - nra.
    - assert (0 <= / R1 - / R2) by lra. nra.
    - assert (Hsq : (R1 * / R1) ^ 2 = 1) by (rewrite Hi1; ring).
      assert (Hsq' : R1 ^ 2 * (/ R1) ^ 2 = 1) by (rewrite <- Hsq; ring).
      assert (0 <= (/ R1) ^ 2) by nra. nra. }
  unfold Rdiv.
  replace (-2 * (r * / R2) ^ 2) with (- (2 * r ^ 2) * (/ R2) ^ 2) by ring.
  replace (-2 * (r * / R1) ^ 2) with (- (2 * r ^ 2) * (/ R1) ^ 2) by ring.
  set (E1 := exp (- (2 * r ^ 2) * (/ R1) ^ 2)) in *.
  set (E2 := exp (- (2 * r ^ 2) * (/ R2) ^ 2)) in *.
  assert (HE2 : 0 < E2) by apply exp_pos.
  destruct Hp as (HR0 & _).
  replace (1 * / sqrt (2 * PI) * E2 * (param_R0 p * / R2) ^ 2)
    with (1 * / sqrt (2 * PI) * param_R0 p ^ 2 * (E2 * (/ R2) ^ 2)) by ring.
  replace (1 * / sqrt (2 * PI) * E1 * (param_R0 p * / R1) ^ 2)
    with (1 * / sqrt (2 * PI) * param_R0 p ^ 2 * (E1 * (/ R1) ^ 2)) by ring.
  assert (HA : 0 < 1 * / sqrt (2 * PI) * param_R0 p ^ 2).
  { unfold Rdiv in HG. apply Rmult_lt_0_compat; [done|]. by apply pow_lt. }
  assert (HB : 0 <= E2 * (/ R2) ^ 2).
  { apply Rmult_le_pos; [lra|]. apply pow_le. lra. }
  apply Rmult_le_compat; [|lra| |done].
  - apply Rmult_le_pos; lra.
  - apply Rmult_le_compat_l; [lra|done].
Qed.

Lemma physical_default_blue : physical_params default_blue.
Proof.
  unfold physical_params. params_of_default_blue.
  repeat (split; [lra|]). lra.
Qed.

Lemma tan_theta_default_blue : 0.27 <= tan (theta_div default_blue) <= 0.32.
Proof.
  unfold theta_div. params_of_default_blue.
  assert (Hq : 0.27 <= 0.37 / 1.36 <= 0.28) by (split; lra).
  set (q := 0.37 / 1.36) in *.
  rewrite tan_asin by lra.
  assert (Hs1 : sqrt (1 - q²) <= 1).
  { apply Rle_trans with (sqrt 1); [|rewrite sqrt_1; lra].
    apply sqrt_le_1; unfold Rsqr; nra. }
  assert (Hs2 : 0.9 <= sqrt (1 - q²)).
  { rewrite <- (sqrt_square 0.9) by lra.
    apply sqrt_le_1; unfold Rsqr; nra. }
  assert (Hi : sqrt (1 - q²) * / sqrt (1 - q²) = 1) by (apply Rinv_r; lra).
  assert (Hp : 0 < / sqrt (1 - q²)) by (apply Rinv_0_lt_compat; lra).
  unfold Rdiv. split; nra.
Qed.

Lemma km_default_blue :
  1 < km_a default_blue <= 1.02 /\ 0.18 <= km_b default_blue <= 0.19.
Proof.
  assert (Ha : 1.0169 <= km_a default_blue <= 1.017).
  { unfold km_a. params_of_default_blue. split; lra. }
  split; [lra|]. unfold km_b. split.
  - rewrite <- (sqrt_square 0.18) by lra. apply sqrt_le_1; nra.
  - rewrite <- (sqrt_square 0.19) by lra. apply sqrt_le_1; nra.
Qed.

Lemma exp_ge_square x : 0 <= x -> (1 + x / 2) ^ 2 <= exp x.
Proof.
  intros Hx. replace x with (x / 2 + x / 2) at 2 by lra.
  rewrite exp_plus. pose proof (exp_ineq1_le (x / 2)). nra.
Qed.

(** With the parameters of [default_blue], 0.6 mm off the axis, the point
    0.8 mm ahead of the fiber tip receives more light than the point in the
    plane of the tip. *)
Lemma default_blue_off_axis :
  transmittance_value default_blue 0.6e-3 0
  < transmittance_value default_blue 0.6e-3 0.8e-3.
Proof.
  pose proof physical_default_blue as Hp.
  destruct gaussian_peak_bounds as [HG _]. set (G0 := 1 / sqrt (2 * PI)) in *.
  destruct tan_theta_default_blue as [Ht1 Ht2].
  destruct km_default_blue as [[Ha1 Ha2] [Hb1 Hb2]].
  (* the plane of the tip *)
  assert (H1 : transmittance_value default_blue 0.6e-3 0 <= G0 * exp (-72)).
  { unfold transmittance_value. fold G0.
    destruct (km_value_bounds default_blue 0.6e-3 0 Hp) as [Hk0 Hk1].
    assert (HR : apparent_radius default_blue 0 = 0.1 * 1e-3).
    { unfold apparent_radius.
      change (param_R0 default_blue) with (0.1 * 1e-3). ring. }
    rewrite HR.
    replace (-2 * (0.6e-3 / (0.1 * 1e-3)) ^ 2) with (-72) by lra.
    replace (param_R0 default_blue / (0.1 * 1e-3)) with 1
      by (change (param_R0 default_blue) with (0.1 * 1e-3); lra).
    pose proof (exp_pos (-72)) as He. rewrite pow1, Rmult_1_r.
    assert (HA : 0 < G0 * exp (-72)) by (apply Rmult_lt_0_compat; lra).
    rewrite <- (Rmult_1_r (G0 * exp (-72))) at 2.
    apply Rmult_le_compat_l; lra. }
  (* 0.8 mm ahead *)
  assert (H2 : G0 * exp (-8) * (1 / 16) * (0.18 / (1.21 * exp 1.5))
               <= transmittance_value default_blue 0.6e-3 0.8e-3).
  { unfold transmittance_value. fold G0.
    assert (HR : 3e-4 <= apparent_radius default_blue 0.8e-3 <= 4e-4).
    { unfold apparent_radius.
      change (param_R0 default_blue) with (0.1 * 1e-3). split; nra. }
    set (Rz := apparent_radius default_blue 0.8e-3) in *.
    assert (Hi : Rz * / Rz = 1) by (apply Rinv_r; lra).
    assert (Hi1 : / Rz <= / 3e-4) by (apply Rinv_le_contravar; lra).
    assert (Hi2 : / 4e-4 <= / Rz) by (apply Rinv_le_contravar; lra).
    assert (Hexp : exp (-8) <= exp (-2 * (0.6e-3 / Rz) ^ 2)).
    { apply exp_le. unfold Rdiv.
      assert (0 < / Rz) by (apply Rinv_0_lt_compat; lra).
      assert (0.6e-3 * / Rz <= 2) by lra. nra. }
    assert (HC : 1 / 16 <= (param_R0 default_blue / Rz) ^ 2).
    { change (param_R0 default_blue) with (0.1 * 1e-3). unfold Rdiv.
      assert (1 / 4 <= 0.1 * 1e-3 * / Rz) by lra. nra. }
    assert (HM : 0.18 / (1.21 * exp 1.5) <= km_value default_blue 0.6e-3 0.8e-3).
    { unfold km_value.
      replace (0.6e-3 ^ 2 + 0.8e-3 ^ 2) with (1e-3 * 1e-3) by lra.
      rewrite sqrt_square by lra.
      pose proof (km_den_bounds default_blue 1e-3 Hp ltac:(lra)) as [Hd1 Hd2].
      set (D := km_a default_blue *
                sinh (km_b default_blue * param_S default_blue * 1e-3) +
                km_b default_blue *
                cosh (km_b default_blue * param_S default_blue * 1e-3)) in *.
      assert (Hx : km_b default_blue * param_S default_blue * 1e-3 <= 1.5).
      { change (param_S default_blue) with (7.37 / 1e-3). lra. }
      pose proof (exp_le _ _ Hx) as He.
      pose proof (exp_pos (km_b default_blue * param_S default_blue * 1e-3)).
      pose proof (exp_pos 1.5).
      assert (HD : D <= 1.21 * exp 1.5) by nra.
      assert (HD0 : 0 < D) by lra.
      unfold Rdiv. apply Rmult_le_compat; [lra| |done|].
      - left. apply Rinv_0_lt_compat. nra.
      - apply Rinv_le_contravar; [done|done]. }
    pose proof (exp_pos (-8)). pose proof (exp_pos 1.5).
    assert (0 < 0.18 / (1.21 * exp 1.5)).
    { apply Rdiv_lt_0_compat; nra. }
    apply Rmult_le_compat; [|lra| |done].
    - apply Rmult_le_pos; [|lra]. apply Rmult_le_pos; lra.
    - apply Rmult_le_compat; [|lra| |done].
      + apply Rmult_le_pos; lra.
      + apply Rmult_le_compat_l; lra. }
  (* the comparison *)
  assert (H3 : G0 * exp (-72) < G0 * exp (-8) * (1 / 16) * (0.18 / (1.21 * exp 1.5))).
  { pose proof (exp_ge_square 62.5 ltac:(lra)) as Hbig.
    assert (He : exp (-8) = exp (-72) * exp 1.5 * exp 62.5).
    { rewrite <- !exp_plus. f_equal. lra. }
    rewrite He. pose proof (exp_pos (-72)). pose proof (exp_pos 1.5).
    assert (Hi : exp 1.5 * / exp 1.5 = 1) by (apply Rinv_r; lra).
    replace (G0 * (exp (-72) * exp 1.5 * exp 62.5) * (1 / 16)
             * (0.18 / (1.21 * exp 1.5)))
      with (G0 * exp (-72) * (exp 62.5 * (0.18 / (16 * 1.21)))
            * (exp 1.5 * / exp 1.5)) by (field; lra).
    rewrite Hi.
    assert (1 < exp 62.5 * (0.18 / (16 * 1.21))) by nra.
    assert (0 < G0 * exp (-72)) by nra. nra. }
  lra.
Qed.

End Foutz12.

(** ** The slices partition the light-source group *)

Section Partition.
Context (W : World).

Lemma in_slice_bounds sl i :
  in_slice sl i = true <-> (start sl <= i /\ i < stop sl)%nat.
Proof.
  unfold in_slice. rewrite andb_true_iff, Nat.leb_le, Nat.ltb_lt. done.
Qed.

(** Registering a light that has no slice yet keeps the slices a partition
    of the allocated range. *)
Lemma new_light_keeps_partition light s :
  reachable W s -> slices_partition s ->
  subgroup_idx_for_light s !! light = None ->
  slices_partition (state_of (init_register_light W light s)).
Proof.
  intros Hs%reachable_wf [Hdis Hcov] Hnew.
  destruct (decide (0 < from_option N 0 (light_source_ng s)
                        + light_n W light)%nat) as [Hsize|Hnone].
  2:{ rewrite init_register_light_empty; [done| |lia].
      destruct (light_source_ng s) as [G|] eqn:HG; [|done].
      pose proof (wf_source_size W s Hs G HG). simpl in Hnone. lia. }
  destruct (init_register_light_ok W light s Hs Hsize)
    as (s' & -> & _ & (Hidx & Hsrc & _) & _).
  simpl in *. set (n := from_option N 0%nat (light_source_ng s)) in *.
  assert (Hold : forall l sl,
    subgroup_idx_for_light s !! l = Some sl -> (stop sl <= n)%nat).
  { intros l sl Hl. destruct (wf_slices W s Hs l sl Hl) as (G & HG & _ & Hle).
    unfold n. by rewrite HG. }
  assert (Hlk : forall l sl,
    subgroup_idx_for_light s' !! l = Some sl ->
    (l = light /\ sl = Slice n (n + light_n W light)) \/
    (l <> light /\ subgroup_idx_for_light s !! l = Some sl)).
  { intros l sl. rewrite Hidx. destruct (decide (light = l)) as [->|Hne].
    - rewrite lookup_insert_eq. intros [= <-]. by left.
    - rewrite lookup_insert_ne by done. intros Hl. right. split; [done|done]. }
  split.
  - intros l1 l2 sl1 sl2 i Hne [[-> ->]|[Hn1 H1]]%Hlk [[-> ->]|[Hn2 H2]]%Hlk Hin;
      try done.
    + apply in_slice_bounds in Hin. simpl in Hin.
      apply not_true_is_false. intros Hin2%in_slice_bounds.
      pose proof (Hold _ _ H2). lia.
    + apply in_slice_bounds in Hin. pose proof (Hold _ _ H1).
      apply not_true_is_false. intros Hin2%in_slice_bounds. simpl in Hin2. lia.
    + exact (Hdis l1 l2 sl1 sl2 i Hne H1 H2 Hin).
  - intros i. rewrite Hsrc. simpl. rewrite length_new_source. fold n. split.
    + intros Hi. destruct (decide (i < n)%nat) as [Hlt|Hge].
      * apply Hcov in Hlt as (l & sl & Hl & Hin). exists l, sl.
        split; [|done]. rewrite Hidx, lookup_insert_ne; [done|congruence].
      * exists light, (Slice n (n + light_n W light)). split.
        -- by rewrite Hidx, lookup_insert_eq.
        -- apply in_slice_bounds. simpl. lia.
    + intros (l & sl & [[-> ->]|[Hn Hl]]%Hlk & Hin%in_slice_bounds).
      * simpl in Hin. lia.
      * pose proof (Hold _ _ Hl). lia.
Qed.

End Partition.

(** ** No light registered twice *)

Section Once.
Context (W : World).

Lemma for_each_same_setup {A} (f : A -> M unit) xs s :
  (forall x s, same_setup s (state_of (f x s))) ->
  same_setup s (state_of (for_each f xs s)).
Proof.
  intros Hf. apply (for_each_inv (same_setup s)); [|apply same_setup_refl].
  intros x s' Hs'. eapply same_setup_trans; [exact Hs'|apply Hf].
Qed.

(** The partition only reads the slice table and the size of the group. *)
Lemma slices_partition_same s s' :
  subgroup_idx_for_light s' = subgroup_idx_for_light s ->
  from_option N 0%nat (light_source_ng s') = from_option N 0%nat (light_source_ng s) ->
  slices_partition s -> slices_partition s'.
Proof.
  intros Hidx HN [Hdis Hcov]. unfold slices_partition, covered.
  rewrite Hidx, HN. done.
Qed.

(** A call keeps the slices a partition, as long as it does not register a
    light a second time. *)
Lemma call_keeps_partition c s :
  reachable W s -> slices_partition s ->
  (forall light, c = Call_init_register_light light ->
     subgroup_idx_for_light s !! light = None) ->
  slices_partition (state_of (call W c s)).
Proof.
  intros Hs Hpart Hnew.
  assert (Hldd : forall ldd ng,
    slices_partition (state_of (register_ldd W ldd ng s))).
  { intros ldd ng. unfold register_ldd. munfold. cbv beta.
    match goal with
    | |- slices_partition (state_of (for_each ?f ?xs ?s0)) =>
        destruct (for_each_same_setup f xs s0) as (Hidx & Hsrc & _)
    end.
    { intros. apply (connect_frame W). }
    eapply slices_partition_same; [..|exact Hpart].
    - rewrite Hidx. simpl. by destruct (ldds_for_ng s !! ng).
    - rewrite Hsrc. simpl. by destruct (ldds_for_ng s !! ng). }
  assert (Hlight : forall light ng,
    slices_partition (state_of (register_light W light ng s))).
  { intros light ng. unfold register_light. munfold. cbv beta.
    match goal with
    | |- slices_partition (state_of (for_each ?f ?xs ?s0)) =>
        destruct (for_each_same_setup f xs s0) as (Hidx & Hsrc & _)
    end.
    { intros. apply (connect_frame W). }
    eapply slices_partition_same; [..|exact Hpart].
    - rewrite Hidx. simpl. by destruct (lights_for_ng s !! ng).
    - rewrite Hsrc. simpl. by destruct (lights_for_ng s !! ng). }
  destruct c as [[]| | | | | |]; simpl; try done.
  - destruct (connect_frame W light ldd ng s) as [(Hidx & Hsrc & _) _].
    eapply slices_partition_same; [..|exact Hpart]; [done|by rewrite Hsrc].
  - apply new_light_keeps_partition; [done|done|by apply Hnew].
  - unfold update_fov. munfold. cbv beta. simpl.
    destruct (negb _); simpl; by eapply slices_partition_same; [..|exact Hpart].
  - unfold write_Irr0. munfold. simpl.
    destruct (light_source_ng s) as [G|] eqn:HG; [|done].
    destruct (_ =? _)%nat eqn:E; [|done]. apply Nat.eqb_eq in E.
    eapply slices_partition_same; [..|exact Hpart]; [done|].
    rewrite HG. simpl. unfold N in *. simpl. done.
Qed.

Lemma registering_once_reachable s :
  reachable_registering_once W s -> reachable W s.
Proof. induction 1; by constructor. Qed.

(** When no light is registered twice, the slices of the registered lights
    are pairwise disjoint and cover the light-source group. *)
Lemma registering_once_partition s :
  reachable_registering_once W s -> slices_partition s.
Proof.
  induction 1 as [|s c Hs IH Hnew].
  - split.
    + intros l1 l2 sl1 sl2 i _ H. simpl in H. by rewrite lookup_empty in H.
    + intros i. simpl. split; [lia|].
      intros (l & sl & H & _). simpl in H. by rewrite lookup_empty in H.
  - apply call_keeps_partition; [by apply registering_once_reachable|done|done].
Qed.

End Once.

(** ** Parameters outside the physical range *)

Section NoAbsorption.
Local Open Scope R_scope.

(** Without absorption the Kubelka-Munk term is 0/0 at the origin: the
    model has no finite value there. *)
Lemma no_absorption_origin :
  _Foutz12_transmittance no_absorption 0 0 true true true = None.
Proof.
  unfold _Foutz12_transmittance, kubelka_munk.
  change (param_K no_absorption) with 0.
  change (param_NAfib no_absorption) with (param_NAfib default_blue).
  change (param_ntis no_absorption) with (param_ntis default_blue).
  change (param_R0 no_absorption) with (param_R0 default_blue).
  change (param_S no_absorption) with (param_S default_blue).
  pose proof physical_default_blue as Hp.
  pose proof Hp as (HR0 & HK & HS & Hna & Hnt).
  destruct (aperture_ratio default_blue Hp) as [H0 H1].
  pose proof (cos_theta_div_pos default_blue Hp) as Hcos.
  pose proof (apparent_radius_pos default_blue 0 Hp ltac:(lra)) as HRz.
  pose proof PI_RGT_0 as Hpi.
  assert (Hn : 0 < sqrt (2 * PI)) by (apply sqrt_lt_R0; lra).
  rewrite (checked_div_ok (param_NAfib default_blue)) by lra.
  cbn [mbind option_bind].
  rewrite checked_arcsin_ok by lra. cbn [mbind option_bind].
  fold (theta_div default_blue). rewrite checked_tan_ok by lra.
  cbn [mbind option_bind]. fold (apparent_radius default_blue 0).
  rewrite (checked_div_ok (param_R0 default_blue)) by lra.
  cbn [mbind option_bind fst snd].
  rewrite (checked_div_ok 1) by lra. cbn [mbind option_bind].
  rewrite (checked_div_ok 0 (apparent_radius default_blue 0)) by lra.
  cbn [mbind option_bind].
  replace (0 ^ 2 + 0 ^ 2) with 0 by ring.
  rewrite (checked_sqrt_ok 0) by lra. cbn [mbind option_bind].
  rewrite (checked_div_ok 0 (param_S default_blue)) by lra.
  cbn [mbind option_bind].
  replace ((1 + 0 / param_S default_blue) ^ 2 - 1) with 0 by (field; lra).
  rewrite (checked_sqrt_ok 0) by lra. cbn [mbind option_bind].
  rewrite sqrt_0, !Rmult_0_l, sinh_0, Rmult_0_r, Rplus_0_l.
  unfold checked_div. by destruct (Req_dec_T 0 0).
Qed.

End NoAbsorption.

(** * The specification, claim by claim *)

(** C1. In every reachable registry, registering a light source leaves the
    connection set as it was before the registration: the call returns, the
    replayed connections being the previous ones, as soon as the light has a
    neuron or a light-source group exists already; and the one call that
    raises, for a light without neurons on a registry without a group, has
    not touched the registry. *)
Theorem rebuild_preserves_connections W light s :
  reachable W s ->
  connections (state_of (init_register_light W light s)) = connections s /\
  ((0 < light_n W light)%nat \/ is_Some (light_source_ng s) ->
   exists s', init_register_light W light s = Ok tt s' /\
     connections s' = connections s).
Proof.
  intros Hs%reachable_wf.
  assert (Hok : (0 < from_option N 0 (light_source_ng s) + light_n W light)%nat ->
    exists s', init_register_light W light s = Ok tt s' /\
      connections s' = connections s).
  { intros Hsize.
    destruct (init_register_light_ok W light s Hs Hsize) as (s' & Hs' & Hcx & _).
    eauto. }
  split.
  - destruct (decide (0 < from_option N 0 (light_source_ng s)
                          + light_n W light)%nat) as [Hsize|Hnone].
    + destruct (Hok Hsize) as (s' & -> & Hcx). done.
    + rewrite init_register_light_empty; [done| |lia].
      destruct (light_source_ng s) as [G|] eqn:HG; [|done].
      pose proof (wf_source_size W s Hs G HG). simpl in Hnone. lia.
  - intros [Hn|[G HG]]; apply Hok; [lia|].
    rewrite HG. simpl. pose proof (wf_source_size W s Hs G HG). lia.
Qed.

(** The rebuild of [one_connection] for a third light. *)
Lemma rebuild_preserves_connections_witness :
  connections (state_of (init_register_light two_lights 2 one_connection))
  = connections one_connection /\
  ((0 < light_n two_lights 2)%nat \/ is_Some (light_source_ng one_connection) ->
   exists s', init_register_light two_lights 2 one_connection = Ok tt s' /\
     connections s' = connections one_connection).
Proof.
  apply (rebuild_preserves_connections two_lights 2 one_connection).
  unfold one_connection, run_calls. cbn [fold_left].
  do 4 apply reachable_call. apply reachable_new.
Defined.

(** C2, as the code has it. A returning connection of [light] to the
    structure of [(ldd, ng)] writes the sensitivity, the transmittance and
    the photon energy in the light's slice only: outside the slice these
    three variables are as they were in the structure obtained or created
    at the start of the call.  The scan period, the raster dwell time, the
    scale and the raster-enable flag are written on every synapse of the
    structure, the slices of the other lights included.  The other
    structures are not touched. *)
Theorem connect_writes_own_slice W light ldd ng s s' sl :
  Qeq_bool (ldd_epsilon W ldd (light_wavelength W light)) 0 = false ->
  connect_light_to_ldd_for_ng W light ldd ng s = Ok tt s' ->
  subgroup_idx_for_light s !! light = Some sl ->
  Forall2 (connect_written W s light ldd sl)
    (edges_of (state_of (_get_or_create_light_prop_syn W ldd ng s)) (ldd, ng))
    (edges_of s' (ldd, ng)) /\
  forall k, k <> (ldd, ng) -> light_prop_syns s' !! k = light_prop_syns s !! k.
Proof.
  intros Heps Hret Hsl. split; [by apply connect_written_edges|].
  intros k Hk.
  destruct (connect_returns W _ _ _ _ _ Heps Hret)
    as (s1 & sl' & es' & Hs1 & _ & _ & _ & ->).
  simpl. rewrite lookup_alter_ne by done.
  rewrite <- (get_or_create_other W ldd ng s k Hk). by rewrite Hs1.
Qed.

(** Light 1 connected to the structure that light 0 is connected to. *)
Lemma connect_writes_own_slice_witness :
  Forall2 (connect_written two_lights one_connection 1 5 (Slice 1 2))
    (edges_of (state_of (_get_or_create_light_prop_syn two_lights 5 7
                           one_connection)) (5, 7)%nat)
    (edges_of (state_of (connect_light_to_ldd_for_ng two_lights 1 5 7
                           one_connection)) (5, 7)%nat) /\
  forall k, k <> (5, 7)%nat ->
    light_prop_syns (state_of (connect_light_to_ldd_for_ng two_lights 1 5 7
                                 one_connection)) !! k
    = light_prop_syns one_connection !! k.
Proof.
  apply (connect_writes_own_slice two_lights 1 5 7 one_connection
           (state_of (connect_light_to_ldd_for_ng two_lights 1 5 7
                        one_connection)) (Slice 1 2)).
  - reflexivity.
  - vm_compute. reflexivity.
  - vm_compute. reflexivity.
Defined.

(** C2, as stated, fails: connecting light 1, which scans at 2000 Hz, to a
    structure that light 0, scanning at 1000 Hz, is connected to changes the
    scan period of the synapse of light 0. *)
Lemma writes_only_own_slice_fails : ~ writes_only_own_slice two_lights.
Proof.
  intros H.
  assert (Hsyn : exists syn e0,
    light_prop_syns one_connection !! (5, 7)%nat = Some syn /\
    syn_edges syn !! 0%nat = Some e0 /\
    pre_i e0 = 0%nat /\ var_scan_period e0 = 1 # 1000).
  { eexists _, _. split; [vm_compute; reflexivity|].
    split; [vm_compute; reflexivity|]. split; vm_compute; reflexivity. }
  destruct Hsyn as (syn & e0 & Hsyn & He0 & Hpre & Hperiod).
  assert (Hnew : exists e1,
    edges_of (state_of (connect_light_to_ldd_for_ng two_lights 1 5 7
                          one_connection)) (5, 7)%nat !! 0%nat = Some e1 /\
    var_scan_period e1 = 1 # 2000).
  { eexists. split; vm_compute; reflexivity. }
  destruct Hnew as (e1 & He1 & Hperiod1).
  specialize (H one_connection 1%nat 5%nat 7%nat
    (state_of (connect_light_to_ldd_for_ng two_lights 1 5 7 one_connection))
    (Slice 1 2) syn).
  assert (Hall := H eq_refl Hsyn ltac:(vm_compute; reflexivity)
                    ltac:(vm_compute; reflexivity)).
  pose proof (Forall2_lookup_lr _ _ _ _ _ _ Hall He0 He1) as Heq.
  cbv beta in Heq. rewrite Hpre in Heq. specialize (Heq eq_refl). subst e1.
  rewrite Hperiod in Hperiod1. discriminate.
Qed.

(** C3, as the code has it. [update_fov] always returns and sets the
    raster-enable flag to 1; it keeps the stored field of view and stays
    silent when the new value equals the stored one, and otherwise stores
    the new value and emits one warning.  The stored value of a new registry
    is the default of 500 micrometres, so [update_fov(100)] followed by
    [update_fov(200)] leaves 200 and emits a warning at each call, two in
    all. *)
Theorem update_fov_last_write_wins s new_fov :
  exists s', update_fov new_fov s = Ok tt s' /\
    raster_enable s' = 1 /\
    (if Qeq_bool (raster_fov s) new_fov
     then raster_fov s' = raster_fov s /\ warnings_log s' = warnings_log s
     else raster_fov s' = new_fov /\
          warnings_log s' = warnings_log s ++ [UserWarning_single_fov]) /\
    raster_fov two_fovs = 200 /\ raster_enable two_fovs = 1 /\
    warnings_log two_fovs = [UserWarning_single_fov; UserWarning_single_fov].
Proof.
  unfold update_fov. munfold. cbv beta. simpl.
  destruct (Qeq_bool (raster_fov s) new_fov); simpl; eexists; repeat split.
Qed.

(** C3, as stated, fails: the two calls on a new registry emit two warnings,
    not one. *)
Lemma two_fovs_two_warnings : length (warnings_log two_fovs) <> 1%nat.
Proof. vm_compute. discriminate. Qed.

(** C4. In a reachable registry whose light-source group [G] exists,
    registering a light that has no slice yet returns with a group of
    [N G + light.n] elements; every slice of the table is kept and reads the
    values it read before; the new light has the tail slice, which reads
    zeros. *)
Theorem rebuild_keeps_irradiance W light s G :
  reachable W s ->
  light_source_ng s = Some G ->
  subgroup_idx_for_light s !! light = None ->
  exists s' G',
    init_register_light W light s = Ok tt s' /\
    light_source_ng s' = Some G' /\
    N G' = (N G + light_n W light)%nat /\
    (forall l sl,
       subgroup_idx_for_light s !! l = Some sl ->
       subgroup_idx_for_light s' !! l = Some sl /\
       read_slice sl G' = read_slice sl G) /\
    subgroup_idx_for_light s' !! light
      = Some (Slice (N G) (N G + light_n W light)) /\
    read_slice (Slice (N G) (N G + light_n W light)) G'
      = repeat 0 (light_n W light).
Proof.
  intros Hs%reachable_wf HG Hnew.
  assert (Hsize : (0 < from_option N 0 (light_source_ng s)
                       + light_n W light)%nat).
  { rewrite HG. simpl. pose proof (wf_source_size W s Hs G HG). lia. }
  destruct (init_register_light_ok W light s Hs Hsize)
    as (s' & Hs' & _ & (Hidx & Hsrc & _) & _).
  simpl in Hidx, Hsrc. rewrite HG in Hidx. simpl in Hidx.
  pose proof (new_source_Irr0 W light s G HG) as HIrr.
  exists s', (new_source W light s). split; [done|]. split; [done|].
  split; [|split; [|split]].
  - unfold N. by rewrite HIrr, length_app, repeat_length.
  - intros l sl Hl. rewrite Hidx.
    assert (light <> l) by congruence.
    rewrite lookup_insert_ne by done. split; [done|].
    destruct (wf_slices W s Hs l sl Hl) as (G0 & HG0 & Hstop & Hle).
    assert (G0 = G) as -> by congruence.
    unfold read_slice, N in *. rewrite HIrr.
    rewrite drop_app_le by lia.
    rewrite take_app_le; [done|]. rewrite length_drop. lia.
  - rewrite Hidx. by rewrite lookup_insert_eq.
  - unfold read_slice. cbn [start stop]. rewrite HIrr. unfold N.
    rewrite drop_app_length.
    replace (length (Irr0 G) + light_n W light - length (Irr0 G))%nat
      with (light_n W light) by lia.
    rewrite take_ge; [done|]. by rewrite repeat_length.
Qed.

(** A third light registered while the first two emit 5 and 3 W/m2. *)
Lemma rebuild_keeps_irradiance_witness :
  exists s' G',
    init_register_light two_lights 2 irradiated = Ok tt s' /\
    light_source_ng s' = Some G' /\
    N G' = (2 + 1)%nat /\
    (forall l sl,
       subgroup_idx_for_light irradiated !! l = Some sl ->
       subgroup_idx_for_light s' !! l = Some sl /\
       read_slice sl G' = read_slice sl {| ng_obj := 1; Irr0 := [5; 3] |}) /\
    subgroup_idx_for_light s' !! 2%nat = Some (Slice 2 (2 + 1)) /\
    read_slice (Slice 2 (2 + 1)) G' = repeat 0 1.
Proof.
  apply (rebuild_keeps_irradiance two_lights 2 irradiated
           {| ng_obj := 1; Irr0 := [5; 3] |}).
  - unfold irradiated, one_connection, run_calls. cbn [fold_left].
    do 5 apply reachable_call. apply reachable_new.
  - vm_compute. reflexivity.
  - vm_compute. reflexivity.
Defined.

(** C5 fails on the code. [init_register_light] does not look whether the
    light has a slice already: registered twice, a light of one element owns
    the slice [[1, 2)] of a group of two elements, and index 0 belongs to no
    slice. *)
Theorem registered_twice_not_partitioned : ~ slices_partition registered_twice.
Proof.
  intros [_ Hcover].
  assert (Hidx : subgroup_idx_for_light registered_twice = {[0%nat := Slice 1 2]})
    by (vm_compute; reflexivity).
  assert (HN : from_option N 0%nat (light_source_ng registered_twice) = 2%nat)
    by (vm_compute; reflexivity).
  destruct (proj1 (Hcover 0%nat)) as (l & sl & Hl & Hin); [rewrite HN; lia|].
  rewrite Hidx in Hl. apply lookup_singleton_Some in Hl as [_ <-].
  discriminate.
Qed.

(** C6. In a reachable registry, take a triple of nonzero sensitivity that
    is not connected.  Its first connection does not raise the duplicate
    error, and it returns when the triple is connectable.  Once it has
    returned, and whatever calls follow that do not rebuild the container, a
    second connection of the triple raises the duplicate error, which names
    the triple. *)
Theorem second_connect_raises W light ldd ng s :
  reachable W s ->
  Qeq_bool (ldd_epsilon W ldd (light_wavelength W light)) 0 = false ->
  (light, ldd, ng) ∉ connections s ->
  (forall e s1,
     connect_light_to_ldd_for_ng W light ldd ng s = Raise e s1 ->
     e <> ValueError_already_connected light ldd ng) /\
  (connectable W s (light, ldd, ng) ->
   exists s1, connect_light_to_ldd_for_ng W light ldd ng s = Ok tt s1) /\
  (forall s1 s2,
     connect_light_to_ldd_for_ng W light ldd ng s = Ok tt s1 ->
     reachable_without_rebuild W s1 s2 ->
     connect_light_to_ldd_for_ng W light ldd ng s2
     = Raise (ValueError_already_connected light ldd ng) s2).
Proof.
  intros Hs%reachable_wf Heps Hnotin. split; [|split].
  - intros e s1. by apply connect_first_not_dup.
  - intros Hcon.
    destruct (connect_ok W light ldd ng s Hs Hcon Hnotin) as (s1 & Hs1 & _).
    eauto.
  - intros s1 s2 Hs1 Hsteps.
    assert (Hwf1 : wf W s1).
    { pose proof (connect_wf W light ldd ng s Hs) as H. by rewrite Hs1 in H. }
    assert (Hin1 : (light, ldd, ng) ∈ connections s1).
    { destruct (connect_returns W _ _ _ _ _ Heps Hs1)
        as (? & ? & ? & _ & _ & _ & _ & ->).
      simpl. apply elem_of_union. left. by apply elem_of_singleton. }
    destruct (without_rebuild_inv W s1 s2 Hsteps Hwf1) as [Hwf2 Hsub].
    apply connect_dup; [done| |by apply Hsub].
    by destruct (wf_cxns W s2 Hwf2 _ (Hsub _ Hin1)) as [_ Hsyn].
Qed.

(** Light 1 and device 5 in group 7, not connected in [one_connection]. *)
Lemma second_connect_raises_witness :
  (forall e s1,
     connect_light_to_ldd_for_ng two_lights 1 5 7 one_connection = Raise e s1 ->
     e <> ValueError_already_connected 1 5 7) /\
  (connectable two_lights one_connection (1, 5, 7)%nat ->
   exists s1,
     connect_light_to_ldd_for_ng two_lights 1 5 7 one_connection = Ok tt s1) /\
  (forall s1 s2,
     connect_light_to_ldd_for_ng two_lights 1 5 7 one_connection = Ok tt s1 ->
     reachable_without_rebuild two_lights s1 s2 ->
     connect_light_to_ldd_for_ng two_lights 1 5 7 s2
     = Raise (ValueError_already_connected 1 5 7) s2).
Proof.
  apply (second_connect_raises two_lights 1 5 7 one_connection).
  - unfold one_connection, run_calls. cbn [fold_left].
    do 4 apply reachable_call. apply reachable_new.
  - reflexivity.
  - apply (bool_decide_unpack _). vm_compute. exact I.
Defined.

(** C7. A connection at zero sensitivity returns at once and leaves the
    registry as it is: no triple is added, no structure is created. *)
Theorem zero_sensitivity_is_noop W light ldd ng s :
  ldd_epsilon W ldd (light_wavelength W light) == 0 ->
  connect_light_to_ldd_for_ng W light ldd ng s = Ok tt s.
Proof. intros H. apply connect_zero. by apply Qeq_bool_iff. Qed.

(** Device 9 is not sensitive to light 0. *)
Lemma zero_sensitivity_is_noop_witness :
  ldd_epsilon two_lights 9 (light_wavelength two_lights 0) == 0 /\
  connect_light_to_ldd_for_ng two_lights 0 9 7 one_connection
  = Ok tt one_connection.
Proof.
  split; [reflexivity|].
  apply (zero_sensitivity_is_noop two_lights 0 9 7 one_connection).
  reflexivity.
Defined.

Section Foutz12_claims.
Local Open Scope R_scope.

(** C8, as the code has it. For physical parameters the transmittance at
    the origin is defined, with no division by zero, and lies in (0, 1]; for
    a fixed axial offset at which the apparent radius is not zero it does
    not increase with the magnitude of the radial offset; ahead of the fiber
    tip it does not increase with the axial offset as long as the point
    stays in the core of the beam, [2 r^2 <= Rz^2], which contains the
    axis. *)
Theorem Foutz12_transmittance_monotone p :
  physical_params p ->
  (exists t, _Foutz12_transmittance p 0 0 true true true = Some t /\
             0 < t <= 1) /\
  (forall r1 r2 z,
     apparent_radius p z <> 0 -> Rabs r1 <= Rabs r2 ->
     exists t1 t2,
       _Foutz12_transmittance p r1 z true true true = Some t1 /\
       _Foutz12_transmittance p r2 z true true true = Some t2 /\
       t2 <= t1) /\
  (forall r z1 z2,
     0 <= z1 -> z1 <= z2 -> 2 * r ^ 2 <= apparent_radius p z1 ^ 2 ->
     exists t1 t2,
       _Foutz12_transmittance p r z1 true true true = Some t1 /\
       _Foutz12_transmittance p r z2 true true true = Some t2 /\
       t2 <= t1).
Proof.
  intros Hp. split; [|split].
  - exists (transmittance_value p 0 0). split.
    + apply Foutz12_defined; [done|].
      pose proof (apparent_radius_pos p 0 Hp ltac:(lra)). lra.
    + rewrite transmittance_value_origin by done. apply gaussian_peak_bounds.
  - intros r1 r2 z HRz Hr.
    exists (transmittance_value p r1 z), (transmittance_value p r2 z).
    rewrite !Foutz12_defined by done.
    split; [done|]. split; [done|]. by apply transmittance_value_radial.
  - intros r z1 z2 Hz1 Hz Hcore.
    pose proof (apparent_radius_pos p z1 Hp Hz1).
    pose proof (apparent_radius_pos p z2 Hp ltac:(lra)).
    exists (transmittance_value p r z1), (transmittance_value p r z2).
    rewrite !Foutz12_defined by (done || lra).
    split; [done|]. split; [done|]. by apply transmittance_value_axial.
Qed.

(** The parameters of [default_blue] are physical. *)
Lemma Foutz12_transmittance_monotone_witness :
  (exists t, _Foutz12_transmittance default_blue 0 0 true true true = Some t /\
             0 < t <= 1) /\
  (forall r1 r2 z,
     apparent_radius default_blue z <> 0 -> Rabs r1 <= Rabs r2 ->
     exists t1 t2,
       _Foutz12_transmittance default_blue r1 z true true true = Some t1 /\
       _Foutz12_transmittance default_blue r2 z true true true = Some t2 /\
       t2 <= t1) /\
  (forall r z1 z2,
     0 <= z1 -> z1 <= z2 ->
     2 * r ^ 2 <= apparent_radius default_blue z1 ^ 2 ->
     exists t1 t2,
       _Foutz12_transmittance default_blue r z1 true true true = Some t1 /\
       _Foutz12_transmittance default_blue r z2 true true true = Some t2 /\
       t2 <= t1).
Proof.
  apply (Foutz12_transmittance_monotone default_blue).
  unfold physical_params.
  cbv [default_blue param_R0 param_NAfib param_K param_S param_ntis].
  repeat (split; [lra|]). lra.
Defined.

(** C8, as stated, fails: with the parameters of [default_blue] and 0.6 mm
    off the axis, the transmittance 0.8 mm ahead of the tip is larger than
    in the plane of the tip. *)
Lemma axially_nonincreasing_fails : ~ axially_nonincreasing default_blue.
Proof.
  intros H. pose proof physical_default_blue as Hp.
  pose proof (apparent_radius_pos default_blue 0 Hp ltac:(lra)) as H0.
  pose proof (apparent_radius_pos default_blue 0.8e-3 Hp ltac:(lra)) as H1.
  specialize (H 0.6e-3 0 0.8e-3
    (transmittance_value default_blue 0.6e-3 0)
    (transmittance_value default_blue 0.6e-3 0.8e-3)).
  assert (Habs : Rabs 0 <= Rabs 0.8e-3) by (rewrite Rabs_R0; apply Rabs_pos).
  assert (N0 : apparent_radius default_blue 0 <> 0) by lra.
  assert (N1 : apparent_radius default_blue 0.8e-3 <> 0) by lra.
  specialize (H Habs (Foutz12_defined _ 0.6e-3 _ Hp N0)
                (Foutz12_defined _ 0.6e-3 _ Hp N1)).
  pose proof default_blue_off_axis. lra.
Qed.

End Foutz12_claims.

(** C9. A returning connection of nonzero sensitivity, for a light of
    positive scan frequency and a nonzero field of view, leaves on every
    synapse of the structure the scale [1 + max(0, dt/dwell - 1)], where
    [dwell] is the raster dwell time written on the synapse: [dt/dwell] when
    the step [dt] exceeds [dwell], and 1 otherwise. *)
Theorem scale_is_oversampling_correction W light ldd ng s s' i e :
  Qeq_bool (ldd_epsilon W ldd (light_wavelength W light)) 0 = false ->
  0 < light_scan_freq W light ->
  ~ raster_fov s == 0 ->
  connect_light_to_ldd_for_ng W light ldd ng s = Ok tt s' ->
  edges_of s' (ldd, ng) !! i = Some e ->
  let dt := defaultclock_dt W in
  let dwell := var_raster_dwell_time e in
  var_scale e == 1 + Qmax 0 (dt / dwell - 1) /\
  (dwell < dt -> var_scale e == dt / dwell) /\
  (dt <= dwell -> var_scale e == 1).
Proof.
  intros Heps Hfreq Hfov Hret Hi.
  destruct (connect_returns W _ _ _ _ _ Heps Hret)
    as (_ & sl & _ & _ & _ & Hsl & _ & _).
  pose proof (connect_written_edges W _ _ _ _ _ _ Heps Hret Hsl) as Hall.
  destruct (Forall2_lookup_r _ _ _ _ _ Hall Hi)
    as (e0 & _ & _ & _ & _ & _ & Hdwell & Hscale & _).
  cbv zeta. rewrite Hscale, Hdwell.
  apply oversampling_scale_spec. by apply dwell_time_pos.
Qed.

(** The first synapse of the structure after light 1 is connected: a step
    of 0.1 ms against a dwell time of 0.8 microseconds. *)
Lemma scale_is_oversampling_correction_witness :
  exists e,
    edges_of (state_of (connect_light_to_ldd_for_ng two_lights 1 5 7
                          one_connection)) (5, 7)%nat !! 0%nat = Some e /\
    var_scale e == 1 + Qmax 0 (1e-4 / var_raster_dwell_time e - 1) /\
    (var_raster_dwell_time e < 1e-4 ->
     var_scale e == 1e-4 / var_raster_dwell_time e) /\
    (1e-4 <= var_raster_dwell_time e -> var_scale e == 1).
Proof.
  eexists. split; [vm_compute; reflexivity|].
  apply (scale_is_oversampling_correction two_lights 1 5 7 one_connection
           (state_of (connect_light_to_ldd_for_ng two_lights 1 5 7
                        one_connection)) 0).
  - reflexivity.
  - reflexivity.
  - vm_compute. discriminate.
  - vm_compute. reflexivity.
  - vm_compute. reflexivity.
Defined.

(** The all-to-all connection of [n] sources to [m] targets has [n * m]
    synapses. *)
Lemma connect_all_length (n m : nat) :
  length (connect_all n m) = (n * m)%nat.
Proof.
  unfold connect_all. generalize 0%nat at 2. induction n as [|n IH]; intros k.
  - reflexivity.
  - cbn [seq flat_map]. rewrite length_app, length_map, length_seq, IH. lia.
Qed.

(** C10. Where the structure of [(ldd, ng)] does not exist yet, the device
    has an aggregator group of [n_tgt] neurons for [ng] and the light-source
    group [g] exists, [_get_or_create_light_prop_syn] returns and leaves a
    structure under [(ldd, ng)] with the all-to-all synapses of [g] on the
    aggregator, [N g * n_tgt] of them, each with a photon energy of 1 joule
    and a flux [Irr_post / Ephoton] that divides by it; and whenever the
    method returns for a missing structure, the synapses under the key have
    that energy.  In a reachable registry whose lights have nonzero
    wavelengths, the flux of every synapse of every structure divides by a
    nonzero energy; and on a synapse that lies in the slice of no light
    connected to the structure, the energy is still the initial joule. *)
Theorem photon_energy_never_zero W s :
  reachable W s ->
  (forall l, ~ light_wavelength W l == 0) ->
  (forall s0 ldd ng g n_tgt,
     light_prop_syns s0 !! (ldd, ng) = None ->
     ldd_light_agg_ngs W ldd ng = Some n_tgt ->
     light_source_ng s0 = Some g ->
     exists s1 syn,
       _get_or_create_light_prop_syn W ldd ng s0 = Ok (ldd, ng) s1 /\
       light_prop_syns s1 !! (ldd, ng) = Some syn /\
       shape (syn_edges syn) = shape (connect_all (N g) n_tgt) /\
       length (syn_edges syn) = (N g * n_tgt)%nat /\
       forall e, e ∈ syn_edges syn ->
         var_Ephoton e = 1 /\ forall Irr_post, is_Some (phi_post Irr_post e)) /\
  (forall s0 ldd ng h s1 e,
     light_prop_syns s0 !! (ldd, ng) = None ->
     _get_or_create_light_prop_syn W ldd ng s0 = Ok h s1 ->
     is_Some (light_prop_syns s1 !! (ldd, ng)) /\
     (e ∈ edges_of s1 (ldd, ng) -> var_Ephoton e = 1)) /\
  (forall k syn e,
     light_prop_syns s !! k = Some syn -> e ∈ syn_edges syn ->
     (forall Irr_post, is_Some (phi_post Irr_post e)) /\
     ((forall l sl,
         (l, k.1, k.2) ∈ connections s ->
         subgroup_idx_for_light s !! l = Some sl ->
         in_slice sl (pre_i e) = false) ->
      var_Ephoton e = 1)).
Proof.
  intros Hs Hwl. split; [|split].
  - intros s0 ldd ng g n_tgt Hnone Hagg Hsrc.
    pose proof (get_or_create_cases W ldd ng s0) as Hc.
    rewrite Hnone, Hagg, Hsrc in Hc.
    exists (created ldd ng g n_tgt s0). eexists. split; [exact Hc|].
    split; [unfold created; simpl; apply lookup_insert_eq|].
    cbn [syn_edges]. split; [by apply shape_set_all|].
    split.
    { unfold set_all. by rewrite length_map, connect_all_length. }
    unfold set_all. intros e (e0 & -> & _)%list_elem_of_fmap.
    split; [done|]. intros Irr_post. unfold phi_post. simpl. eauto.
  - intros s0 ldd ng h s1 e Hnone Hret.
    pose proof (get_or_create_cases W ldd ng s0) as Hc. rewrite Hnone in Hc.
    destruct (ldd_light_agg_ngs W ldd ng); [|congruence].
    destruct (light_source_ng s0); [|congruence].
    rewrite Hc in Hret. injection Hret as <- <-.
    unfold edges_of, created. simpl. rewrite lookup_insert_eq. simpl.
    split; [eauto|].
    unfold set_all. by intros (e0 & -> & _)%list_elem_of_fmap.
  - intros k syn e Hk He.
    pose proof (reachable_Ephoton W s Hs k syn e Hk He) as Hinv. split.
    + intros Irr_post. unfold phi_post.
      destruct Hinv as [H1|(l & sl & _ & _ & _ & HE)].
      * rewrite H1. simpl. eauto.
      * destruct (Qeq_bool (var_Ephoton e) 0) eqn:E; [|eauto].
        apply Qeq_bool_iff in E. rewrite HE in E.
        by apply photon_energy_nonzero in E.
    + intros Hout. destruct Hinv as [H1|(l & sl & Hl & Hsl & Hin & _)]; [done|].
      rewrite (Hout l sl Hl Hsl) in Hin. discriminate.
Qed.

(** In [one_connection] the structure of device 5 on group 7 has two
    synapses; the second one is on the source neuron of light 1, which is
    not connected to the structure: its energy is the initial joule and its
    flux is defined.  The structure itself is what the method creates from
    the registry where the two lights are registered and nothing is
    connected: two synapses for the two source neurons. *)
Lemma photon_energy_never_zero_witness :
  (exists syn e,
     light_prop_syns one_connection !! (5, 7)%nat = Some syn /\
     syn_edges syn !! 1%nat = Some e /\
     pre_i e = 1%nat /\
     ((1, 5, 7)%nat ∉ connections one_connection) /\
     var_Ephoton e = 1 /\
     forall Irr_post, is_Some (phi_post Irr_post e)) /\
  (exists g s1 syn,
     light_source_ng
       (run_calls two_lights
          [Call_init_register_light 0; Call_init_register_light 1]
          new_registry) = Some g /\
     N g = 2%nat /\
     _get_or_create_light_prop_syn two_lights 5 7
       (run_calls two_lights
          [Call_init_register_light 0; Call_init_register_light 1]
          new_registry) = Ok (5, 7)%nat s1 /\
     light_prop_syns s1 !! (5, 7)%nat = Some syn /\
     shape (syn_edges syn) = [(0, 0); (1, 0)]%nat /\
     forall e, e ∈ syn_edges syn ->
       var_Ephoton e = 1 /\ forall Irr_post, is_Some (phi_post Irr_post e)).
Proof.
  assert (Hcx : connections one_connection = {[(0, 5, 7)%nat]})
    by (vm_compute; reflexivity).
  assert (Hidx : subgroup_idx_for_light one_connection !! 0%nat = Some (Slice 0 1))
    by (vm_compute; reflexivity).
  destruct (photon_energy_never_zero two_lights one_connection)
    as (Hcreate & _ & Hreach).
  { unfold one_connection, run_calls. cbn [fold_left].
    do 4 apply reachable_call. apply reachable_new. }
  { intros l H. vm_compute in H. discriminate. }
  split.
  - eexists _, _. split; [vm_compute; reflexivity|].
    split; [reflexivity|]. split; [reflexivity|].
    split.
    { rewrite Hcx. intros H%elem_of_singleton. discriminate. }
    edestruct (Hreach (5, 7)%nat) as [Hphi HE].
    + vm_compute. reflexivity.
    + apply list_elem_of_lookup. exists 1%nat. reflexivity.
    + split; [|exact Hphi]. apply HE.
      intros l sl Hl Hsl. rewrite Hcx in Hl.
      apply elem_of_singleton in Hl. injection Hl as ->.
      rewrite Hidx in Hsl. injection Hsl as <-. reflexivity.
  - eexists.
    edestruct (Hcreate
                 (run_calls two_lights
                    [Call_init_register_light 0; Call_init_register_light 1]
                    new_registry) 5%nat 7%nat)
      as (s1 & syn & Hret & Hsyn & Hshape & _ & Hall).
    + vm_compute. reflexivity.
    + reflexivity.
    + vm_compute. reflexivity.
    + exists s1, syn. split; [vm_compute; reflexivity|].
      split; [vm_compute; reflexivity|].
      split; [exact Hret|]. split; [exact Hsyn|]. split; [exact Hshape|].
      exact Hall.
Defined.

(** * Further properties of the code *)

(** ** Induction over the calls *)

Section Calls.
Context (W : World).

Lemma for_each_cons {A} (body : A -> M unit) x xs s :
  for_each body (x :: xs) s =
  match body x s with
  | Ok _ s1 => for_each body xs s1
  | Raise e s1 => Raise e s1
  end.
Proof. reflexivity. Qed.


(** A property of the structures holds in every reachable registry once it
    holds in a new one and is kept by a connection, whatever its outcome,
    and by the tear-down that starts a rebuild. *)
Lemma reachable_ind_structures (P : Registry -> Prop) :
  P new_registry ->
  (forall s s', same_structures s s' -> P s -> P s') ->
  (forall light ldd ng s, wf W s -> P s ->
     P (state_of (connect_light_to_ldd_for_ng W light ldd ng s))) ->
  (forall light s, wf W s ->
     (0 < from_option N 0 (light_source_ng s) + light_n W light)%nat ->
     P s -> P (torn_down W light s)) ->
  forall s, reachable W s -> P s.
Proof.
  intros Hnew Hsame Hconnect Htorn s Hs.
  induction Hs as [|s c Hs IH]; [done|].
  pose proof (reachable_wf W s Hs) as Hwf.
  assert (Hloop : forall {A} (body : A -> M unit) xs s0,
    (forall x s, wf W s -> P s -> wf W (state_of (body x s)) /\ P (state_of (body x s))) ->
    wf W s0 -> P s0 -> P (state_of (for_each body xs s0))).
  { intros A body xs s0 Hbody Hwf0 HP0.
    apply (for_each_inv (fun s => wf W s /\ P s) body xs s0); [|done].
    intros x t [Ht1 Ht2]. by apply Hbody. }
  assert (Hldd : forall ldd ng, P (state_of (register_ldd W ldd ng s))).
  { intros ldd ng. unfold register_ldd. munfold. cbv beta.
    apply Hloop.
    - intros light t Ht HPt. split; [by apply connect_wf|by apply Hconnect].
    - eapply wf_same_core; [..|exact Hwf]; try done;
        simpl; by destruct (ldds_for_ng s !! ng).
    - eapply Hsame; [|exact IH].
      repeat split; simpl; by destruct (ldds_for_ng s !! ng). }
  assert (Hlight : forall light ng, P (state_of (register_light W light ng s))).
  { intros light ng. unfold register_light. munfold. cbv beta.
    apply Hloop.
    - intros ldd t Ht HPt. split; [by apply connect_wf|by apply Hconnect].
    - eapply wf_same_core; [..|exact Hwf]; try done;
        simpl; by destruct (lights_for_ng s !! ng).
    - eapply Hsame; [|exact IH].
      repeat split; simpl; by destruct (lights_for_ng s !! ng). }
  destruct c as [[]| | | | | |]; simpl; try done.
  - by apply Hconnect.
  - destruct (decide (0 < from_option N 0 (light_source_ng s)
                          + light_n W light)%nat) as [Hsize|Hnone].
    2:{ rewrite init_register_light_empty; [done| |lia].
        destruct (light_source_ng s) as [G|] eqn:HG; [|done].
        pose proof (wf_source_size W s Hwf G HG). simpl in Hnone. lia. }
    rewrite init_register_light_unfold by done.
    assert (Hreplay : P (state_of
      (for_each (fun c => connect_light_to_ldd_for_ng W c.1.1 c.1.2 c.2)
         (elements (connections s)) (torn_down W light s)))).
    { apply Hloop.
      - intros x t Ht HPt. split; [by apply connect_wf|by apply Hconnect].
      - by apply wf_torn_down.
      - by apply Htorn. }
    destruct (for_each _ _ _); [|done]. by destruct (decide _).
  - unfold update_fov. munfold. cbv beta. simpl.
    destruct (negb _); simpl; by eapply Hsame; [|exact IH].
  - unfold write_Irr0. munfold. simpl.
    destruct (light_source_ng s) as [G|] eqn:HG; [|done].
    destruct (_ =? _)%nat; [|done].
    eapply Hsame; [|exact IH]. repeat split; simpl; by rewrite ?HG.
Qed.

End Calls.

(** ** The Brian objects of the registry *)

Section Objects.
Context (W : World).

Lemma own_object_same s s' :
  ng_obj <$> light_source_ng s' = ng_obj <$> light_source_ng s ->
  syn_obj <$> light_prop_syns s' = syn_obj <$> light_prop_syns s ->
  forall o, own_object s o -> own_object s' o.
Proof.
  intros Hsrc Hsyn o [(g & Hg & Ho)|(k & syn & Hk & Ho)].
  - left. rewrite Hg in Hsrc. simpl in Hsrc.
    destruct (light_source_ng s') as [g'|] eqn:E; [|done].
    exists g'. split; [done|]. simpl in Hsrc. congruence.
  - right. assert (H : (syn_obj <$> light_prop_syns s') !! k = Some o).
    { rewrite Hsyn, lookup_fmap, Hk. simpl. by rewrite Ho. }
    rewrite lookup_fmap in H.
    destruct (light_prop_syns s' !! k) as [syn'|] eqn:E; simpl in H; [|done].
    exists k, syn'. split; [done|]. congruence.
Qed.

Lemma tracks_same s s' :
  ng_obj <$> light_source_ng s' = ng_obj <$> light_source_ng s ->
  syn_obj <$> light_prop_syns s' = syn_obj <$> light_prop_syns s ->
  brian_objects s' = brian_objects s ->
  sim_network s' = sim_network s ->
  tracks_own_objects s -> tracks_own_objects s'.
Proof.
  intros Hsrc Hsyn Hbo Hnet [Hown Heq]. split; [|congruence].
  intros o. rewrite Hbo, Hown.
  split; apply own_object_same; done.
Qed.

Lemma syn_obj_with_edges h f s :
  syn_obj <$> light_prop_syns (with_edges h f s) = syn_obj <$> light_prop_syns s.
Proof.
  unfold with_edges. simpl. apply map_eq. intros k.
  rewrite !lookup_fmap. destruct (decide (h = k)) as [->|Hne].
  - rewrite lookup_alter_eq. by destruct (light_prop_syns s !! k).
  - by rewrite lookup_alter_ne.
Qed.

Lemma tracks_created ldd ng g n_tgt s :
  light_prop_syns s !! (ldd, ng) = None ->
  tracks_own_objects s -> tracks_own_objects (created ldd ng g n_tgt s).
Proof.
  intros Hnone [Hown Heq]. split; [|simpl; by rewrite Heq].
  intros o. simpl. rewrite elem_of_union, elem_of_singleton, Hown.
  unfold own_object. simpl. split.
  - intros [->|[Hg|(k & syn & Hk & Ho)]].
    + right. eexists (ldd, ng), _. by rewrite lookup_insert_eq.
    + by left.
    + right. exists k, syn. split; [|done].
      rewrite lookup_insert_ne; [done|]. intros <-. congruence.
  - intros [Hg|(k & syn & Hk & Ho)]; [by right; left|].
    destruct (decide ((ldd, ng) = k)) as [<-|Hne].
    + rewrite lookup_insert_eq in Hk. injection Hk as <-. by left.
    + rewrite lookup_insert_ne in Hk by done. right. right. by exists k, syn.
Qed.

Lemma get_or_create_tracks ldd ng s :
  tracks_own_objects s ->
  tracks_own_objects (state_of (_get_or_create_light_prop_syn W ldd ng s)).
Proof.
  intros Hinv. pose proof (get_or_create_cases W ldd ng s) as Hc.
  destruct (light_prop_syns s !! (ldd, ng)) eqn:E1; [by rewrite Hc|].
  destruct (ldd_light_agg_ngs W ldd ng) eqn:E2; [|by rewrite Hc].
  destruct (light_source_ng s) eqn:E3; rewrite Hc; [|done].
  by apply tracks_created.
Qed.

Lemma connect_tracks light ldd ng s :
  tracks_own_objects s ->
  tracks_own_objects (state_of (connect_light_to_ldd_for_ng W light ldd ng s)).
Proof.
  intros Hinv.
  destruct (Qeq_bool (ldd_epsilon W ldd (light_wavelength W light)) 0) eqn:Heps.
  { by rewrite connect_zero. }
  rewrite connect_after_create by done.
  pose proof (get_or_create_tracks ldd ng s Hinv) as Hinv1.
  destruct (_get_or_create_light_prop_syn W ldd ng s) as [h s1|e s1]; [|done].
  simpl in Hinv1.
  destruct (decide _); [done|].
  destruct (subgroup_idx_for_light s1 !! light) as [sl|] eqn:Hidx; [|done].
  cbv zeta.
  destruct (assign_rows_array _ _ _ _) as [es'|] eqn:Hassign; simpl.
  - eapply tracks_same; [..|exact Hinv1]; try done.
    apply (syn_obj_with_edges h _ s1).
  - eapply tracks_same; [..|exact Hinv1]; try done.
    apply (syn_obj_with_edges h _ s1).
Qed.

Lemma tracks_torn_down light s :
  wf W s -> tracks_own_objects s -> tracks_own_objects (torn_down W light s).
Proof.
  intros Hwf [Hown Heq].
  assert (Hsyns : forall o,
    o ∈ (list_to_set (syn_obj <$> (map_to_list (light_prop_syns s)).*2) : gset ObjId) <->
    exists k syn, light_prop_syns s !! k = Some syn /\ syn_obj syn = o).
  { intros o. rewrite elem_of_list_to_set, list_elem_of_fmap. split.
    - intros (syn & -> & Hin). apply list_elem_of_fmap in Hin as ([k syn'] & -> & Hin).
      apply elem_of_map_to_list in Hin. by exists k, syn'.
    - intros (k & syn & Hk & <-). exists syn. split; [done|].
      apply list_elem_of_fmap. exists (k, syn). split; [done|].
      by apply elem_of_map_to_list. }
  assert (Hold : forall o,
    o ∈ (from_option (fun g => {[ng_obj g]}) ∅ (light_source_ng s) : gset ObjId) <->
    exists g, light_source_ng s = Some g /\ ng_obj g = o).
  { intros o. destruct (light_source_ng s) as [g|]; simpl.
    - rewrite elem_of_singleton. split; [intros ->; by exists g|].
      by intros (g' & [= <-] & <-).
    - split; [set_solver|]. by intros (g' & ? & _). }
  assert (Hfresh : ~ own_object s (next_obj s)).
  { intros Ho%Hown. apply (wf_fresh W s Hwf) in Ho. lia. }
  assert (Hobjs : forall o,
    o ∈ ({[next_obj s]} ∪ (brian_objects s ∖ from_option (fun g => {[ng_obj g]}) ∅
            (light_source_ng s))) ∖
        (list_to_set (syn_obj <$> (map_to_list (light_prop_syns s)).*2) : gset ObjId)
    <-> o = next_obj s).
  { intros o. rewrite elem_of_difference, elem_of_union, elem_of_difference,
      elem_of_singleton, Hsyns, Hold, Hown. unfold own_object in *. split.
    - intros [[->|[[Hg|Hk] Hng]] Hnk]; tauto.
    - intros ->. split; [by left|]. intros Hk. apply Hfresh. by right. }
  split.
  - intros o. simpl. rewrite Hobjs. unfold own_object. simpl. split.
    + intros ->. left. by eexists.
    + intros [(g & [= <-] & <-)|(k & syn & Hk & _)]; [done|].
      by rewrite lookup_empty in Hk.
  - simpl. apply set_eq. intros o. rewrite Hobjs. rewrite Heq. apply Hobjs.
Qed.

Lemma reachable_tracks s : reachable W s -> tracks_own_objects s.
Proof.
  apply (reachable_ind_structures W).
  - split; [|done]. intros o. simpl. split; [set_solver|].
    intros [(g & ? & _)|(k & syn & Hk & _)]; [done|].
    simpl in Hk. by rewrite lookup_empty in Hk.
  - intros t t' (_ & Hsrc & Hsyn & _ & Hbo & Hnet).
    apply tracks_same; try done. by rewrite Hsyn.
  - intros light ldd ng t _. apply connect_tracks.
  - intros light t Hwf _. by apply tracks_torn_down.
Qed.

End Objects.

Section MoreSupport.
Context (W : World).

Lemma init_register_light_connections light s :
  wf W s -> connections (state_of (init_register_light W light s)) = connections s.
Proof.
  intros Hwf.
  destruct (decide (0 < from_option N 0 (light_source_ng s)
                        + light_n W light)%nat) as [Hsize|Hnone].
  - by destruct (init_register_light_ok W light s Hwf Hsize) as (s' & -> & Hcx & _).
  - rewrite init_register_light_empty; [done| |lia].
    destruct (light_source_ng s) as [G|] eqn:HG; [|done].
    pose proof (wf_source_size W s Hwf G HG). simpl in Hnone. lia.
Qed.

Lemma call_connections_subseteq c s :
  wf W s -> connections s ⊆ connections (state_of (call W c s)).
Proof.
  intros Hwf. destruct (is_rebuild c) eqn:E.
  - destruct c; try done. simpl. by rewrite init_register_light_connections.
  - by apply call_connections_mono.
Qed.

End MoreSupport.

(** X1. In every reachable registry, [brian_objects] holds the light-source
    group and the coupling structures of the table, and nothing else: the
    group and the structures that a rebuild replaced are no longer tracked,
    and they are no longer in the network, which holds what the registry
    added to it and has not removed. *)
Theorem registry_tracks_its_objects W s :
  reachable W s ->
  (forall o, o ∈ brian_objects s <->
     (exists g, light_source_ng s = Some g /\ ng_obj g = o) \/
     (exists k syn, light_prop_syns s !! k = Some syn /\ syn_obj syn = o)) /\
  sim_network s = brian_objects s.
Proof. intros Hs. exact (reachable_tracks W s Hs). Qed.

(** The registry with one connection. *)
Lemma registry_tracks_its_objects_witness :
  (forall o, o ∈ brian_objects one_connection <->
     (exists g, light_source_ng one_connection = Some g /\ ng_obj g = o) \/
     (exists k syn, light_prop_syns one_connection !! k = Some syn /\
                    syn_obj syn = o)) /\
  sim_network one_connection = brian_objects one_connection.
Proof.
  apply (registry_tracks_its_objects two_lights one_connection).
  unfold one_connection, run_calls. cbn [fold_left].
  do 4 apply reachable_call. apply reachable_new.
Defined.

(** X2. In every reachable registry, [source_for_light] of a registered
    light with at least one element returns a subgroup of exactly [light.n]
    neurons and changes nothing; for a registered light with [light.n == 0]
    the slice is empty and the indexing raises [IndexError]; for a light
    that was never given to [init_register_light] the method raises
    [KeyError]. *)
Theorem source_for_light_has_light_n W s light :
  reachable W s ->
  match subgroup_idx_for_light s !! light with
  | Some sl =>
      if (light_n W light =? 0)%nat
      then stop sl = start sl /\
           source_for_light light s
           = Raise (IndexError_subgroup (start sl) (stop sl)) s
      else exists values, source_for_light light s = Ok values s /\
             length values = light_n W light
  | None =>
      source_for_light light s = Raise (KeyError_subgroup_idx_for_light light) s
  end.
Proof.
  intros Hwf%reachable_wf. unfold source_for_light. munfold. cbv beta zeta.
  destruct (subgroup_idx_for_light s !! light) as [sl|] eqn:Hsl; [|done].
  destruct (wf_slices W s Hwf light sl Hsl) as (G & -> & Hstop & Hle).
  rewrite (Nat.min_l (stop sl) (N G)) by lia.
  rewrite (Nat.min_l (start sl) (N G)) by lia.
  destruct (light_n W light =? 0)%nat eqn:Hn.
  - apply Nat.eqb_eq in Hn. split; [lia|].
    destruct (Nat.leb_spec (stop sl) (start sl)); [done|lia].
  - apply Nat.eqb_neq in Hn.
    destruct (Nat.leb_spec (stop sl) (start sl)); [lia|].
    eexists. split; [done|].
    rewrite length_take, length_drop. unfold N in Hle. lia.
Qed.

(** Light 1 in [one_connection], which has one element, and light 1 in
    [empty_light_registered], which has none. *)
Lemma source_for_light_has_light_n_witness :
  (exists values,
     source_for_light 1 one_connection = Ok values one_connection /\
     length values = 1%nat) /\
  source_for_light 1 empty_light_registered
  = Raise (IndexError_subgroup 1 1) empty_light_registered.
Proof.
  split.
  - apply (source_for_light_has_light_n two_lights one_connection 1).
    unfold one_connection, run_calls. cbn [fold_left].
    do 4 apply reachable_call. apply reachable_new.
  - apply (source_for_light_has_light_n one_empty_light
             empty_light_registered 1).
    unfold empty_light_registered, run_calls. cbn [fold_left].
    do 2 apply reachable_call. apply reachable_new.
Defined.

(** X3. From a reachable registry, no sequence of calls removes a connection:
    whatever is called afterwards, and whether the calls return or raise,
    the connections made so far are still in the connection set. *)
Theorem connections_never_shrink W s calls :
  reachable W s -> connections s ⊆ connections (run_calls W calls s).
Proof.
  revert s. induction calls as [|c calls IH]; intros s Hs; [done|].
  simpl. etrans; [|apply IH; by constructor].
  apply call_connections_subseteq. by apply reachable_wf.
Qed.

(** A rebuild, a second injection of device 5, which raises, and a new
    field of view, after [one_connection]. *)
Lemma connections_never_shrink_witness :
  connections one_connection ⊆
  connections (run_calls two_lights
                 [Call_init_register_light 2; Call_register_ldd 5 7;
                  Call_update_fov 100] one_connection).
Proof.
  apply (connections_never_shrink two_lights one_connection).
  unfold one_connection, run_calls. cbn [fold_left].
  do 4 apply reachable_call. apply reachable_new.
Defined.

(** X4. In a reachable registry [_remove_brian_object] does all or nothing:
    an object of [brian_objects] leaves both [brian_objects] and the
    network, and for any other object the call raises [KeyError] and both
    are as they were.  Removing an object right after adding it gives back
    the two sets when the object was in neither. *)
Theorem remove_brian_object_all_or_nothing W s obj :
  reachable W s ->
  (obj ∈ brian_objects s ->
   exists s', _remove_brian_object obj s = Ok tt s' /\
     brian_objects s' = brian_objects s ∖ {[obj]} /\
     sim_network s' = sim_network s ∖ {[obj]}) /\
  (obj ∉ brian_objects s ->
   _remove_brian_object obj s = Raise (KeyError_brian_objects obj) s /\
   exists s1 s2, _add_brian_object obj s = Ok tt s1 /\
     _remove_brian_object obj s1 = Ok tt s2 /\
     brian_objects s2 = brian_objects s /\ sim_network s2 = sim_network s).
Proof.
  intros Hs. pose proof (reachable_tracks W s Hs) as [_ Hnet].
  split.
  - intros Hin. rewrite remove_brian_object_ok; [|done|by rewrite Hnet].
    eexists. split; [done|]. done.
  - intros Hnin. split.
    + unfold _remove_brian_object. munfold. cbv beta.
      by rewrite decide_False.
    + assert (Hback : forall X : gset ObjId,
        obj ∉ X -> ({[obj]} ∪ X) ∖ {[obj]} = X).
      { intros X HX. apply set_eq. intros x.
        rewrite elem_of_difference, elem_of_union, elem_of_singleton.
        split; [tauto|]. intros Hx. split; [by right|]. by intros ->. }
      eexists _, _. split; [reflexivity|].
      split.
      * apply remove_brian_object_ok; simpl;
          apply elem_of_union; left; by apply elem_of_singleton.
      * simpl. rewrite Hnet. split; by apply Hback.
Qed.

(** The light-source group of [one_connection], which is object 0. *)
Lemma remove_brian_object_all_or_nothing_witness :
  (0%nat ∈ brian_objects one_connection ->
   exists s', _remove_brian_object 0 one_connection = Ok tt s' /\
     brian_objects s' = brian_objects one_connection ∖ {[0%nat]} /\
     sim_network s' = sim_network one_connection ∖ {[0%nat]}) /\
  (0%nat ∉ brian_objects one_connection ->
   _remove_brian_object 0 one_connection
   = Raise (KeyError_brian_objects 0) one_connection /\
   exists s1 s2, _add_brian_object 0 one_connection = Ok tt s1 /\
     _remove_brian_object 0 s1 = Ok tt s2 /\
     brian_objects s2 = brian_objects one_connection /\
     sim_network s2 = sim_network one_connection).
Proof.
  apply (remove_brian_object_all_or_nothing two_lights one_connection 0).
  unfold one_connection, run_calls. cbn [fold_left].
  do 4 apply reachable_call. apply reachable_new.
Defined.

(** ** What the synapses carry *)

Section Carried.
Context (W : World).

(** The synapses after the writes of a connection. *)
Lemma elem_of_write_raster s light sl e es :
  e ∈ write_raster W s light sl es ->
  var_scan_period e = 1 / light_scan_freq W light /\
  var_raster_dwell_time e = dwell_time (raster_fov s) (light_scan_freq W light) /\
  var_scale e = oversampling_scale (defaultclock_dt W)
                  (dwell_time (raster_fov s) (light_scan_freq W light)) /\
  var_raster_enable e = raster_enable s.
Proof.
  unfold write_raster, set_rows, set_all. rewrite !map_map.
  intros (e0 & -> & _)%list_elem_of_fmap.
  by destruct (in_slice sl _).
Qed.

(** The outcomes of a connection with a nonzero sensitivity, as states
    built from the one that [_get_or_create_light_prop_syn] leaves. *)
Lemma connect_outcomes light ldd ng s :
  Qeq_bool (ldd_epsilon W ldd (light_wavelength W light)) 0 = false ->
  let s1 := state_of (_get_or_create_light_prop_syn W ldd ng s) in
  let s' := state_of (connect_light_to_ldd_for_ng W light ldd ng s) in
  s' = s1 \/
  (exists sl,
     subgroup_idx_for_light s1 !! light = Some sl /\
     s' = with_edges (ldd, ng)
            (set_rows sl (set_epsilon (ldd_epsilon W ldd (light_wavelength W light))))
            s1) \/
  (exists sl es',
     subgroup_idx_for_light s1 !! light = Some sl /\
     is_Some (light_prop_syns s1 !! (ldd, ng)) /\
     assign_rows_array sl set_T (light_transmittance W light ng)
       (set_rows sl (set_epsilon (ldd_epsilon W ldd (light_wavelength W light)))
          (edges_of s1 (ldd, ng))) = Some es' /\
     s' = with_connections ({[(light, ldd, ng)]} ∪ connections s1)
            (with_edges (ldd, ng) (fun _ => write_raster W s1 light sl es') s1)).
Proof.
  intros Heps. cbv zeta. rewrite connect_after_create by done.
  pose proof (get_or_create_returns W ldd ng s) as Hret.
  destruct (_get_or_create_light_prop_syn W ldd ng s) as [h s1|e s1]; [|by left].
  destruct (Hret h s1 eq_refl) as (-> & Hsyn & _). clear Hret. simpl.
  destruct (decide _); [by left|].
  destruct (subgroup_idx_for_light s1 !! light) as [sl|] eqn:Hidx; [|by left].
  cbv zeta. rewrite edges_of_with_edges by done.
  destruct (assign_rows_array _ _ _ _) as [es'|] eqn:Hassign; simpl.
  - right. right. by exists sl, es'.
  - right. left. by exists sl.
Qed.

(** *** Only connected lights are transmitted *)

Lemma transmits_step s s' :
  subgroup_idx_for_light s' = subgroup_idx_for_light s ->
  connections s ⊆ connections s' ->
  (forall k syn' e',
     light_prop_syns s' !! k = Some syn' -> e' ∈ syn_edges syn' ->
     var_T e' = 0 \/
     (exists l sl,
        (l, k.1, k.2) ∈ connections s' /\
        subgroup_idx_for_light s' !! l = Some sl /\
        in_slice sl (pre_i e') = true) \/
     (exists syn e,
        light_prop_syns s !! k = Some syn /\ e ∈ syn_edges syn /\
        pre_i e' = pre_i e /\ var_T e' = var_T e)) ->
  transmits_when_connected s -> transmits_when_connected s'.
Proof.
  intros Hidx Hcx Hstep Hinv k syn' e' Hk He'.
  destruct (Hstep k syn' e' Hk He') as [H1|[H2|(syn & e & Hsyn & He & Hpre & HT)]];
    [by left|by right|].
  destruct (Hinv k syn e Hsyn He) as [H1|(l & sl & Hl & Hsl & Hin)].
  - left. congruence.
  - right. exists l, sl. rewrite Hidx, Hpre. auto.
Qed.

Lemma get_or_create_transmits ldd ng s :
  transmits_when_connected s ->
  transmits_when_connected (state_of (_get_or_create_light_prop_syn W ldd ng s)).
Proof.
  intros Hinv. pose proof (get_or_create_cases W ldd ng s) as Hc.
  destruct (light_prop_syns s !! (ldd, ng)) eqn:E1; [by rewrite Hc|].
  destruct (ldd_light_agg_ngs W ldd ng) eqn:E2; [|by rewrite Hc].
  destruct (light_source_ng s) eqn:E3; rewrite Hc; [|done].
  revert Hinv. apply transmits_step; [done|done|].
  intros k syn' e'. unfold created. simpl.
  destruct (decide ((ldd, ng) = k)) as [<-|Hne].
  - rewrite lookup_insert_eq. intros [= <-]. simpl.
    unfold set_all, connect_all.
    intros (e & -> & (i & _ & He)%list_elem_of_In%in_flat_map)%list_elem_of_fmap.
    apply in_map_iff in He as (j & <- & _). by left.
  - rewrite lookup_insert_ne by done. intros Hk He'.
    right. right. by exists syn', e'.
Qed.

Lemma connect_transmits light ldd ng s :
  transmits_when_connected s ->
  transmits_when_connected
    (state_of (connect_light_to_ldd_for_ng W light ldd ng s)).
Proof.
  intros Hinv.
  destruct (Qeq_bool (ldd_epsilon W ldd (light_wavelength W light)) 0) eqn:Heps.
  { by rewrite connect_zero. }
  pose proof (get_or_create_transmits ldd ng s Hinv) as Hinv1.
  pose proof (connect_outcomes light ldd ng s Heps) as Hout. cbv zeta in Hout.
  set (s1 := state_of (_get_or_create_light_prop_syn W ldd ng s)) in *.
  destruct Hout
    as [->|[(sl & Hidx & ->)|(sl & es' & Hidx & Hsyn & Hassign & ->)]]; [done|..].
  - revert Hinv1. apply transmits_step; [done|done|].
    intros k syn' e' Hk He'.
    apply lookup_with_edges in Hk as [(-> & syn & Hs & Hes)|[Hne Hk]].
    + rewrite Hes in He'. apply elem_of_set_rows in He' as (e0 & He0 & [->| ->]);
        right; right; by exists syn, e0.
    + right. right. by exists syn', e'.
  - revert Hinv1. apply transmits_step; [done|apply union_subseteq_r|].
    intros k syn' e' Hk He'.
    change (light_prop_syns
              (with_edges (ldd, ng) (fun _ => write_raster W s1 light sl es') s1)
              !! k = Some syn') in Hk.
    apply lookup_with_edges in Hk as [(-> & syn & Hs & Hes)|[Hne Hk]].
    + rewrite Hes in He'.
      pose proof (assign_written W s1 light ldd sl _ _ _ Hassign) as Hall.
      apply list_elem_of_lookup in He' as [i Hi].
      destruct (Forall2_lookup_r _ _ _ _ _ Hall Hi) as (e0 & Hi0 & Hw).
      destruct Hw as (Hix & Hout & Hin & _).
      assert (Hpre : pre_i e' = pre_i e0) by (by injection Hix).
      assert (He0 : e0 ∈ syn_edges syn).
      { apply list_elem_of_lookup. exists i. unfold edges_of in Hi0.
        by rewrite Hs in Hi0. }
      destruct (in_slice sl (pre_i e0)) eqn:E.
      * right. left. exists light, sl. simpl. rewrite Hpre, E.
        split; [apply elem_of_union; left; by apply elem_of_singleton|].
        done.
      * right. right. exists syn, e0. split; [done|]. split; [done|].
        split; [done|]. by apply Hout.
    + right. right. by exists syn', e'.
Qed.

Lemma reachable_transmits s : reachable W s -> transmits_when_connected s.
Proof.
  apply (reachable_ind_structures W).
  - intros k syn e Hk. simpl in Hk. by rewrite lookup_empty in Hk.
  - intros t t' (Hidx & _ & Hsyn & Hcx & _).
    apply transmits_step; [done|by rewrite Hcx|].
    intros k syn' e' Hk He'. right. right. exists syn', e'. by rewrite <- Hsyn.
  - intros light ldd ng t _. apply connect_transmits.
  - intros light t _ _ _ k syn e Hk. simpl in Hk. by rewrite lookup_empty in Hk.
Qed.

End Carried.

Section Raster.
Context (W : World).

(** *** One raster scan per structure *)

Lemma get_or_create_one_raster ldd ng s :
  one_raster_per_structure s ->
  one_raster_per_structure (state_of (_get_or_create_light_prop_syn W ldd ng s)).
Proof.
  intros Hinv. pose proof (get_or_create_cases W ldd ng s) as Hc.
  destruct (light_prop_syns s !! (ldd, ng)) eqn:E1; [by rewrite Hc|].
  destruct (ldd_light_agg_ngs W ldd ng) eqn:E2; [|by rewrite Hc].
  destruct (light_source_ng s) eqn:E3; rewrite Hc; [|done].
  intros k syn' e1 e2. unfold created. simpl.
  destruct (decide ((ldd, ng) = k)) as [<-|Hne].
  - rewrite lookup_insert_eq. intros [= <-]. simpl.
    unfold set_all, connect_all.
    intros (a1 & -> & (i1 & _ & H1)%list_elem_of_In%in_flat_map)%list_elem_of_fmap.
    intros (a2 & -> & (i2 & _ & H2)%list_elem_of_In%in_flat_map)%list_elem_of_fmap.
    apply in_map_iff in H1 as (j1 & <- & _).
    apply in_map_iff in H2 as (j2 & <- & _). by repeat split.
  - rewrite lookup_insert_ne by done. apply Hinv.
Qed.

Lemma connect_one_raster light ldd ng s :
  one_raster_per_structure s ->
  one_raster_per_structure
    (state_of (connect_light_to_ldd_for_ng W light ldd ng s)).
Proof.
  intros Hinv.
  destruct (Qeq_bool (ldd_epsilon W ldd (light_wavelength W light)) 0) eqn:Heps.
  { by rewrite connect_zero. }
  pose proof (get_or_create_one_raster ldd ng s Hinv) as Hinv1.
  pose proof (connect_outcomes W light ldd ng s Heps) as Hout. cbv zeta in Hout.
  set (s1 := state_of (_get_or_create_light_prop_syn W ldd ng s)) in *.
  destruct Hout
    as [->|[(sl & Hidx & ->)|(sl & es' & Hidx & Hsyn & Hassign & ->)]]; [done|..].
  - intros k syn' e1 e2 Hk H1 H2.
    apply lookup_with_edges in Hk as [(-> & syn & Hs & Hes)|[Hne Hk]];
      [|by eapply Hinv1].
    rewrite Hes in H1, H2.
    apply elem_of_set_rows in H1 as (a1 & Ha1 & Hb1).
    apply elem_of_set_rows in H2 as (a2 & Ha2 & Hb2).
    pose proof (Hinv1 _ _ _ _ Hs Ha1 Ha2) as (? & ? & ? & ?).
    destruct Hb1 as [->| ->], Hb2 as [->| ->]; by repeat split.
  - intros k syn' e1 e2 Hk H1 H2.
    change (light_prop_syns
              (with_edges (ldd, ng) (fun _ => write_raster W s1 light sl es') s1)
              !! k = Some syn') in Hk.
    apply lookup_with_edges in Hk as [(-> & syn & Hs & Hes)|[Hne Hk]];
      [|by eapply Hinv1].
    rewrite Hes in H1, H2.
    apply elem_of_write_raster in H1 as (A1 & B1 & C1 & D1).
    apply elem_of_write_raster in H2 as (A2 & B2 & C2 & D2).
    unfold same_raster. by rewrite A1, A2, B1, B2, C1, C2, D1, D2.
Qed.

Lemma reachable_one_raster s : reachable W s -> one_raster_per_structure s.
Proof.
  apply (reachable_ind_structures W).
  - intros k syn e1 e2 Hk. simpl in Hk. by rewrite lookup_empty in Hk.
  - intros t t' (_ & _ & Hsyn & _) Hinv k syn e1 e2 Hk.
    rewrite Hsyn in Hk. by eapply Hinv.
  - intros light ldd ng t _. apply connect_one_raster.
  - intros light t _ _ _ k syn e1 e2 Hk. simpl in Hk. by rewrite lookup_empty in Hk.
Qed.

(** *** The raster settings after a rebuild *)



End Raster.

(** X5. In every reachable registry, a synapse whose source neuron lies in
    the slice of no light connected to its structure has a transmittance of
    zero: whatever its source emits, the irradiance
    [Irr_norm = epsilon * T * Irr0_pre] that it passes on is zero. *)
Theorem unconnected_sources_are_dark W s k syn e :
  reachable W s ->
  light_prop_syns s !! k = Some syn -> e ∈ syn_edges syn ->
  (forall l sl,
     (l, k.1, k.2) ∈ connections s ->
     subgroup_idx_for_light s !! l = Some sl ->
     in_slice sl (pre_i e) = false) ->
  var_T e = 0 /\ forall Irr0_pre, Irr_norm Irr0_pre e == 0.
Proof.
  intros Hs Hk He Hout.
  assert (HT : var_T e = 0).
  { destruct (reachable_transmits W s Hs k syn e Hk He)
      as [H|(l & sl & Hl & Hsl & Hin)]; [done|].
    rewrite (Hout l sl Hl Hsl) in Hin. discriminate. }
  split; [done|]. intros Irr0_pre. unfold Irr_norm. rewrite HT. ring.
Qed.

(** The synapse of light 1 in [one_connection], where light 0 alone is
    connected. *)
Lemma unconnected_sources_are_dark_witness :
  exists syn e,
    light_prop_syns one_connection !! (5, 7)%nat = Some syn /\
    syn_edges syn !! 1%nat = Some e /\
    var_T e = 0 /\ forall Irr0_pre, Irr_norm Irr0_pre e == 0.
Proof.
  assert (Hcx : connections one_connection = {[(0, 5, 7)%nat]})
    by (vm_compute; reflexivity).
  assert (Hidx : subgroup_idx_for_light one_connection !! 0%nat = Some (Slice 0 1))
    by (vm_compute; reflexivity).
  eexists _, _. split; [vm_compute; reflexivity|]. split; [reflexivity|].
  eapply (unconnected_sources_are_dark two_lights one_connection (5, 7)%nat).
  - unfold one_connection, run_calls. cbn [fold_left].
    do 4 apply reachable_call. apply reachable_new.
  - vm_compute. reflexivity.
  - apply list_elem_of_lookup. exists 1%nat. reflexivity.
  - intros l sl Hl Hsl. rewrite Hcx in Hl.
    apply elem_of_singleton in Hl. injection Hl as ->.
    rewrite Hidx in Hsl. injection Hsl as <-. reflexivity.
Defined.

(** X6. In every reachable registry, all synapses of one coupling structure
    have the same scan period, raster dwell time, scale and raster-enable
    flag, whichever lights their source neurons belong to: a structure has
    one raster scan. *)
Theorem one_raster_scan_per_structure W s k syn e1 e2 :
  reachable W s ->
  light_prop_syns s !! k = Some syn ->
  e1 ∈ syn_edges syn -> e2 ∈ syn_edges syn ->
  var_scan_period e1 = var_scan_period e2 /\
  var_raster_dwell_time e1 = var_raster_dwell_time e2 /\
  var_scale e1 = var_scale e2 /\
  var_raster_enable e1 = var_raster_enable e2.
Proof.
  intros Hs Hk H1 H2. exact (reachable_one_raster W s Hs k syn e1 e2 Hk H1 H2).
Qed.

(** The synapses of the two lights of [two_connections], which scan at
    1000 Hz and 2000 Hz. *)
Lemma one_raster_scan_per_structure_witness :
  exists syn e1 e2,
    light_prop_syns two_connections !! (5, 7)%nat = Some syn /\
    syn_edges syn !! 0%nat = Some e1 /\ syn_edges syn !! 1%nat = Some e2 /\
    var_scan_period e1 = var_scan_period e2 /\
    var_raster_dwell_time e1 = var_raster_dwell_time e2 /\
    var_scale e1 = var_scale e2 /\
    var_raster_enable e1 = var_raster_enable e2.
Proof.
  eexists _, _, _. split; [vm_compute; reflexivity|].
  split; [reflexivity|]. split; [reflexivity|].
  eapply (one_raster_scan_per_structure two_lights two_connections (5, 7)%nat).
  - unfold two_connections, one_connection, run_calls. cbn [fold_left].
    do 5 apply reachable_call. apply reachable_new.
  - vm_compute. reflexivity.
  - apply list_elem_of_lookup. exists 0%nat. reflexivity.
  - apply list_elem_of_lookup. exists 1%nat. reflexivity.
Defined.



(** X8. A connection that fails is not undone.  When the light has no slice
    and the structure of [(ldd, ng)] does not exist yet, the structure is
    created, added to the table and to the network, and then the lookup of
    the slice raises [KeyError]: the connection set is as before, and the
    structure that stays behind has the initial photon energy and no
    sensitivity or transmittance on any synapse. *)
Theorem failed_connect_leaves_structure W s light ldd ng g m :
  Qeq_bool (ldd_epsilon W ldd (light_wavelength W light)) 0 = false ->
  light_prop_syns s !! (ldd, ng) = None ->
  ldd_light_agg_ngs W ldd ng = Some m ->
  light_source_ng s = Some g ->
  subgroup_idx_for_light s !! light = None ->
  (light, ldd, ng) ∉ connections s ->
  exists s' syn,
    connect_light_to_ldd_for_ng W light ldd ng s
    = Raise (KeyError_subgroup_idx_for_light light) s' /\
    connections s' = connections s /\
    light_prop_syns s' = <[(ldd, ng) := syn]> (light_prop_syns s) /\
    syn_obj syn ∈ brian_objects s' /\ syn_obj syn ∈ sim_network s' /\
    shape (syn_edges syn) = shape (connect_all (N g) m) /\
    forall e, e ∈ syn_edges syn ->
      var_epsilon e = 0 /\ var_T e = 0 /\ var_Ephoton e = 1.
Proof.
  intros Heps Hnone Hm Hg Hidx Hcx.
  rewrite connect_after_create by done.
  pose proof (get_or_create_cases W ldd ng s) as Hc.
  rewrite Hnone, Hm, Hg in Hc. rewrite Hc.
  rewrite decide_False by done.
  change (subgroup_idx_for_light (created ldd ng g m s))
    with (subgroup_idx_for_light s). rewrite Hidx.
  eexists _, _. split; [reflexivity|]. split; [reflexivity|].
  split; [reflexivity|]. simpl.
  split; [apply elem_of_union; left; by apply elem_of_singleton|].
  split; [apply elem_of_union; left; by apply elem_of_singleton|].
  split; [by apply shape_set_all|].
  unfold set_all, connect_all.
  intros e (a & -> & (i & _ & Ha)%list_elem_of_In%in_flat_map)%list_elem_of_fmap.
  apply in_map_iff in Ha as (j & <- & _). done.
Qed.

(** Light 1 connected in a registry that has a group for light 0 alone. *)
Lemma failed_connect_leaves_structure_witness :
  exists s' syn,
    connect_light_to_ldd_for_ng two_lights 1 5 7 one_light
    = Raise (KeyError_subgroup_idx_for_light 1) s' /\
    connections s' = connections one_light /\
    light_prop_syns s' = <[(5, 7)%nat := syn]> (light_prop_syns one_light) /\
    syn_obj syn ∈ brian_objects s' /\ syn_obj syn ∈ sim_network s' /\
    shape (syn_edges syn) = shape (connect_all 1 1) /\
    forall e, e ∈ syn_edges syn ->
      var_epsilon e = 0 /\ var_T e = 0 /\ var_Ephoton e = 1.
Proof.
  apply (failed_connect_leaves_structure two_lights one_light 1 5 7
           {| ng_obj := 0; Irr0 := [0] |} 1).
  - reflexivity.
  - vm_compute. reflexivity.
  - reflexivity.
  - vm_compute. reflexivity.
  - vm_compute. reflexivity.
  - assert (connections one_light = ∅) as -> by (vm_compute; reflexivity).
    apply not_elem_of_empty.
Defined.

(** ** Injections *)

Section Injections.
Context (W : World).

Lemma connect_ok_connections light ldd ng s s' :
  connect_light_to_ldd_for_ng W light ldd ng s = Ok tt s' ->
  same_setup s s' /\
  forall c, c ∈ connections s' <->
    c ∈ connections s \/
    (c = (light, ldd, ng) /\
     Qeq_bool (ldd_epsilon W ldd (light_wavelength W light)) 0 = false).
Proof.
  intros Hok. split.
  { pose proof (connect_frame W light ldd ng s) as [H _]. by rewrite Hok in H. }
  destruct (Qeq_bool (ldd_epsilon W ldd (light_wavelength W light)) 0) eqn:Heps.
  - rewrite connect_zero in Hok by done. injection Hok as <-.
    intros c. split; [by left|]. by intros [?|[_ ?]].
  - destruct (connect_returns W light ldd ng s s' Heps Hok)
      as (s1 & sl & es' & _ & _ & _ & _ & ->).
    intros c. simpl. rewrite elem_of_union, elem_of_singleton.
    split; [intros [->|?]; auto|]. intros [?|[-> _]]; auto.
Qed.

(** A returning loop of connections adds the triples of nonzero
    sensitivity, and nothing else. *)
Lemma connect_loop_ok {A} (t : A -> Light * LightDependent * NeuronGroupId)
    xs s s' :
  for_each (fun x => connect_light_to_ldd_for_ng W (t x).1.1 (t x).1.2 (t x).2)
    xs s = Ok tt s' ->
  same_setup s s' /\
  forall c, c ∈ connections s' <->
    c ∈ connections s \/
    exists x, x ∈ xs /\ c = t x /\
      Qeq_bool (ldd_epsilon W (t x).1.2 (light_wavelength W (t x).1.1)) 0 = false.
Proof.
  revert s. induction xs as [|x xs IH]; intros s.
  - intros [= <-]. split; [apply same_setup_refl|].
    intros c. split; [by left|]. intros [?|(x & Hx & _)]; [done|].
    by apply elem_of_nil in Hx.
  - rewrite for_each_cons.
    destruct (connect_light_to_ldd_for_ng _ _ _ _ s) as [[] s1|e s1] eqn:E; [|done].
    intros Hloop. destruct (IH s1 Hloop) as [Hsame Hcx].
    destruct (connect_ok_connections _ _ _ _ _ E) as [Hsame1 Hcx1].
    split; [by eapply same_setup_trans|].
    intros c. rewrite Hcx, Hcx1. split.
    + intros [[?|[-> Heps]]|(y & Hy & -> & Heps)]; [by left|right..].
      * exists x. split; [by left|]. by destruct (t x) as [[] ?].
      * exists y. split; [by right|done].
    + intros [?|(y & Hy & -> & Heps)]; [by left; left|].
      apply elem_of_cons in Hy as [->|Hy].
      * left. right. by destruct (t x) as [[] ?].
      * right. by exists y.
Qed.

(** A loop of connections that are all made already raises at the first
    one of nonzero sensitivity, in the state it started from. *)
Lemma connect_loop_dup {A} (t : A -> Light * LightDependent * NeuronGroupId)
    xs s :
  (forall x, x ∈ xs ->
     Qeq_bool (ldd_epsilon W (t x).1.2 (light_wavelength W (t x).1.1)) 0 = false ->
     t x ∈ connections s /\ is_Some (light_prop_syns s !! ((t x).1.2, (t x).2))) ->
  (exists x, x ∈ xs /\
     Qeq_bool (ldd_epsilon W (t x).1.2 (light_wavelength W (t x).1.1)) 0 = false) ->
  exists x, x ∈ xs /\
    for_each (fun x => connect_light_to_ldd_for_ng W (t x).1.1 (t x).1.2 (t x).2)
      xs s
    = Raise (ValueError_already_connected (t x).1.1 (t x).1.2 (t x).2) s.
Proof.
  induction xs as [|x xs IH]; intros Hall (y & Hy & Heps).
  { by apply elem_of_nil in Hy. }
  rewrite for_each_cons.
  destruct (Qeq_bool (ldd_epsilon W (t x).1.2 (light_wavelength W (t x).1.1)) 0)
    eqn:Hx.
  - rewrite connect_zero by done.
    destruct IH as (z & Hz & Hloop).
    + intros z Hz. apply Hall. by right.
    + apply elem_of_cons in Hy as [->|Hy]; [congruence|]. by exists y.
    + exists z. split; [by right|done].
  - exists x. split; [by left|].
    destruct (Hall x ltac:(by left) Hx) as [Hin Hsyn].
    by rewrite connect_dup.
Qed.

Lemma by_injections_reachable s : reachable_by_injections W s -> reachable W s.
Proof.
  induction 1 as [|s c s' _ IH _ Hcall]; [constructor|].
  replace s' with (state_of (call W c s)) by (by rewrite Hcall).
  by constructor.
Qed.

Lemma with_ldds_for_ng_same s : with_ldds_for_ng (ldds_for_ng s) s = s.
Proof. by destruct s. Qed.

Lemma with_lights_for_ng_same s : with_lights_for_ng (lights_for_ng s) s = s.
Proof. by destruct s. Qed.

(** The membership update of [register_ldd] and [register_light]. *)
Lemma lookup_membership {B} `{Countable B} (x : B) ng g
    (m : gmap NeuronGroupId (gset B)) :
  alter (fun xs => {[x]} ∪ xs) ng
    (match m !! ng with None => <[ng := ∅]> m | Some _ => m end) !! g
  = if decide (g = ng) then Some ({[x]} ∪ default ∅ (m !! ng)) else m !! g.
Proof.
  destruct (decide (g = ng)) as [->|Hne].
  - rewrite lookup_alter_eq. destruct (m !! ng) as [xs|] eqn:E.
    + by rewrite E.
    + by rewrite lookup_insert_eq.
  - rewrite lookup_alter_ne by done. destruct (m !! ng) as [xs|] eqn:E; [done|].
    by rewrite lookup_insert_ne.
Qed.

Lemma membership_again {B} `{Countable B} (x : B) ng xs
    (m : gmap NeuronGroupId (gset B)) :
  m !! ng = Some xs -> x ∈ xs ->
  alter (fun xs => {[x]} ∪ xs) ng
    (match m !! ng with None => <[ng := ∅]> m | Some _ => m end) = m.
Proof.
  intros Hm Hx. apply map_eq. intros g. rewrite lookup_membership.
  destruct (decide (g = ng)) as [->|Hne]; [|done].
  rewrite Hm. simpl. f_equal. apply set_eq. intros y.
  rewrite elem_of_union, elem_of_singleton. split; [intros [->|?]; done|auto].
Qed.

Lemma register_ldd_ok ldd ng s s' :
  register_ldd W ldd ng s = Ok tt s' ->
  lights_for_ng s' = lights_for_ng s /\
  (forall d g, ldd_injected s' d g <-> ldd_injected s d g \/ (d = ldd /\ g = ng)) /\
  forall c, c ∈ connections s' <->
    c ∈ connections s \/
    exists light, light_injected s light ng /\ c = (light, ldd, ng) /\
      Qeq_bool (ldd_epsilon W ldd (light_wavelength W light)) 0 = false.
Proof.
  unfold register_ldd. munfold. cbv beta. intros Hloop.
  apply (connect_loop_ok (fun light => (light, ldd, ng))) in Hloop
    as [(_ & _ & Hldds & Hlights & _) Hcx].
  simpl in Hldds, Hlights. split; [by destruct (ldds_for_ng s !! ng)|].
  split.
  - intros d g. unfold ldd_injected. rewrite Hldds.
    replace (ldds_for_ng
               match ldds_for_ng s !! ng with
               | Some _ => s
               | None => with_ldds_for_ng (<[ng:=∅]> (ldds_for_ng s)) s
               end)
      with (match ldds_for_ng s !! ng with
            | None => <[ng := ∅]> (ldds_for_ng s)
            | Some _ => ldds_for_ng s
            end) by (by destruct (ldds_for_ng s !! ng)).
    rewrite lookup_membership. destruct (decide (g = ng)) as [->|Hne].
    + split.
      * intros (ds & [= <-] & Hd). apply elem_of_union in Hd as [->%elem_of_singleton|Hd];
          [by right|]. left. destruct (ldds_for_ng s !! ng) as [ds|]; [by exists ds|].
        by apply elem_of_empty in Hd.
      * intros [(ds & -> & Hd)|[-> _]]; eexists; (split; [done|]);
          apply elem_of_union; [by right|left; by apply elem_of_singleton].
    + split; [by left|]. by intros [?|[_ ?]].
  - intros c. rewrite Hcx. simpl.
    replace (connections
               match ldds_for_ng s !! ng with
               | Some _ => s
               | None => with_ldds_for_ng (<[ng:=∅]> (ldds_for_ng s)) s
               end) with (connections s) by (by destruct (ldds_for_ng s !! ng)).
    replace (lights_for_ng
               match ldds_for_ng s !! ng with
               | Some _ => s
               | None => with_ldds_for_ng (<[ng:=∅]> (ldds_for_ng s)) s
               end) with (lights_for_ng s) by (by destruct (ldds_for_ng s !! ng)).
    unfold light_injected. split.
    + intros [?|(l & Hl%elem_of_elements & -> & Heps)]; [by left|right].
      exists l. split; [|done].
      destruct (lights_for_ng s !! ng) as [ls|]; [by exists ls|].
      by apply elem_of_empty in Hl.
    + intros [?|(l & (ls & Hls & Hl) & -> & Heps)]; [by left|right].
      exists l. rewrite Hls. split; [by apply elem_of_elements|done].
Qed.

Lemma register_light_ok light ng s s' :
  register_light W light ng s = Ok tt s' ->
  ldds_for_ng s' = ldds_for_ng s /\
  (forall l g, light_injected s' l g <-> light_injected s l g \/ (l = light /\ g = ng)) /\
  forall c, c ∈ connections s' <->
    c ∈ connections s \/
    exists ldd, ldd_injected s ldd ng /\ c = (light, ldd, ng) /\
      Qeq_bool (ldd_epsilon W ldd (light_wavelength W light)) 0 = false.
Proof.
  unfold register_light. munfold. cbv beta. intros Hloop.
  apply (connect_loop_ok (fun ldd => (light, ldd, ng))) in Hloop
    as [(_ & _ & Hldds & Hlights & _) Hcx].
  simpl in Hldds, Hlights. split; [by destruct (lights_for_ng s !! ng)|].
  split.
  - intros l g. unfold light_injected. rewrite Hlights.
    replace (lights_for_ng
               match lights_for_ng s !! ng with
               | Some _ => s
               | None => with_lights_for_ng (<[ng:=∅]> (lights_for_ng s)) s
               end)
      with (match lights_for_ng s !! ng with
            | None => <[ng := ∅]> (lights_for_ng s)
            | Some _ => lights_for_ng s
            end) by (by destruct (lights_for_ng s !! ng)).
    rewrite lookup_membership. destruct (decide (g = ng)) as [->|Hne].
    + split.
      * intros (ds & [= <-] & Hd). apply elem_of_union in Hd as [->%elem_of_singleton|Hd];
          [by right|]. left. destruct (lights_for_ng s !! ng) as [ds|]; [by exists ds|].
        by apply elem_of_empty in Hd.
      * intros [(ds & -> & Hd)|[-> _]]; eexists; (split; [done|]);
          apply elem_of_union; [by right|left; by apply elem_of_singleton].
    + split; [by left|]. by intros [?|[_ ?]].
  - intros c. rewrite Hcx. simpl.
    replace (connections
               match lights_for_ng s !! ng with
               | Some _ => s
               | None => with_lights_for_ng (<[ng:=∅]> (lights_for_ng s)) s
               end) with (connections s) by (by destruct (lights_for_ng s !! ng)).
    replace (ldds_for_ng
               match lights_for_ng s !! ng with
               | Some _ => s
               | None => with_lights_for_ng (<[ng:=∅]> (lights_for_ng s)) s
               end) with (ldds_for_ng s) by (by destruct (lights_for_ng s !! ng)).
    unfold ldd_injected. split.
    + intros [?|(l & Hl%elem_of_elements & -> & Heps)]; [by left|right].
      exists l. split; [|done].
      destruct (ldds_for_ng s !! ng) as [ls|]; [by exists ls|].
      by apply elem_of_empty in Hl.
    + intros [?|(l & (ls & Hls & Hl) & -> & Heps)]; [by left|right].
      exists l. rewrite Hls. split; [by apply elem_of_elements|done].
Qed.

Lemma connects_every_pair_same s s' :
  lights_for_ng s' = lights_for_ng s -> ldds_for_ng s' = ldds_for_ng s ->
  connections s' = connections s ->
  connects_every_pair W s -> connects_every_pair W s'.
Proof.
  intros H1 H2 H3 Hinv light ldd ng.
  unfold light_injected, ldd_injected. rewrite H1, H2, H3. apply Hinv.
Qed.

Lemma register_ldd_every_pair ldd ng s s' :
  register_ldd W ldd ng s = Ok tt s' ->
  connects_every_pair W s -> connects_every_pair W s'.
Proof.
  intros (Hlights & Hldds & Hcx)%register_ldd_ok Hinv l d g. split.
  - intros [Hc|(l' & Hl' & [= -> -> ->] & Heps)]%Hcx.
    + apply Hinv in Hc as (A & B & C).
      split; [unfold light_injected; by rewrite Hlights|].
      split; [apply Hldds; by left|done].
    + split; [unfold light_injected; rewrite Hlights; exact Hl'|].
      split; [apply Hldds; by right|done].
  - intros (Hl & Hd & Heps). apply Hcx.
    unfold light_injected in Hl. rewrite Hlights in Hl.
    apply Hldds in Hd as [Hd|[-> ->]].
    + left. by apply Hinv.
    + right. by exists l.
Qed.

Lemma register_light_every_pair light ng s s' :
  register_light W light ng s = Ok tt s' ->
  connects_every_pair W s -> connects_every_pair W s'.
Proof.
  intros (Hldds & Hlights & Hcx)%register_light_ok Hinv l d g. split.
  - intros [Hc|(d' & Hd' & [= -> -> ->] & Heps)]%Hcx.
    + apply Hinv in Hc as (A & B & C).
      split; [apply Hlights; by left|].
      split; [unfold ldd_injected; by rewrite Hldds|done].
    + split; [apply Hlights; by right|].
      split; [unfold ldd_injected; rewrite Hldds; exact Hd'|done].
  - intros (Hl & Hd & Heps). apply Hcx.
    unfold ldd_injected in Hd. rewrite Hldds in Hd.
    apply Hlights in Hl as [Hl|[-> ->]].
    + left. by apply Hinv.
    + right. by exists d.
Qed.

Lemma by_injections_every_pair s :
  reachable_by_injections W s -> connects_every_pair W s.
Proof.
  induction 1 as [|s c s' Hs IH Hc Hcall].
  { intros l d g. simpl. split; [by intros ?%elem_of_empty|].
    intros ((ls & Hls & _) & _). simpl in Hls. by rewrite lookup_empty in Hls. }
  pose proof (reachable_wf W s (by_injections_reachable s Hs)) as Hwf.
  destruct c as [[]| | | | | |]; simpl in Hcall; try done.
  - by eapply register_light_every_pair.
  - by eapply register_ldd_every_pair.
  - by injection Hcall as <-.
  - by eapply register_light_every_pair.
  - by eapply register_ldd_every_pair.
  - destruct (decide (0 < from_option N 0 (light_source_ng s)
                          + light_n W light)%nat) as [Hsize|Hnone].
    2:{ rewrite init_register_light_empty in Hcall; [done| |lia].
        destruct (light_source_ng s) as [G|] eqn:HG; [|done].
        pose proof (wf_source_size W s Hwf G HG). simpl in Hnone. lia. }
    destruct (init_register_light_ok W light s Hwf Hsize)
      as (s'' & Hok & Hcx & (_ & _ & Hldds & Hlights & _) & _).
    rewrite Hok in Hcall. injection Hcall as ->.
    by eapply connects_every_pair_same; [..|exact IH].
  - unfold update_fov in Hcall. munfold. cbv beta in Hcall. simpl in Hcall.
    destruct (negb _); simpl in Hcall; injection Hcall as <-;
      by eapply connects_every_pair_same; [..|exact IH].
  - unfold write_Irr0 in Hcall. munfold. injection Hcall as <-.
    destruct (light_source_ng s); [|done].
    destruct (_ =? _)%nat; [|done].
    by eapply connects_every_pair_same; [..|exact IH].
Qed.

Lemma register_ldd_again ldd ng s :
  wf W s -> connects_every_pair W s ->
  injected_with_partner W s (A_LightDependent ldd) ng ->
  exists light,
    register_ldd W ldd ng s = Raise (ValueError_already_connected light ldd ng) s.
Proof.
  intros Hwf Hinv ((ds & Hds & Hd) & l & (ls & Hls & Hl) & Heps).
  unfold register_ldd. munfold. cbv beta.
  set (s0 := with_ldds_for_ng _ _).
  assert (Hs0 : s0 = s).
  { unfold s0. rewrite <- (with_ldds_for_ng_same s) at 3. 
    assert (E : match ldds_for_ng s !! ng with
                | Some _ => s
                | None => with_ldds_for_ng (<[ng:=∅]> (ldds_for_ng s)) s
                end = s) by (by rewrite Hds).
    rewrite E. f_equal.
    pose proof (membership_again ldd ng ds (ldds_for_ng s) Hds Hd) as Hm.
    by rewrite Hds in Hm. }
  rewrite Hs0.
  destruct (connect_loop_dup (fun light => (light, ldd, ng))
              (elements (default ∅ (lights_for_ng s !! ng))) s)
    as (x & _ & Hloop).
  - intros x Hx%elem_of_elements Hex. rewrite Hls in Hx. simpl in *.
    assert (Hc : (x, ldd, ng) ∈ connections s).
    { apply Hinv. split; [by exists ls|]. split; [by exists ds|done]. }
    split; [done|]. by destruct (wf_cxns W s Hwf _ Hc) as [_ ?].
  - exists l. split; [|done]. apply elem_of_elements. by rewrite Hls.
  - by exists x.
Qed.

Lemma register_light_again light ng s :
  wf W s -> connects_every_pair W s ->
  injected_with_partner W s (A_Light light) ng ->
  exists ldd,
    register_light W light ng s = Raise (ValueError_already_connected light ldd ng) s.
Proof.
  intros Hwf Hinv ((ls & Hls & Hl) & d & (ds & Hds & Hd) & Heps).
  unfold register_light. munfold. cbv beta.
  set (s0 := with_lights_for_ng _ _).
  assert (Hs0 : s0 = s).
  { unfold s0. rewrite <- (with_lights_for_ng_same s) at 3.
    assert (E : match lights_for_ng s !! ng with
                | Some _ => s
                | None => with_lights_for_ng (<[ng:=∅]> (lights_for_ng s)) s
                end = s) by (by rewrite Hls).
    rewrite E. f_equal.
    pose proof (membership_again light ng ls (lights_for_ng s) Hls Hl) as Hm.
    by rewrite Hls in Hm. }
  rewrite Hs0.
  destruct (connect_loop_dup (fun ldd => (light, ldd, ng))
              (elements (default ∅ (ldds_for_ng s !! ng))) s)
    as (x & _ & Hloop).
  - intros x Hx%elem_of_elements Hex. rewrite Hds in Hx. simpl in *.
    assert (Hc : (light, x, ng) ∈ connections s).
    { apply Hinv. split; [by exists ls|]. split; [by exists ds|done]. }
    split; [done|]. by destruct (wf_cxns W s Hwf _ Hc) as [_ ?].
  - exists d. split; [|done]. apply elem_of_elements. by rewrite Hds.
  - by exists x.
Qed.

End Injections.


Lemma two_by_two_by_injections : reachable_by_injections two_lights two_by_two.
Proof.
  unfold two_by_two, run_calls. cbn [fold_left].
  repeat match goal with
  | |- reachable_by_injections ?W (state_of (call ?W ?c ?s)) =>
      apply (by_injections_call W s c);
        [|reflexivity|vm_compute; reflexivity]
  end.
  constructor.
Defined.


(** X10. Injecting a device a second time into the same group raises.  In a
    registry reached through the injection interface, [register] of a light
    or of a light-dependent device that is already injected into the group,
    and has there a partner it is connected to, raises the duplicate
    [ValueError] of [connect_light_to_ldd_for_ng], and the registry is as it
    was before the call. *)
Theorem injecting_twice_raises W s device ng :
  reachable_by_injections W s ->
  injected_with_partner W s device ng ->
  exists light ldd,
    register W device ng s = Raise (ValueError_already_connected light ldd ng) s.
Proof.
  intros Hs Hdev.
  pose proof (reachable_wf W s (by_injections_reachable W s Hs)) as Hwf.
  pose proof (by_injections_every_pair W s Hs) as Hinv.
  destruct device as [light|ldd|]; simpl; [| |done].
  - destruct (register_light_again W light ng s Hwf Hinv Hdev) as [ldd H].
    by exists light, ldd.
  - destruct (register_ldd_again W ldd ng s Hwf Hinv Hdev) as [light H].
    by exists light, ldd.
Qed.

(** Device 5 injected again in [two_by_two]. *)
Lemma injecting_twice_raises_witness :
  exists light ldd,
    register two_lights (A_LightDependent 5) 7 two_by_two
    = Raise (ValueError_already_connected light ldd 7) two_by_two.
Proof.
  apply (injecting_twice_raises two_lights two_by_two (A_LightDependent 5) 7).
  - exact two_by_two_by_injections.
  - split.
    + exists ({[5%nat]} ∪ {[6%nat]}). split; [vm_compute; reflexivity|].
      apply elem_of_union. left. by apply elem_of_singleton.
    + exists 0%nat. split; [|reflexivity].
      exists ({[0%nat]} ∪ {[1%nat]}). split; [vm_compute; reflexivity|].
      apply elem_of_union. left. by apply elem_of_singleton.
Defined.

(** X11. [update_fov] is idempotent: called again with the same field of
    view, or with one that is equal to it as a number, it emits no warning
    and leaves the registry exactly as the first call left it. *)
Theorem update_fov_again_is_silent s new_fov new_fov' :
  new_fov == new_fov' ->
  update_fov new_fov' (state_of (update_fov new_fov s))
  = Ok tt (state_of (update_fov new_fov s)).
Proof.
  intros Heq. unfold update_fov. munfold. cbv beta. simpl.
  destruct (Qeq_bool (raster_fov s) new_fov) eqn:E; simpl.
  - apply Qeq_bool_iff in E.
    assert (E' : Qeq_bool (raster_fov s) new_fov' = true).
    { apply Qeq_bool_iff. by rewrite E. }
    by rewrite E'.
  - assert (E' : Qeq_bool new_fov new_fov' = true) by (by apply Qeq_bool_iff).
    by rewrite E'.
Qed.

(** 100 micrometres, then the same length written as 200/2. *)
Lemma update_fov_again_is_silent_witness :
  update_fov (200e-6 / 2) (state_of (update_fov 100e-6 new_registry))
  = Ok tt (state_of (update_fov 100e-6 new_registry)).
Proof.
  apply (update_fov_again_is_silent new_registry 100e-6 (200e-6 / 2)).
  reflexivity.
Defined.

(** ** The transmittance that a connection stores *)

Section Stored.
Context (W : World).

Lemma selected_cons sl e es :
  selected sl (e :: es) =
  if in_slice sl (pre_i e) then e :: selected sl es else selected sl es.
Proof.
  unfold selected. rewrite filter_cons.
  destruct (in_slice sl (pre_i e)); by destruct (decide _).
Qed.

(** A write that keeps the source index commutes with the selection. *)
Lemma selected_map sl (f : Edge -> Edge) es :
  (forall e, pre_i (f e) = pre_i e) ->
  selected sl (map f es) = map f (selected sl es).
Proof.
  intros Hf. induction es as [|e es IH]; [done|].
  cbn [map]. rewrite !selected_cons, Hf, IH.
  by destruct (in_slice sl (pre_i e)).
Qed.

Lemma selected_write_raster s light sl' sl es :
  var_T <$> selected sl (write_raster W s light sl' es) = var_T <$> selected sl es.
Proof.
  unfold write_raster, set_rows, set_all. rewrite !map_map.
  rewrite selected_map by (intros e; by destruct (in_slice sl' _)).
  change (?f <$> map ?g ?l) with (map f (map g l)). rewrite map_map.
  apply map_ext. intros e. by destruct (in_slice sl' _).
Qed.

(** The array assignment, read back in the order of the synapses. *)
Lemma selected_set_rows_array sl vals es :
  length vals = length (selected sl es) ->
  var_T <$> selected sl (set_rows_array sl set_T vals es) = vals.
Proof.
  revert vals. induction es as [|e es IH]; intros vals.
  - destruct vals; [done|]. simpl. discriminate.
  - cbn [set_rows_array]. rewrite selected_cons.
    destruct (in_slice sl (pre_i e)) eqn:E.
    + destruct vals as [|v vals]; [simpl; discriminate|].
      intros [= Hlen]. rewrite selected_cons. cbn [set_T pre_i]. rewrite E.
      cbn [fmap list_fmap]. f_equal. by apply IH.
    + intros Hlen. rewrite selected_cons, E. by apply IH.
Qed.

(** The assignment of a single value, which is broadcast. *)
Lemma selected_set_rows sl v es :
  var_T <$> selected sl (set_rows sl (set_T v) es)
  = repeat v (length (selected sl es)).
Proof.
  induction es as [|e es IH]; [done|].
  unfold set_rows in *. cbn [map]. rewrite !selected_cons.
  destruct (in_slice sl (pre_i e)) eqn:E; cbn [set_T pre_i]; rewrite E; [|done].
  cbn [fmap list_fmap length repeat]. f_equal. apply IH.
Qed.

Lemma selected_epsilon sl v es :
  Forall (fun e => var_epsilon e = v) (selected sl (set_rows sl (set_epsilon v) es)).
Proof.
  induction es as [|e es IH]; [constructor|].
  unfold set_rows in *. cbn [map]. rewrite selected_cons.
  destruct (in_slice sl (pre_i e)) eqn:E; cbn [set_epsilon pre_i]; rewrite E;
    [|done].
  by constructor.
Qed.

(** The writes that follow the one of [epsilon] keep it. *)
Lemma selected_epsilon_array sl v vals es :
  Forall (fun e => var_epsilon e = v) (selected sl es) ->
  Forall (fun e => var_epsilon e = v) (selected sl (set_rows_array sl set_T vals es)).
Proof.
  revert vals. induction es as [|e es IH]; intros vals; [done|].
  cbn [set_rows_array]. rewrite selected_cons.
  destruct (in_slice sl (pre_i e)) eqn:E.
  - intros [He Hes]%Forall_cons.
    destruct vals as [|t vals]; rewrite selected_cons; cbn [set_T pre_i];
      rewrite E; constructor; auto.
  - intros Hes. rewrite selected_cons, E. auto.
Qed.

Lemma selected_epsilon_map sl v (f : Edge -> Edge) es :
  (forall e, pre_i (f e) = pre_i e) ->
  (forall e, var_epsilon (f e) = var_epsilon e) ->
  Forall (fun e => var_epsilon e = v) (selected sl es) ->
  Forall (fun e => var_epsilon e = v) (selected sl (map f es)).
Proof.
  intros Hpre Hf Hes. rewrite selected_map by done.
  apply Forall_forall. intros e' (e & -> & He)%list_elem_of_fmap.
  rewrite Hf. by apply (proj1 (Forall_forall _ _) Hes).
Qed.

End Stored.

(** X12. A returning connection stores the light's transmittance on the
    light's own synapses.  Read in the order of the synapses, source by
    source and target by target, the synapses of the light's slice carry
    the values of [light.transmittance(coords).ravel()], or its single
    value on each of them when the array has one element, and they all
    carry the sensitivity of the device to the light's wavelength. *)
Theorem connect_stores_the_transmittance W light ldd ng s s' sl :
  Qeq_bool (ldd_epsilon W ldd (light_wavelength W light)) 0 = false ->
  connect_light_to_ldd_for_ng W light ldd ng s = Ok tt s' ->
  subgroup_idx_for_light s !! light = Some sl ->
  let rows := selected sl (edges_of s' (ldd, ng)) in
  let T := light_transmittance W light ng in
  Forall (fun e => var_epsilon e = ldd_epsilon W ldd (light_wavelength W light))
    rows /\
  (var_T <$> rows = T \/
   exists v, T = [v] /\ var_T <$> rows = repeat v (length rows)).
Proof.
  intros Heps Hok Hsl rows T.
  destruct (connect_returns W light ldd ng s s' Heps Hok)
    as (s1 & sl' & es' & Hgc & _ & Hsl' & Hassign & ->).
  assert (sl' = sl) as -> by congruence.
  destruct (get_or_create_returns W ldd ng s _ s1 Hgc) as (_ & [syn Hsyn] & _).
  assert (Hedges : edges_of
            (with_connections ({[(light, ldd, ng)]} ∪ connections s)
               (with_edges (ldd, ng) (fun _ => write_raster W s light sl es') s1))
            (ldd, ng) = write_raster W s light sl es').
  { unfold edges_of, with_edges. simpl. by rewrite lookup_alter_eq, Hsyn. }
  unfold rows. rewrite Hedges. clear rows Hedges.
  set (eps := ldd_epsilon W ldd (light_wavelength W light)) in *.
  set (es0 := set_rows sl (set_epsilon eps) (edges_of s1 (ldd, ng))) in *.
  pose proof (selected_epsilon sl eps (edges_of s1 (ldd, ng))) as Heps0.
  fold es0 in Heps0.
  rewrite selected_write_raster.
  assert (Hraster : forall es,
    Forall (fun e => var_epsilon e = eps) (selected sl es) ->
    Forall (fun e => var_epsilon e = eps) (selected sl (write_raster W s light sl es))).
  { intros es Hes. unfold write_raster, set_rows, set_all. rewrite !map_map.
    apply selected_epsilon_map; [| |done]; intros e; by destruct (in_slice sl _). }
  unfold assign_rows_array in Hassign.
  destruct (length (light_transmittance W light ng) =? length (selected sl es0))%nat
    eqn:Hlen.
  - injection Hassign as <-. apply Nat.eqb_eq in Hlen. split.
    + apply Hraster. by apply selected_epsilon_array.
    + left. by apply selected_set_rows_array.
  - destruct (light_transmittance W light ng) as [|v [|]] eqn:HT; try done.
    injection Hassign as <-. split.
    + apply Hraster. unfold set_rows.
      apply selected_epsilon_map; [| |done]; intros e; by destruct (in_slice sl _).
    + right. exists v. split; [done|].
      rewrite selected_set_rows. f_equal.
      rewrite <- (length_fmap var_T
                    (selected sl (write_raster W s light sl
                                    (set_rows sl (set_T v) es0)))).
      by rewrite selected_write_raster, selected_set_rows, repeat_length.
Qed.

(** Light 1 connected in [one_connection]. *)
Lemma connect_stores_the_transmittance_witness :
  let s' := state_of (connect_light_to_ldd_for_ng two_lights 1 5 7 one_connection) in
  let rows := selected (Slice 1 2) (edges_of s' (5, 7)%nat) in
  let T := light_transmittance two_lights 1 7 in
  Forall (fun e => var_epsilon e
                   = ldd_epsilon two_lights 5 (light_wavelength two_lights 1))
    rows /\
  (var_T <$> rows = T \/
   exists v, T = [v] /\ var_T <$> rows = repeat v (length rows)).
Proof.
  apply (connect_stores_the_transmittance two_lights 1 5 7 one_connection).
  - reflexivity.
  - vm_compute. reflexivity.
  - vm_compute. reflexivity.
Defined.

(** ** Cylinder coordinates *)

Section Coordinates.
Local Open Scope R_scope.

Lemma sum_sq_nonneg a : 0 <= opto.sum_sq a.
Proof. unfold opto.sum_sq. nra. Qed.

(** The vector that [__init__] stores has length one. *)
Lemma unit_vector_dot direction u :
  opto.unit_vector direction = Some u -> opto.dot u u = 1.
Proof.
  unfold opto.unit_vector, checked_div.
  destruct (Req_dec_T (opto.norm direction) 0) as [|Hn]; [done|].
  cbn [mbind option_bind]. intros [= <-].
  pose proof (sum_sq_nonneg direction) as Hs.
  assert (Hsq : opto.norm direction * opto.norm direction = opto.sum_sq direction).
  { unfold opto.norm. by apply sqrt_sqrt. }
  unfold opto.dot. cbn [fst snd].
  unfold opto.sum_sq in Hsq.
  set (n := opto.norm direction) in *.
  destruct direction as [[dx dy] dz]. cbn [fst snd] in *.
  assert (E : dx / n * (dx / n) + dy / n * (dy / n) + dz / n * (dz / n)
              = (dx ^ 2 + dy ^ 2 + dz ^ 2) / (n * n)) by (field; done).
  rewrite E, <- Hsq. field. done.
Qed.

(** The radial and the axial coordinate of one point. *)
Lemma radial_axial c u :
  opto.dot u u = 1 ->
  let zk := opto.dot c u in
  let rk := sqrt (opto.sum_sq (opto.vsub c (opto.vscale zk u))) in
  0 <= rk /\ rk ^ 2 + zk ^ 2 = opto.sum_sq c.
Proof.
  intros Hu zk rk. split; [apply sqrt_pos|].
  unfold rk. rewrite <- Rsqr_pow2. unfold Rsqr.
  rewrite sqrt_sqrt by apply sum_sq_nonneg.
  unfold zk. destruct c as [[cx cy] cz], u as [[ux uy] uz].
  unfold opto.sum_sq, opto.vsub, opto.vscale, opto.dot in *. cbn [fst snd] in *.
  set (d := cx * ux + cy * uy + cz * uz).
  replace ((cx - d * ux) ^ 2 + (cy - d * uy) ^ 2 + (cz - d * uz) ^ 2 + d ^ 2)
    with (cx ^ 2 + cy ^ 2 + cz ^ 2 - 2 * d * (cx * ux + cy * uy + cz * uz)
          + d ^ 2 * (ux * ux + uy * uy + uz * uz) + d ^ 2) by ring.
  rewrite Hu. fold d. ring.
Qed.

End Coordinates.

Section Coordinates_claims.
Local Open Scope R_scope.

(** X13. [_get_rz_for_xyz] splits the offset of every point from the fiber
    tip into a distance along the fiber axis and a distance from it.  For
    an intervention that [__init__] has built, whose direction is therefore
    a unit vector, and coordinate arrays of one length, it returns one
    radial and one axial coordinate per point: the axial one is the
    projection of the offset on the direction, the radial one is not
    negative, and their squares add up to the squared distance of the point
    from the tip.  Arrays of different lengths raise the [ValueError] of
    [np.vstack]. *)
Theorem get_rz_splits_the_offset name opsin_params light_model_params location
    direction max_Irr0_mW_per_mm2 self x y z :
  opto.__init__ name opsin_params light_model_params location direction
    max_Irr0_mW_per_mm2 = Some self ->
  opto.location self = location /\
  opto.dot (opto.dir_uvec self) (opto.dir_uvec self) = 1 /\
  (length x = length y -> length y = length z ->
   exists r zc,
     opto._get_rz_for_xyz (opto.location self) (opto.dir_uvec self) x y z
     = opto.Ok (r, zc) /\
     length r = length x /\ length zc = length x /\
     forall k xk yk zk,
       x !! k = Some xk -> y !! k = Some yk -> z !! k = Some zk ->
       exists rk zck,
         r !! k = Some rk /\ zc !! k = Some zck /\
         zck = opto.dot (opto.vsub (xk, yk, zk) location) (opto.dir_uvec self) /\
         0 <= rk /\
         rk ^ 2 + zck ^ 2 = opto.sum_sq (opto.vsub (xk, yk, zk) location)) /\
  (length x <> length y \/ length y <> length z ->
   opto._get_rz_for_xyz (opto.location self) (opto.dir_uvec self) x y z
   = opto.Raise opto.ValueError_vstack).
Proof.
  unfold opto.__init__.
  destruct (opto.unit_vector direction) as [u|] eqn:Hunit; [|done].
  cbn [mbind option_bind]. intros [= <-]. cbn [opto.location opto.dir_uvec].
  apply unit_vector_dot in Hunit as Hu.
  split; [done|]. split; [done|].
  unfold opto._get_rz_for_xyz. split.
  - intros Hxy Hyz. rewrite Hxy, Hyz, Nat.eqb_refl. cbn [andb].
    eexists _, _. split; [reflexivity|].
    split; [|split].
    + rewrite length_zip_with, !length_map, !length_zip_with. lia.
    + rewrite !length_map, !length_zip_with. lia.
    + intros k xk yk zk Hx Hy Hz.
      set (c := opto.vsub (xk, yk, zk) location).
      assert (Hrel : map (fun c => opto.vsub c location) (zip (zip x y) z) !! k
                     = Some c).
      { change (map ?f ?l) with (f <$> l).
        rewrite list_lookup_fmap, !lookup_zip_with, Hx, Hy, Hz. done. }
      exists (sqrt (opto.sum_sq (opto.vsub c (opto.vscale (opto.dot c u) u)))),
             (opto.dot c u).
      split; [|split; [|split; [done|]]].
      * rewrite lookup_zip_with, Hrel. cbn [mbind option_bind].
        change (map ?f ?l) with (f <$> l) at 1.
        rewrite list_lookup_fmap, Hrel. done.
      * change (map ?f ?l) with (f <$> l) at 1.
        rewrite list_lookup_fmap, Hrel. done.
      * exact (radial_axial c u Hu).
  - intros Hne.
    destruct (length x =? length y)%nat eqn:E1; [|done].
    destruct (length y =? length z)%nat eqn:E2; [|done].
    apply Nat.eqb_eq in E1, E2. lia.
Qed.

(** A fiber at (1, 0, 0) that is given the direction (0, 0, 2), and two
    points. *)
Lemma get_rz_splits_the_offset_witness :
  exists self,
    opto.__init__ "opto" opto.ChR2_four_state default_blue (1, 0, 0) (0, 0, 2)
      None = Some self /\
    opto.location self = (1, 0, 0) /\
    opto.dot (opto.dir_uvec self) (opto.dir_uvec self) = 1 /\
    (length [1; 4] = length [0; 0] -> length [0; 0] = length [5; 3] ->
     exists r zc,
       opto._get_rz_for_xyz (opto.location self) (opto.dir_uvec self)
         [1; 4] [0; 0] [5; 3] = opto.Ok (r, zc) /\
       length r = length [1; 4] /\ length zc = length [1; 4] /\
       forall k xk yk zk,
         [1; 4] !! k = Some xk -> [0; 0] !! k = Some yk ->
         [5; 3] !! k = Some zk ->
         exists rk zck,
           r !! k = Some rk /\ zc !! k = Some zck /\
           zck = opto.dot (opto.vsub (xk, yk, zk) (1, 0, 0)) (opto.dir_uvec self) /\
           0 <= rk /\
           rk ^ 2 + zck ^ 2 = opto.sum_sq (opto.vsub (xk, yk, zk) (1, 0, 0))) /\
    (length [1; 4] <> length [0; 0] \/ length [0; 0] <> length [5; 3] ->
     opto._get_rz_for_xyz (opto.location self) (opto.dir_uvec self)
       [1; 4] [0; 0] [5; 3] = opto.Raise opto.ValueError_vstack).
Proof.
  assert (Hunit : opto.unit_vector (0, 0, 2) = Some (0 / 2, 0 / 2, 2 / 2)).
  { unfold opto.unit_vector, opto.norm, opto.sum_sq. cbn [fst snd].
    replace (0 ^ 2 + 0 ^ 2 + 2 ^ 2) with (2 * 2) by ring.
    rewrite sqrt_square by lra.
    rewrite !checked_div_ok by lra. done. }
  eexists. split.
  { unfold opto.__init__. rewrite Hunit. cbn [mbind option_bind]. reflexivity. }
  eapply (get_rz_splits_the_offset "opto" opto.ChR2_four_state default_blue
            (1, 0, 0) (0, 0, 2) None).
  unfold opto.__init__. rewrite Hunit. cbn [mbind option_bind]. reflexivity.
Defined.

End Coordinates_claims.

(** ** The switches of the transmittance model *)

Section Switches.
Local Open Scope R_scope.

Lemma kubelka_munk_defined p r z :
  physical_params p -> kubelka_munk p r z = Some (km_value p r z).
Proof.
  intros Hp. pose proof Hp as (HR0 & HK & HS & Hna & Hnt).
  pose proof (km_a_gt_1 p Hp) as Ha. pose proof (km_b_pos p Hp) as Hb.
  pose proof (km_den_bounds p (sqrt (r ^ 2 + z ^ 2)) Hp (sqrt_pos _)) as [Hden _].
  unfold kubelka_munk.
  rewrite (checked_div_ok (param_K p)) by lra. cbn [mbind option_bind].
  fold (km_a p). rewrite (checked_sqrt_ok (km_a p ^ 2 - 1)) by nra.
  cbn [mbind option_bind].
  rewrite checked_sqrt_ok by apply dist_nonneg. cbn [mbind option_bind].
  fold (km_b p). rewrite checked_div_ok by lra. done.
Qed.

Lemma radius_used_pos p z spread :
  physical_params p -> 0 <= z -> 0 < radius_used p z spread.
Proof.
  intros Hp Hz. destruct spread; simpl; [by apply apparent_radius_pos|].
  by destruct Hp.
Qed.

(** With physical parameters and a nonzero radius, the model returns its
    closed form whatever the switches. *)
Lemma Foutz12_switched_defined p r z scatter spread gaussian :
  physical_params p -> radius_used p z spread <> 0 ->
  _Foutz12_transmittance p r z scatter spread gaussian
  = Some (switched_value p r z scatter spread gaussian).
Proof.
  intros Hp HRz. pose proof Hp as (HR0 & HK & HS & Hna & Hnt).
  destruct (aperture_ratio p Hp) as [H0 H1].
  pose proof (cos_theta_div_pos p Hp) as Hcos.
  pose proof PI_RGT_0 as Hpi.
  assert (Hn : 0 < sqrt (2 * PI)) by (apply sqrt_lt_R0; lra).
  unfold _Foutz12_transmittance, switched_value.
  destruct spread; simpl in HRz.
  - rewrite (checked_div_ok (param_NAfib p)) by lra. cbn [mbind option_bind].
    rewrite checked_arcsin_ok by lra. cbn [mbind option_bind].
    fold (theta_div p). rewrite checked_tan_ok by lra. cbn [mbind option_bind].
    fold (apparent_radius p z).
    rewrite (checked_div_ok (param_R0 p)) by done.
    cbn [mbind option_bind fst snd radius_used].
    destruct gaussian.
    + rewrite (checked_div_ok 1) by lra. cbn [mbind option_bind].
      rewrite (checked_div_ok r) by done. cbn [mbind option_bind].
      destruct scatter; [|done].
      rewrite checked_sqrt_ok by apply dist_nonneg. cbn [mbind option_bind].
      by rewrite kubelka_munk_defined.
    + cbn [mbind option_bind]. destruct scatter; [|done].
      rewrite checked_sqrt_ok by apply dist_nonneg. cbn [mbind option_bind].
      by rewrite kubelka_munk_defined.
  - cbn [mbind option_bind fst snd radius_used].
    destruct gaussian.
    + rewrite (checked_div_ok 1) by lra. cbn [mbind option_bind].
      rewrite (checked_div_ok r) by done. cbn [mbind option_bind].
      destruct scatter; [|done].
      rewrite checked_sqrt_ok by apply dist_nonneg. cbn [mbind option_bind].
      by rewrite kubelka_munk_defined.
    + cbn [mbind option_bind]. destruct scatter; [|done].
      rewrite checked_sqrt_ok by apply dist_nonneg. cbn [mbind option_bind].
      by rewrite kubelka_munk_defined.
Qed.

Lemma gaussian_factor_bounds r Rz :
  0 < 1 / sqrt (2 * PI) * exp (-2 * (r / Rz) ^ 2) <= 1 / sqrt (2 * PI).
Proof.
  destruct gaussian_peak_bounds as [HG _].
  pose proof (exp_pos (-2 * (r / Rz) ^ 2)) as Hpos.
  assert (Hle : exp (-2 * (r / Rz) ^ 2) <= 1).
  { rewrite <- exp_0. apply exp_le. nra. }
  split; [by apply Rmult_lt_0_compat|]. nra.
Qed.

Lemma spread_factor_bounds p z :
  physical_params p -> 0 <= z ->
  0 < (param_R0 p / apparent_radius p z) ^ 2 <= 1.
Proof.
  intros Hp Hz. pose proof (apparent_radius_pos p z Hp Hz) as HRz.
  pose proof (apparent_radius_le p 0 z Hp Hz) as Hle.
  unfold apparent_radius at 1 in Hle. rewrite Rmult_0_l, Rplus_0_r in Hle.
  destruct Hp as (HR0 & _).
  assert (H1 : 0 < param_R0 p / apparent_radius p z) by (by apply Rdiv_lt_0_compat).
  assert (H2 : param_R0 p / apparent_radius p z <= 1) by (by apply Rdiv_le_1).
  nra.
Qed.

(** The three factors of the closed form. *)
Lemma switched_value_factors p r z scatter spread gaussian :
  physical_params p -> 0 <= z ->
  exists G C M,
    switched_value p r z scatter spread gaussian = G * C * M /\
    0 < G <= (if gaussian then 1 / sqrt (2 * PI) else 1) /\
    0 < C <= 1 /\ 0 < M <= 1 /\
    switched_value p r z false spread gaussian = G * C /\
    switched_value p r z scatter spread false = C * M.
Proof.
  intros Hp Hz. unfold switched_value.
  eexists _, _, _. split; [reflexivity|].
  split; [destruct gaussian; [apply gaussian_factor_bounds|lra]|].
  split; [destruct spread; [by apply spread_factor_bounds|lra]|].
  split; [destruct scatter; [by apply km_value_bounds|lra]|].
  split; ring.
Qed.

(** Ahead of the tip the closed form is at most its value at the origin. *)
Lemma transmittance_value_peak p r z :
  physical_params p -> 0 <= z ->
  0 < transmittance_value p r z <= 1 / sqrt (2 * PI).
Proof.
  intros Hp Hz.
  pose proof (apparent_radius_pos p z Hp Hz) as HRz.
  pose proof (apparent_radius_pos p 0 Hp ltac:(lra)) as HR0.
  split; [apply transmittance_value_pos; [done|lra]|].
  rewrite <- (transmittance_value_origin p Hp).
  apply Rle_trans with (transmittance_value p 0 z).
  - apply transmittance_value_radial; [done|lra|].
    rewrite Rabs_R0. apply Rabs_pos.
  - apply transmittance_value_axial; [done|lra|done|]. nra.
Qed.

End Switches.

Section Switches_claims.
Local Open Scope R_scope.

(** X14. For physical parameters and a point at or ahead of the fiber tip,
    [_Foutz12_transmittance] returns a number for every choice of
    [scatter], [spread] and [gaussian], between 0 and 1, and at most
    1/sqrt(2 pi) when [gaussian] is set.  With scattering switched off, or
    with the Gaussian profile switched off, the transmittance is not lower
    than with it.  The lower bound is not strict: far from the axis the
    exponential of the Gaussian profile underflows in double precision,
    and the code returns 0. *)
Theorem Foutz12_switches_stay_in_range p r z scatter spread gaussian :
  physical_params p -> 0 <= z ->
  exists t t_no_scatter t_no_gaussian,
    _Foutz12_transmittance p r z scatter spread gaussian = Some t /\
    _Foutz12_transmittance p r z false spread gaussian = Some t_no_scatter /\
    _Foutz12_transmittance p r z scatter spread false = Some t_no_gaussian /\
    0 <= t <= 1 /\
    (gaussian = true -> t <= 1 / sqrt (2 * PI)) /\
    t <= t_no_scatter /\ t <= t_no_gaussian.
Proof.
  intros Hp Hz.
  assert (HRz : radius_used p z spread <> 0).
  { pose proof (radius_used_pos p z spread Hp Hz). lra. }
  rewrite !Foutz12_switched_defined by done.
  destruct (switched_value_factors p r z scatter spread gaussian Hp Hz)
    as (G & C & M & -> & HG & HC & HM & -> & ->).
  eexists _, _, _. split; [done|]. split; [done|]. split; [done|].
  destruct gaussian_peak_bounds as [_ Hpeak].
  assert (HG1 : G <= 1) by (destruct gaussian; lra).
  assert (HGC : 0 < G * C) by (apply Rmult_lt_0_compat; lra).
  assert (HCM : 0 < C * M) by (apply Rmult_lt_0_compat; lra).
  assert (HCM1 : C * M <= 1) by nra.
  split; [split; [apply Rmult_le_pos; lra|nra]|].
  split; [intros ->; nra|]. split; nra.
Qed.

(** [default_blue], a point 0.5 mm off the axis and 1 mm deep, the beam
    not spread. *)
Lemma Foutz12_switches_stay_in_range_witness :
  exists t t_no_scatter t_no_gaussian,
    _Foutz12_transmittance default_blue 0.5e-3 1e-3 true false true = Some t /\
    _Foutz12_transmittance default_blue 0.5e-3 1e-3 false false true
    = Some t_no_scatter /\
    _Foutz12_transmittance default_blue 0.5e-3 1e-3 true false false
    = Some t_no_gaussian /\
    0 <= t <= 1 /\
    (true = true -> t <= 1 / sqrt (2 * PI)) /\
    t <= t_no_scatter /\ t <= t_no_gaussian.
Proof.
  apply (Foutz12_switches_stay_in_range default_blue 0.5e-3 1e-3 true false true).
  - exact physical_default_blue.
  - lra.
Defined.

(** X15. No point at or ahead of the fiber tip receives more than the tip
    itself: for physical parameters, the transmittance at any radial
    offset and any axial offset that is not negative is a number that is
    not negative and at most the one at the origin, which is
    1/sqrt(2 pi). *)
Theorem Foutz12_peak_at_the_tip p r z :
  physical_params p -> 0 <= z ->
  exists t,
    _Foutz12_transmittance p r z true true true = Some t /\
    _Foutz12_transmittance p 0 0 true true true = Some (1 / sqrt (2 * PI)) /\
    0 <= t <= 1 / sqrt (2 * PI).
Proof.
  intros Hp Hz.
  pose proof (apparent_radius_pos p z Hp Hz) as HRz.
  pose proof (apparent_radius_pos p 0 Hp ltac:(lra)) as HR0.
  rewrite !Foutz12_defined by (done || lra).
  rewrite transmittance_value_origin by done.
  eexists. split; [done|]. split; [done|].
  destruct (transmittance_value_peak p r z Hp Hz) as [Hpos Hpeak].
  split; [lra|done].
Qed.

(** [default_blue], 0.6 mm off the axis and 0.8 mm deep. *)
Lemma Foutz12_peak_at_the_tip_witness :
  exists t,
    _Foutz12_transmittance default_blue 0.6e-3 0.8e-3 true true true = Some t /\
    _Foutz12_transmittance default_blue 0 0 true true true
    = Some (1 / sqrt (2 * PI)) /\
    0 <= t <= 1 / sqrt (2 * PI).
Proof.
  apply (Foutz12_peak_at_the_tip default_blue 0.6e-3 0.8e-3).
  - exact physical_default_blue.
  - lra.
Defined.

End Switches_claims.

(** ** The opsin synapses *)

Section Opsin.
Local Open Scope R_scope.

Lemma assign_compose f g opto_syn :
  opto.assign f (opto.assign g opto_syn) = opto.assign (fun s => f (g s)) opto_syn.
Proof.
  destruct opto_syn. unfold opto.assign. cbn [opto.syn_obj opto.syn_name
    opto.v_var_name opto.Iopto_var_name opto.namespace opto.namespace_Ephoton
    opto.synapses]. by rewrite map_map.
Qed.

Lemma assign_ext f g opto_syn :
  (forall s, f s = g s) -> opto.assign f opto_syn = opto.assign g opto_syn.
Proof.
  intros Hfg. unfold opto.assign. f_equal. by apply map_ext.
Qed.

Lemma init_opto_syn_vars_assign opto_syn :
  opto._init_opto_syn_vars opto_syn
  = opto.assign
      (fun s => opto.set_O2 0 (opto.set_O1 0 (opto.set_C1 1 (opto.set_Irr0 0 s))))
      opto_syn.
Proof. unfold opto._init_opto_syn_vars. by rewrite !assign_compose. Qed.

Lemma init_opto_syn_vars_idemp opto_syn :
  opto._init_opto_syn_vars (opto._init_opto_syn_vars opto_syn)
  = opto._init_opto_syn_vars opto_syn.
Proof.
  rewrite !init_opto_syn_vars_assign, assign_compose. by apply assign_ext.
Qed.

Lemma init_after_set_Irr0 v opto_syn :
  opto._init_opto_syn_vars (opto.assign (opto.set_Irr0 v) opto_syn)
  = opto._init_opto_syn_vars opto_syn.
Proof.
  rewrite !init_opto_syn_vars_assign, assign_compose. by apply assign_ext.
Qed.

Lemma Theta_0 : opto.Theta 0 = 0.
Proof. unfold opto.Theta. destruct (Rgt_dec 0 (0 * 0)); [lra|done]. Qed.

Lemma Theta_pos phi : 0 < phi -> opto.Theta phi = 1.
Proof. intros H. unfold opto.Theta. destruct (Rgt_dec phi (0 * phi)); [done|lra]. Qed.

Lemma power_pos x y : 0 < x -> opto.power x y = Some (Rpower x y).
Proof. intros H. unfold opto.power. by destruct (Rlt_dec 0 x). Qed.

Lemma Rpower_pos x y : 0 < Rpower x y.
Proof. unfold Rpower. apply exp_pos. Qed.

(** A flux of zero raised to an exponent that is not negative. *)
Lemma power_0 y :
  0 <= y -> exists a, opto.power 0 y = Some a /\ 0 <= a.
Proof.
  intros H. unfold opto.power.
  destruct (Rlt_dec 0 0); [lra|]. destruct (Req_dec_T 0 0); [|done].
  destruct (Rlt_dec 0 y); [exists 0; split; [done|lra]|].
  destruct (Req_dec_T y 0); [exists 1; split; [done|lra]|lra].
Qed.

(** The Hill function of the flux: zero in the dark, below one in the
    light. *)
Lemma hill_dark phim e :
  0 < phim -> 0 <= e ->
  (a ← opto.power 0 e; b ← opto.power phim e;
   checked_div (opto.Theta 0 * a) (a + b)) = Some 0.
Proof.
  intros Hphim He. destruct (power_0 e He) as (a & -> & Ha).
  rewrite power_pos by done. cbn [mbind option_bind].
  pose proof (Rpower_pos phim e).
  rewrite checked_div_ok by lra. rewrite Theta_0. f_equal. field. lra.
Qed.

Lemma hill_light phim e phi :
  0 < phim -> 0 < phi ->
  exists h,
    (a ← opto.power phi e; b ← opto.power phim e;
     checked_div (opto.Theta phi * a) (a + b)) = Some h /\ 0 < h < 1.
Proof.
  intros Hphim Hphi. rewrite !power_pos by done. cbn [mbind option_bind].
  pose proof (Rpower_pos phim e). pose proof (Rpower_pos phi e).
  rewrite checked_div_ok by lra. rewrite Theta_pos by done.
  eexists. split; [done|]. rewrite Rmult_1_l. split.
  - apply Rdiv_lt_0_compat; lra.
  - apply Rmult_lt_reg_r with (Rpower phi e + Rpower phim e); [lra|].
    unfold Rdiv. rewrite Rmult_assoc, Rinv_l by lra. lra.
Qed.

Lemma hill_bounds phim e phi :
  0 < phim -> 0 <= e -> 0 <= phi ->
  exists h,
    (a ← opto.power phi e; b ← opto.power phim e;
     checked_div (opto.Theta phi * a) (a + b)) = Some h /\ 0 <= h < 1.
Proof.
  intros Hphim He [Hphi| <-].
  - destruct (hill_light phim e phi Hphim Hphi) as (h & -> & Hh).
    exists h. split; [done|lra].
  - rewrite hill_dark by done. exists 0. split; [done|lra].
Qed.

End Opsin.

Section Opsin_claims.
Local Open Scope R_scope.

(** X16. [update] never drives the light above the maximum of the device.  A
    negative intensity raises [ValueError].  An intensity that is not
    negative is recorded, cut down to [max_Irr0_mW_per_mm2] when there is
    one, and written as [Irr0], in W/m2, to every synapse of every opsin
    [Synapses] object, the other variables of the synapses being left as
    they are. *)
Theorem update_applies_at_most_the_maximum self Irr0_mW_per_mm2 :
  0 <= Irr0_mW_per_mm2 ->
  let applied :=
    match opto.max_Irr0_mW_per_mm2 self with
    | Some max_Irr0 => Rmin Irr0_mW_per_mm2 max_Irr0
    | None => Irr0_mW_per_mm2
    end in
  (forall negative, negative < 0 ->
     opto.update negative self = opto.Raise opto.ValueError_negative_Irr0) /\
  exists self',
    opto.update Irr0_mW_per_mm2 self = opto.Ok self' /\
    opto.value self' = applied /\
    applied <= Irr0_mW_per_mm2 /\
    (forall max_Irr0, opto.max_Irr0_mW_per_mm2 self = Some max_Irr0 ->
       applied <= max_Irr0) /\
    forall name,
      opto.opto_syns self' !! name
      = opto.assign (opto.set_Irr0 (applied * 1e-3 / 1e-6))
          <$> opto.opto_syns self !! name.
Proof.
  intros Hpos applied. split.
  { intros negative Hneg. unfold opto.update.
    by destruct (Rlt_dec negative 0). }
  unfold opto.update. destruct (Rlt_dec Irr0_mW_per_mm2 0); [lra|].
  assert (Heq : match opto.max_Irr0_mW_per_mm2 self with
                | Some max_Irr0 =>
                    if Rgt_dec Irr0_mW_per_mm2 max_Irr0 then max_Irr0
                    else Irr0_mW_per_mm2
                | None => Irr0_mW_per_mm2
                end = applied).
  { unfold applied. destruct (opto.max_Irr0_mW_per_mm2 self) as [m|]; [|done].
    destruct (Rgt_dec Irr0_mW_per_mm2 m).
    - rewrite Rmin_right; lra.
    - rewrite Rmin_left; lra. }
  rewrite Heq. eexists. split; [reflexivity|]. split; [done|].
  split; [|split].
  - unfold applied. destruct (opto.max_Irr0_mW_per_mm2 self); [apply Rmin_l|lra].
  - intros m Hm. unfold applied. rewrite Hm. apply Rmin_r.
  - intros name. cbn [opto.opto_syns opto.with_opto_syns].
    by rewrite lookup_fmap.
Qed.

(** 50 mW/mm2 asked of a light that gives 30 at most. *)
Lemma update_applies_at_most_the_maximum_witness :
  (forall negative, negative < 0 ->
     opto.update negative lit_intervention
     = opto.Raise opto.ValueError_negative_Irr0) /\
  exists self',
    opto.update 50 lit_intervention = opto.Ok self' /\
    opto.value self' = Rmin 50 30 /\
    Rmin 50 30 <= 50 /\
    (forall max_Irr0,
       opto.max_Irr0_mW_per_mm2 lit_intervention = Some max_Irr0 ->
       Rmin 50 30 <= max_Irr0) /\
    forall name,
      opto.opto_syns self' !! name
      = opto.assign (opto.set_Irr0 (Rmin 50 30 * 1e-3 / 1e-6))
          <$> opto.opto_syns lit_intervention !! name.
Proof.
  apply (update_applies_at_most_the_maximum lit_intervention 50). lra.
Defined.

(** X17. [reset] brings every synapse of every opsin [Synapses] object back
    to the state in which [connect_to_neuron_group] leaves it: no light,
    and all channels in the closed state C1, the occupancy
    [C2 = 1 - C1 - O1 - O2] being zero.  The transmittance and the
    expression level of the synapse are kept.  A second [reset] changes
    nothing, and a [reset] undoes any [update] on the synapses. *)
Theorem reset_closes_every_channel self name opto_syn' s' :
  opto.opto_syns (opto.reset self) !! name = Some opto_syn' ->
  s' ∈ opto.synapses opto_syn' ->
  (opto.var_Irr0 s' = 0 /\ opto.var_C1 s' = 1 /\ opto.var_O1 s' = 0 /\
   opto.var_O2 s' = 0 /\ opto.C2 s' = 0) /\
  (exists opto_syn s,
     opto.opto_syns self !! name = Some opto_syn /\ s ∈ opto.synapses opto_syn /\
     opto.syn_i s' = opto.syn_i s /\ opto.var_T s' = opto.var_T s /\
     opto.var_rho_rel s' = opto.var_rho_rel s) /\
  opto.reset (opto.reset self) = opto.reset self /\
  forall Irr0_mW_per_mm2 self1,
    opto.update Irr0_mW_per_mm2 self = opto.Ok self1 ->
    opto.opto_syns (opto.reset self1) = opto.opto_syns (opto.reset self).
Proof.
  intros Hk Hs'. cbn [opto.reset opto.opto_syns opto.with_opto_syns] in Hk.
  rewrite lookup_fmap in Hk.
  destruct (opto.opto_syns self !! name) as [opto_syn|] eqn:E; [|done].
  injection Hk as <-. rewrite init_opto_syn_vars_assign in Hs'.
  cbn [opto.assign opto.synapses] in Hs'.
  apply list_elem_of_fmap in Hs' as (s & -> & Hs).
  split; [|split; [|split]].
  - unfold opto.C2.
    cbn [opto.var_Irr0 opto.var_C1 opto.var_O1 opto.var_O2 opto.set_O2
         opto.set_O1 opto.set_C1 opto.set_Irr0].
    repeat (split; [done|]). lra.
  - by exists opto_syn, s.
  - unfold opto.reset.
    change (opto.with_opto_syns ?a (opto.with_opto_syns ?b ?c))
      with (opto.with_opto_syns a c).
    cbn [opto.opto_syns opto.with_opto_syns].
    f_equal. rewrite <- map_fmap_compose. apply map_fmap_ext.
    intros k syn _. apply init_opto_syn_vars_idemp.
  - intros v self1. unfold opto.update.
    destruct (Rlt_dec v 0); [done|]. intros [= <-].
    cbn [opto.reset opto.opto_syns opto.with_opto_syns].
    rewrite <- map_fmap_compose. apply map_fmap_ext.
    intros k syn _. apply init_after_set_Irr0.
Qed.

(** The synapse of [lit_intervention] after a reset. *)
Lemma reset_closes_every_channel_witness :
  let s' := opto.set_O2 0 (opto.set_O1 0 (opto.set_C1 1
              (opto.set_Irr0 0 lit_synapse))) in
  (opto.var_Irr0 s' = 0 /\ opto.var_C1 s' = 1 /\ opto.var_O1 s' = 0 /\
   opto.var_O2 s' = 0 /\ opto.C2 s' = 0) /\
  (exists opto_syn s,
     opto.opto_syns lit_intervention !! "ng" = Some opto_syn /\
     s ∈ opto.synapses opto_syn /\
     opto.syn_i s' = opto.syn_i s /\ opto.var_T s' = opto.var_T s /\
     opto.var_rho_rel s' = opto.var_rho_rel s) /\
  opto.reset (opto.reset lit_intervention) = opto.reset lit_intervention /\
  forall Irr0_mW_per_mm2 self1,
    opto.update Irr0_mW_per_mm2 lit_intervention = opto.Ok self1 ->
    opto.opto_syns (opto.reset self1)
    = opto.opto_syns (opto.reset lit_intervention).
Proof.
  intros s'.
  eapply (reset_closes_every_channel lit_intervention "ng").
  - unfold lit_intervention, opto.reset.
    cbn [opto.opto_syns opto.with_opto_syns].
    rewrite map_fmap_singleton. apply lookup_singleton_eq.
  - rewrite init_opto_syn_vars_assign. cbn [opto.assign opto.synapses map].
    apply list_elem_of_singleton. reflexivity.
Defined.

End Opsin_claims.

Section Rates.
Local Open Scope R_scope.

(** The four rates that depend on the light, for a flux that is not
    negative. *)
Lemma rates_defined P phi :
  0 <= phi -> 0 < opto.param_phim P ->
  0 <= opto.param_p P -> 0 <= opto.param_q P ->
  exists hp hq,
    0 <= hp < 1 /\ 0 <= hq < 1 /\ (phi = 0 -> hp = 0 /\ hq = 0) /\
    opto.Ga1 P phi = Some (opto.param_k1 P * hp) /\
    opto.Ga2 P phi = Some (opto.param_k2 P * hp) /\
    opto.Gf P phi = Some (opto.param_kf P * hq + opto.param_Gf0 P) /\
    opto.Gb P phi = Some (opto.param_kb P * hq + opto.param_Gb0 P).
Proof.
  intros Hphi Hphim Hp Hq.
  destruct (hill_bounds (opto.param_phim P) (opto.param_p P) phi Hphim Hp Hphi)
    as (hp & Ehp & Hhp).
  destruct (hill_bounds (opto.param_phim P) (opto.param_q P) phi Hphim Hq Hphi)
    as (hq & Ehq & Hhq).
  exists hp, hq. split; [done|]. split; [done|]. split.
  { intros ->. rewrite hill_dark in Ehp, Ehq by done.
    injection Ehp as <-. injection Ehq as <-. done. }
  unfold opto.Ga1, opto.Ga2, opto.Gf, opto.Gb, opto.Hp, opto.Hq.
  rewrite Ehp, Ehq. done.
Qed.

End Rates.

Section Rates_claims.
Local Open Scope R_scope.

(** X18. The four-state model keeps the total occupancy at one.  For a flux
    that is not negative, the three differential equations of [four_state]
    have right-hand sides that are numbers, and together with the equation
    for C2 that the model leaves as a comment they add up to zero: the
    occupancy [C2 = 1 - C1 - O1 - O2] that the model computes is the one
    its fourth differential equation would give. *)
Theorem four_state_keeps_total_occupancy P phi s :
  0 <= phi -> 0 < opto.param_phim P ->
  0 <= opto.param_p P -> 0 <= opto.param_q P ->
  exists dC1 dO1 dO2 dC2,
    opto.dC1_dt P phi s = Some dC1 /\ opto.dO1_dt P phi s = Some dO1 /\
    opto.dO2_dt P phi s = Some dO2 /\ opto.dC2_dt P phi s = Some dC2 /\
    dC1 + dO1 + dO2 + dC2 = 0.
Proof.
  intros Hphi Hphim Hp Hq.
  destruct (rates_defined P phi Hphi Hphim Hp Hq)
    as (hp & hq & _ & _ & _ & E1 & E2 & E3 & E4).
  unfold opto.dC1_dt, opto.dO1_dt, opto.dO2_dt, opto.dC2_dt.
  rewrite E1, E2, E3, E4. cbn [mbind option_bind].
  eexists _, _, _, _. repeat (split; [reflexivity|]). ring.
Qed.

(** ChR2 under a flux of 1e21 photons per second and square metre. *)
Lemma four_state_keeps_total_occupancy_witness :
  exists dC1 dO1 dO2 dC2,
    opto.dC1_dt opto.ChR2_four_state 1e21 lit_synapse = Some dC1 /\
    opto.dO1_dt opto.ChR2_four_state 1e21 lit_synapse = Some dO1 /\
    opto.dO2_dt opto.ChR2_four_state 1e21 lit_synapse = Some dO2 /\
    opto.dC2_dt opto.ChR2_four_state 1e21 lit_synapse = Some dC2 /\
    dC1 + dO1 + dO2 + dC2 = 0.
Proof.
  apply (four_state_keeps_total_occupancy opto.ChR2_four_state 1e21 lit_synapse);
    cbn [opto.ChR2_four_state opto.param_phim opto.param_p opto.param_q]; lra.
Defined.

(** X19. The light opens the channels at a bounded rate.  For a flux that is
    not negative and rate constants that are not negative, the activation
    rates [Ga1] and [Ga2] lie between 0 and [k1] and [k2], and the
    transition rates [Gf] and [Gb] between their dark values [Gf0] and
    [Gb0] and these plus [kf] and [kb]; in the dark they are 0, 0, [Gf0]
    and [Gb0]. *)
Theorem four_state_rates_are_bounded P phi :
  0 <= phi -> 0 < opto.param_phim P ->
  0 <= opto.param_p P -> 0 <= opto.param_q P ->
  0 <= opto.param_k1 P -> 0 <= opto.param_k2 P ->
  0 <= opto.param_kf P -> 0 <= opto.param_kb P ->
  exists ga1 ga2 gf gb,
    opto.Ga1 P phi = Some ga1 /\ opto.Ga2 P phi = Some ga2 /\
    opto.Gf P phi = Some gf /\ opto.Gb P phi = Some gb /\
    0 <= ga1 <= opto.param_k1 P /\ 0 <= ga2 <= opto.param_k2 P /\
    opto.param_Gf0 P <= gf <= opto.param_Gf0 P + opto.param_kf P /\
    opto.param_Gb0 P <= gb <= opto.param_Gb0 P + opto.param_kb P /\
    (phi = 0 ->
     ga1 = 0 /\ ga2 = 0 /\ gf = opto.param_Gf0 P /\ gb = opto.param_Gb0 P).
Proof.
  intros Hphi Hphim Hp Hq Hk1 Hk2 Hkf Hkb.
  destruct (rates_defined P phi Hphi Hphim Hp Hq)
    as (hp & hq & Hhp & Hhq & Hdark & -> & -> & -> & ->).
  eexists _, _, _, _. repeat (split; [reflexivity|]).
  split; [nra|]. split; [nra|]. split; [nra|]. split; [nra|].
  intros [-> ->]%Hdark. repeat (split; [ring|]). ring.
Qed.

(** ChR2 under the same flux. *)
Lemma four_state_rates_are_bounded_witness :
  exists ga1 ga2 gf gb,
    opto.Ga1 opto.ChR2_four_state 1e21 = Some ga1 /\
    opto.Ga2 opto.ChR2_four_state 1e21 = Some ga2 /\
    opto.Gf opto.ChR2_four_state 1e21 = Some gf /\
    opto.Gb opto.ChR2_four_state 1e21 = Some gb /\
    0 <= ga1 <= opto.param_k1 opto.ChR2_four_state /\
    0 <= ga2 <= opto.param_k2 opto.ChR2_four_state /\
    opto.param_Gf0 opto.ChR2_four_state <= gf
      <= opto.param_Gf0 opto.ChR2_four_state + opto.param_kf opto.ChR2_four_state /\
    opto.param_Gb0 opto.ChR2_four_state <= gb
      <= opto.param_Gb0 opto.ChR2_four_state + opto.param_kb opto.ChR2_four_state /\
    (1e21 = 0 ->
     ga1 = 0 /\ ga2 = 0 /\ gf = opto.param_Gf0 opto.ChR2_four_state /\
     gb = opto.param_Gb0 opto.ChR2_four_state).
Proof.
  apply (four_state_rates_are_bounded opto.ChR2_four_state 1e21);
    cbn [opto.ChR2_four_state opto.param_phim opto.param_p opto.param_q
         opto.param_k1 opto.param_k2 opto.param_kf opto.param_kb]; lra.
Defined.

(** X20. The state that [reset] restores is a state of rest.  On every
    synapse of a reset intervention whose transmittance and photon energy
    are numbers, the flux is zero, the three occupancies do not move, and
    no photocurrent flows, whatever the membrane potential: in the dark,
    closed channels stay closed. *)
Theorem reset_state_is_at_rest self name opto_syn' s' T Ephoton V :
  opto.opto_syns (opto.reset self) !! name = Some opto_syn' ->
  s' ∈ opto.synapses opto_syn' ->
  opto.var_T s' = Some T ->
  opto.namespace_Ephoton opto_syn' = Some Ephoton -> Ephoton <> 0 ->
  let P := opto.namespace opto_syn' in
  0 < opto.param_phim P -> 0 <= opto.param_p P -> 0 <= opto.param_q P ->
  opto.param_v0 P <> 0 ->
  opto.phi (opto.namespace_Ephoton opto_syn') s' = Some 0 /\
  opto.dC1_dt P 0 s' = Some 0 /\ opto.dO1_dt P 0 s' = Some 0 /\
  opto.dO2_dt P 0 s' = Some 0 /\ opto.IOPTO P V s' = Some 0.
Proof.
  intros Hk Hs' HT HE HE0 P Hphim Hp Hq Hv0.
  cbn [opto.reset opto.opto_syns opto.with_opto_syns] in Hk.
  rewrite lookup_fmap in Hk.
  destruct (opto.opto_syns self !! name) as [opto_syn|] eqn:E; [|done].
  injection Hk as <-. rewrite init_opto_syn_vars_assign in Hs'.
  cbn [opto.assign opto.synapses] in Hs'.
  apply list_elem_of_fmap in Hs' as (s & -> & Hs).
  destruct (rates_defined P 0 ltac:(lra) Hphim Hp Hq)
    as (hp & hq & _ & _ & Hdark & E1 & E2 & E3 & E4).
  destruct (Hdark eq_refl) as [-> ->].
  unfold opto.phi, opto.Irr, opto.dC1_dt, opto.dO1_dt, opto.dO2_dt, opto.IOPTO,
    opto.fv, opto.fphi, opto.C2.
  rewrite HE, E1, E2, E3, E4.
  cbn [opto.var_T opto.set_O2 opto.set_O1 opto.set_C1 opto.set_Irr0] in HT |- *.
  rewrite HT. cbn [mbind option_bind].
  rewrite !checked_div_ok by done. cbn [mbind option_bind].
  cbn [opto.var_Irr0 opto.var_C1 opto.var_O1 opto.var_O2 opto.var_rho_rel
       opto.set_O2 opto.set_O1 opto.set_C1 opto.set_Irr0].
  split; [f_equal; field; done|].
  split; [f_equal; ring|]. split; [f_equal; ring|]. split; [f_equal; ring|].
  f_equal. unfold Rdiv. ring.
Qed.

(** The synapse of [lit_intervention] after a reset, at a membrane
    potential of -70 mV. *)
Lemma reset_state_is_at_rest_witness :
  let s' := opto.set_O2 0 (opto.set_O1 0 (opto.set_C1 1
              (opto.set_Irr0 0 lit_synapse))) in
  let Ephoton := 6.63e-34 * 1 * 1 / 1 * 2.998e8 * 1 / 1 / (473 * 1e-9) in
  opto.phi (Some Ephoton) s' = Some 0 /\
  opto.dC1_dt opto.ChR2_four_state 0 s' = Some 0 /\
  opto.dO1_dt opto.ChR2_four_state 0 s' = Some 0 /\
  opto.dO2_dt opto.ChR2_four_state 0 s' = Some 0 /\
  opto.IOPTO opto.ChR2_four_state (-0.07) s' = Some 0.
Proof.
  intros s' Ephoton.
  assert (Hw : 473 * 1e-9 <> 0) by lra.
  assert (HE : opto.E_photon default_blue = Some Ephoton).
  { unfold opto.E_photon. params_of_default_blue. by rewrite checked_div_ok. }
  pose proof (reset_state_is_at_rest lit_intervention "ng"
    (opto._init_opto_syn_vars
       {| opto.syn_obj := 0; opto.syn_name := "synapses_opto_ng";
          opto.v_var_name := "v"; opto.Iopto_var_name := "Iopto";
          opto.namespace := opto.ChR2_four_state;
          opto.namespace_Ephoton := opto.E_photon default_blue;
          opto.synapses := [lit_synapse] |})
    s' 0.2 Ephoton (-0.07)) as H.
  cbn [opto.namespace opto._init_opto_syn_vars opto.assign
       opto.namespace_Ephoton] in H.
  rewrite HE in H. apply H.
  - unfold lit_intervention, opto.reset.
    cbn [opto.opto_syns opto.with_opto_syns].
    rewrite map_fmap_singleton, lookup_singleton_eq.
    cbn [opto._init_opto_syn_vars opto.assign opto.namespace
         opto.namespace_Ephoton opto.syn_obj opto.syn_name opto.v_var_name
         opto.Iopto_var_name opto.synapses].
    by rewrite HE.
  - cbn [opto.synapses map]. apply list_elem_of_singleton. reflexivity.
  - reflexivity.
  - reflexivity.
  - unfold Ephoton. apply Rmult_integral_contrapositive.
    split; [lra|]. apply Rinv_neq_0_compat. lra.
  - cbn [opto.ChR2_four_state opto.param_phim]. lra.
  - cbn [opto.ChR2_four_state opto.param_p]. lra.
  - cbn [opto.ChR2_four_state opto.param_q]. lra.
  - cbn [opto.ChR2_four_state opto.param_v0]. lra.
Defined.

End Rates_claims.

(** ** Connecting a neuron group *)

Section Connecting.
Local Open Scope R_scope.

Lemma subset_T_seq (T : list (option R)) a n :
  (a + n <= length T)%nat ->
  opto.subset_T T (seq a n) = opto.Ok (take n (drop a T)).
Proof.
  revert a. induction n as [|n IH]; intros a Hlen; [done|].
  cbn [seq opto.subset_T].
  destruct (lookup_lt_is_Some_2 T a ltac:(lia)) as [t Ht].
  rewrite Ht, IH by lia. by rewrite (drop_S _ _ _ Ht).
Qed.

Lemma subset_T_all (T : list (option R)) :
  opto.subset_T T (seq 0 (length T)) = opto.Ok T.
Proof. rewrite subset_T_seq by lia. by rewrite drop_0, firstn_all. Qed.

Lemma lacks_variable_present neuron_group variable unit :
  opto.variables neuron_group !! variable = Some unit ->
  opto.lacks_variable neuron_group variable unit = opto.Ok false.
Proof.
  intros H. unfold opto.lacks_variable, opto.Unit_ne. rewrite H.
  by destruct unit.
Qed.

Lemma lacks_variable_missing neuron_group variable unit :
  opto.variables neuron_group !! variable = None ->
  opto.lacks_variable neuron_group variable unit = opto.Ok true.
Proof. intros H. unfold opto.lacks_variable. by rewrite H. Qed.

Lemma lacks_variable_mismatch neuron_group variable unit its_unit :
  opto.variables neuron_group !! variable = Some its_unit ->
  its_unit <> unit ->
  opto.lacks_variable neuron_group variable unit
  = opto.Raise opto.DimensionMismatchError.
Proof.
  intros H Hne. unfold opto.lacks_variable, opto.Unit_ne. rewrite H.
  by destruct its_unit, unit.
Qed.

(** The synapses that [connect_to_neuron_group] has before it assigns the
    transmittance, when every neuron expresses the opsin. *)
Lemma fresh_synapses self neuron_group kw drawn :
  opto.kw_p_expression kw = 1 ->
  opto.synapses
    (opto.assign (opto.set_rho_rel (opto.kw_rho_rel kw))
       (opto._init_opto_syn_vars
          {| opto.syn_obj := opto.next_obj self;
             opto.syn_name := "synapses_" +:+ opto.opto_name self +:+ "_"
                              +:+ opto.name neuron_group;
             opto.v_var_name := opto.kw_v_var_name kw;
             opto.Iopto_var_name := opto.kw_Iopto_var_name kw;
             opto.namespace := opto.opsin_params self;
             opto.namespace_Ephoton := opto.E_photon (opto.model_params self);
             opto.synapses :=
               opto.connected neuron_group (opto.kw_p_expression kw) drawn |}))
  = map (fun k =>
           {| opto.syn_i := k; opto.var_Irr0 := 0; opto.var_C1 := 1;
              opto.var_O1 := 0; opto.var_O2 := 0;
              opto.var_rho_rel := opto.kw_rho_rel kw; opto.var_T := Some 0 |})
      (seq 0 (length (opto.x neuron_group))).
Proof.
  intros Hp. rewrite init_opto_syn_vars_assign, assign_compose.
  cbn [opto.assign opto.synapses]. unfold opto.connected. rewrite Hp.
  destruct (Req_dec_T 1 1); [|done]. by rewrite map_map.
Qed.

End Connecting.

Section Connecting_claims.
Local Open Scope R_scope.

(** X21. [connect_to_neuron_group] gives every neuron of the group a synapse
    that is dark and closed, with the transmittance of the neuron's
    position.  For a group that has the membrane potential in volt and the
    opsin current in ampere, coordinates of one length, physical light
    parameters, all neurons at or ahead of the fiber tip and an expression
    probability of 1, the call returns; the [Synapses] object is stored
    under the name of the group and added to [brian_objects]; it has one
    synapse per neuron, in order, with [Irr0 = 0], [C1 = 1], [O1 = O2 = 0],
    the given [rho_rel], and as [T] the value of
    [_Foutz12_transmittance] at the cylinder coordinates that
    [_get_rz_for_xyz] gives for the neuron, a number between 0 and
    1/sqrt(2 pi).  For a group whose model has no membrane potential, or
    has it but no opsin current, the call raises [BrianObjectException];
    for a group that has one of the two with a unit of other dimensions,
    the comparison of the units raises [DimensionMismatchError]. *)
Theorem connect_to_neuron_group_makes_closed_synapses self neuron_group kw drawn :
  opto.variables neuron_group !! opto.kw_v_var_name kw = Some opto.volt ->
  opto.variables neuron_group !! opto.kw_Iopto_var_name kw = Some opto.amp ->
  opto.kw_p_expression kw = 1 ->
  length (opto.x neuron_group) = length (opto.y neuron_group) ->
  length (opto.y neuron_group) = length (opto.z neuron_group) ->
  physical_params (opto.model_params self) ->
  (forall k xk yk zk,
     opto.x neuron_group !! k = Some xk -> opto.y neuron_group !! k = Some yk ->
     opto.z neuron_group !! k = Some zk ->
     0 <= opto.dot (opto.vsub (xk, yk, zk) (opto.location self))
            (opto.dir_uvec self)) ->
  (exists self' opto_syn r zc,
     opto.connect_to_neuron_group neuron_group kw drawn self = opto.Ok self' /\
     opto._get_rz_for_xyz (opto.location self) (opto.dir_uvec self)
       (opto.x neuron_group) (opto.y neuron_group) (opto.z neuron_group)
     = opto.Ok (r, zc) /\
     opto.opto_syns self'
     = <[opto.name neuron_group := opto_syn]> (opto.opto_syns self) /\
     opto.brian_objects self'
     = {[opto.syn_obj opto_syn]} ∪ opto.brian_objects self /\
     length (opto.synapses opto_syn) = length (opto.x neuron_group) /\
     forall k s,
       opto.synapses opto_syn !! k = Some s ->
       opto.syn_i s = k /\ opto.var_Irr0 s = 0 /\ opto.var_C1 s = 1 /\
       opto.var_O1 s = 0 /\ opto.var_O2 s = 0 /\
       opto.var_rho_rel s = opto.kw_rho_rel kw /\
       exists rk zk t,
         r !! k = Some rk /\ zc !! k = Some zk /\
         _Foutz12_transmittance (opto.model_params self) rk zk true true true
         = Some t /\
         opto.var_T s = Some t /\ 0 <= t <= 1 / sqrt (2 * PI)) /\
  (forall other_group,
     opto.variables other_group !! opto.kw_v_var_name kw = None ->
     opto.connect_to_neuron_group other_group kw drawn self
     = opto.Raise (opto.BrianObjectException (opto.kw_v_var_name kw))) /\
  (forall other_group its_unit,
     opto.variables other_group !! opto.kw_v_var_name kw = Some its_unit ->
     its_unit <> opto.volt ->
     opto.connect_to_neuron_group other_group kw drawn self
     = opto.Raise opto.DimensionMismatchError) /\
  (forall other_group,
     opto.variables other_group !! opto.kw_v_var_name kw = Some opto.volt ->
     opto.variables other_group !! opto.kw_Iopto_var_name kw = None ->
     opto.connect_to_neuron_group other_group kw drawn self
     = opto.Raise (opto.BrianObjectException (opto.kw_Iopto_var_name kw))) /\
  (forall other_group its_unit,
     opto.variables other_group !! opto.kw_v_var_name kw = Some opto.volt ->
     opto.variables other_group !! opto.kw_Iopto_var_name kw = Some its_unit ->
     its_unit <> opto.amp ->
     opto.connect_to_neuron_group other_group kw drawn self
     = opto.Raise opto.DimensionMismatchError).
Proof.
  intros Hv Hi Hp Hxy Hyz Hphys Hahead. split.
  2:{ split; [|split; [|split]].
      - intros other Hno. unfold opto.connect_to_neuron_group.
        by rewrite lacks_variable_missing.
      - intros other u Hu Hne. unfold opto.connect_to_neuron_group.
        by rewrite (lacks_variable_mismatch _ _ _ u).
      - intros other Hov Hno. unfold opto.connect_to_neuron_group.
        rewrite (lacks_variable_present _ _ _ Hov).
        by rewrite lacks_variable_missing.
      - intros other u Hov Hu Hne. unfold opto.connect_to_neuron_group.
        rewrite (lacks_variable_present _ _ _ Hov).
        by rewrite (lacks_variable_mismatch _ _ _ u). }
  unfold opto.connect_to_neuron_group.
  rewrite !lacks_variable_present by done.
  rewrite (fresh_synapses self neuron_group kw drawn Hp).
  unfold opto._get_rz_for_xyz. rewrite Hxy, Hyz, Nat.eqb_refl. cbn [andb].
  set (n := length (opto.z neuron_group)).
  set (rel := map (fun c => opto.vsub c (opto.location self))
                (zip (zip (opto.x neuron_group) (opto.y neuron_group))
                   (opto.z neuron_group))).
  set (zc := map (fun c => opto.dot c (opto.dir_uvec self)) rel).
  set (r := zip_with (fun c zk =>
               sqrt (opto.sum_sq (opto.vsub c (opto.vscale zk (opto.dir_uvec self)))))
              rel zc).
  set (T := zip_with (fun rk zk =>
               _Foutz12_transmittance (opto.model_params self) rk zk true true true)
              r zc).
  assert (Hrel : length rel = n).
  { unfold rel. rewrite length_map, !length_zip_with. lia. }
  assert (Hzc : length zc = n) by (unfold zc; by rewrite length_map).
  assert (Hr : length r = n) by (unfold r; rewrite length_zip_with; lia).
  assert (HT : length T = n) by (unfold T; rewrite length_zip_with; lia).
  assert (Hidx : opto.syn_i <$>
            map (fun k =>
              {| opto.syn_i := k; opto.var_Irr0 := 0; opto.var_C1 := 1;
                 opto.var_O1 := 0; opto.var_O2 := 0;
                 opto.var_rho_rel := opto.kw_rho_rel kw; opto.var_T := Some 0 |})
              (seq 0 n) = seq 0 (length T)).
  { rewrite HT. change (?f <$> map ?g ?l) with (map f (map g l)).
    rewrite map_map. cbn [opto.syn_i]. apply map_id. }
  rewrite Hidx, subset_T_all.
  eexists _, _, r, zc. split; [reflexivity|]. split; [reflexivity|].
  cbn [opto.opto_syns opto.brian_objects].
  split; [reflexivity|]. split; [reflexivity|].
  cbn [opto.assign_T opto.synapses].
  rewrite (fresh_synapses self neuron_group kw drawn Hp).
  split.
  { rewrite length_zip_with, length_map, length_seq. unfold n in HT. lia. }
  intros k s Hs. rewrite lookup_zip_with in Hs.
  change (map ?f ?l) with (f <$> l) in Hs. rewrite list_lookup_fmap in Hs.
  destruct (seq 0 _ !! k) as [k'|] eqn:Hk; [|done].
  apply lookup_seq in Hk as [-> Hlt]. cbn [fmap option_fmap option_map mbind
    option_bind] in Hs.
  destruct (T !! k) as [t|] eqn:Ht; [|done].
  cbn [mbind option_bind] in Hs. injection Hs as <-.
  cbn [opto.set_T opto.syn_i opto.var_Irr0 opto.var_C1 opto.var_O1 opto.var_O2
       opto.var_rho_rel opto.var_T].
  repeat (split; [reflexivity|]).
  unfold T in Ht. rewrite lookup_zip_with in Ht.
  destruct (r !! k) as [rk|] eqn:Hrk; [|done].
  destruct (zc !! k) as [zk|] eqn:Hzk; [|done].
  cbn [mbind option_bind] in Ht. injection Ht as <-.
  assert (Hzk0 : 0 <= zk).
  { unfold zc in Hzk. change (map ?f ?l) with (f <$> l) in Hzk.
    rewrite list_lookup_fmap in Hzk.
    destruct (rel !! k) as [c|] eqn:Hc; [|done]. injection Hzk as <-.
    unfold rel in Hc. change (map ?f ?l) with (f <$> l) in Hc.
    rewrite list_lookup_fmap, !lookup_zip_with in Hc.
    destruct (opto.x neuron_group !! k) as [xk|] eqn:Hx; [|done].
    destruct (opto.y neuron_group !! k) as [yk|] eqn:Hy; [|done].
    destruct (opto.z neuron_group !! k) as [zk|] eqn:Hz; [|done].
    injection Hc as <-. by apply (Hahead k). }
  pose proof (apparent_radius_pos _ zk Hphys Hzk0) as HRz.
  exists rk, zk, (transmittance_value (opto.model_params self) rk zk).
  split; [done|]. split; [done|].
  rewrite Foutz12_defined by (done || lra).
  split; [done|]. split; [done|].
  destruct (transmittance_value_peak (opto.model_params self) rk zk Hphys Hzk0)
    as [Hpos Hpeak].
  split; [lra|done].
Qed.

(** The group of one neuron connected with the default keyword arguments;
    the same neuron in a model without [v], and in a model whose [v] is a
    current. *)
Lemma connect_to_neuron_group_makes_closed_synapses_witness :
  (exists self' opto_syn r zc,
     opto.connect_to_neuron_group one_neuron opto.default_kwparams []
       lit_intervention = opto.Ok self' /\
     opto._get_rz_for_xyz (0, 0, 0) (0, 0, 1) [0] [0] [1e-3] = opto.Ok (r, zc) /\
     opto.opto_syns self'
     = <["ng" := opto_syn]> (opto.opto_syns lit_intervention) /\
     opto.brian_objects self'
     = {[opto.syn_obj opto_syn]} ∪ opto.brian_objects lit_intervention /\
     length (opto.synapses opto_syn) = 1%nat /\
     forall k s,
       opto.synapses opto_syn !! k = Some s ->
       opto.syn_i s = k /\ opto.var_Irr0 s = 0 /\ opto.var_C1 s = 1 /\
       opto.var_O1 s = 0 /\ opto.var_O2 s = 0 /\
       opto.var_rho_rel s = 1 /\
       exists rk zk t,
         r !! k = Some rk /\ zc !! k = Some zk /\
         _Foutz12_transmittance default_blue rk zk true true true = Some t /\
         opto.var_T s = Some t /\ 0 <= t <= 1 / sqrt (2 * PI)) /\
  opto.connect_to_neuron_group no_potential opto.default_kwparams []
    lit_intervention
  = opto.Raise (opto.BrianObjectException "v") /\
  opto.connect_to_neuron_group potential_in_ampere opto.default_kwparams []
    lit_intervention
  = opto.Raise opto.DimensionMismatchError.
Proof.
  assert (Hahead : forall k xk yk zk,
            opto.x one_neuron !! k = Some xk ->
            opto.y one_neuron !! k = Some yk ->
            opto.z one_neuron !! k = Some zk ->
            0 <= opto.dot (opto.vsub (xk, yk, zk)
                             (opto.location lit_intervention))
                   (opto.dir_uvec lit_intervention)).
  { intros [|k] xk yk zk Hx Hy Hz; [|done].
    injection Hx as <-. injection Hy as <-. injection Hz as <-.
    unfold opto.dot, opto.vsub. cbn [fst snd lit_intervention opto.location
      opto.dir_uvec]. lra. }
  destruct (connect_to_neuron_group_makes_closed_synapses lit_intervention
              one_neuron opto.default_kwparams [] eq_refl eq_refl eq_refl
              eq_refl eq_refl physical_default_blue Hahead)
    as (Hret & Hmissing & Hmismatch & _).
  split; [exact Hret|]. split.
  - apply Hmissing. reflexivity.
  - apply (Hmismatch potential_in_ampere opto.amp); [reflexivity|discriminate].
Defined.

End Connecting_claims.
